(** * Beacon scanner registration (Advent of Code 2021, day 19)

    A shallow embedding of the notebook's [_rotations], [Scanner],
    [BeaconMap] and [max_distance], and the properties of its
    specification.

    Conventions of the embedding.

    - A beacon array of shape (n, 3) is a [list Point]; a [Point] is a
      triple of integers.  The input arrays are [int16]; [ROTATIONS] is
      an [int64] array (it is built from [np.array([-1, 1])]), so every
      derived array ([orientations], [offsets], [repositioned], the
      beacons and the position of a placed scanner) is [int64] by
      numpy's promotion.  A placement adds at most 2^16 to the largest
      coordinate ([placed_within]), so no operation of the program
      wraps, and coordinates are integers of [Z].
    - [pdist] converts to [float64]; [Float64] holds that arithmetic
      as scipy performs it.  While every coordinate is at most 2^24 in
      absolute value the sum of squares is computed exactly and stays
      below 2^52, where the correctly rounded square root tells two
      integers apart: two keys of the [distances] dict are equal exactly
      when the squared distances are.  The dict is keyed on the squared
      distance, and the theorems whose truth depends on the key carry
      that bound as a hypothesis.  The cityblock metric is exact while
      the positions are at most 2^50 in absolute value, and the theorems
      on the value of [max_distance] carry that bound.
    - A [dict] is a [gmap], a [set] is a [gset].  The order in which
      CPython iterates over a [set] is not fixed by the language: it is
      a parameter ([set_order]) of the matcher, and the theorems hold
      for every order.
    - Python exceptions are the [Raise] outcomes of an error monad.
    - [cached_property] writes the instance [__dict__]: the object
      level ([Heap]) keeps those caches, the value level computes the
      properties afresh. *)

From stdpp Require Import base numbers option list sorting gmap sets.
From Stdlib Require Import ZArith Lia.
From Stdlib Require Floats.SpecFloat.

#[local] Set Warnings "-clear-no-such-hyp".

(** ** Outcomes: a value or a Python exception *)

Inductive exn : Set := IndexError | KeyError | StopIteration | ValueError.

Inductive outcome (A : Type) : Type :=
  | Ok (a : A)
  | Raise (e : exn).
Arguments Ok {A} a.
Arguments Raise {A} e.

Global Instance outcome_ret : MRet outcome := λ A a, Ok a.
Global Instance outcome_bind : MBind outcome := λ A B k m,
  match m with Ok a => k a | Raise e => Raise e end.

Definition or_raise {A} (e : exn) (o : option A) : outcome A :=
  match o with Some a => Ok a | None => Raise e end.

(** [seq[i]] of a list or array, [d[k]] of a dict, [next(iter(s))]. *)
Definition getitem {A} (l : list A) (i : nat) : outcome A :=
  or_raise IndexError (l !! i).
Definition dict_get {K} `{Countable K} {V} (d : gmap K V) (k : K) : outcome V :=
  or_raise KeyError (d !! k).
Definition next {A} (it : list A) : outcome A :=
  or_raise StopIteration (head it).

Fixpoint mapM_outcome {A B} (f : A → outcome B) (l : list A) : outcome (list B) :=
  match l with
  | [] => Ok []
  | a :: l' => b ← f a; bs ← mapM_outcome f l'; Ok (b :: bs)
  end.

(** ** The numpy and itertools operations the program uses *)

Module Np.

(** [itertools.permutations]: every element in turn, followed by the
    permutations of the others. *)
Fixpoint selections {A} (l : list A) : list (A * list A) :=
  match l with
  | [] => []
  | x :: r => (x, r) :: map (λ yr : A * list A, (yr.1, x :: yr.2)) (selections r)
  end.

Fixpoint permutations_upto {A} (n : nat) (l : list A) : list (list A) :=
  match n with
  | O => [[]]
  | S n' =>
      flat_map (λ xr : A * list A, map (cons xr.1) (permutations_upto n' xr.2))
               (selections l)
  end.

Definition permutations {A} (l : list A) : list (list A) :=
  permutations_upto (length l) l.

(** [np.stack(np.meshgrid(x, y, z), axis=-1).reshape(-1, 3)]: with the
    default "xy" indexing the entry at [i, j, k] is [(x[j], y[i], z[k])]. *)
Definition meshgrid_rows {A} (x y z : list A) : list (list A) :=
  flat_map (λ yi, flat_map (λ xj, map (λ zk, [xj; yi; zk]) z) x) y.

(** [np.pad(a, ((0, 0), (0, 1)), constant_values=c)]. *)
Definition pad_right {A} (c : A) (a : list (list A)) : list (list A) :=
  map (λ row, row ++ [c]) a.

(** [np.repeat(a, n, axis=0)] and [np.tile(a, (n, 1))]. *)
Definition repeat_rows {A} (n : nat) (a : list A) : list A :=
  flat_map (replicate n) a.
Definition tile_rows {A} (n : nat) (a : list A) : list A :=
  mjoin (replicate n a).

(** [np.tril_indices(n, -1)]: the places strictly below the diagonal,
    row by row. *)
Definition tril_indices_below (n : nat) : list (nat * nat) :=
  flat_map (λ r, map (λ c, (r, c)) (seq 0 r)) (seq 0 n).

Definition prod_list (l : list Z) : Z := foldr Z.mul 1%Z l.
Definition sum_list_Z (l : list Z) : Z := foldr Z.add 0%Z l.

Definition identity (n : nat) : list (list Z) :=
  map (λ r, map (λ c, if decide (r = c) then 1%Z else 0%Z) (seq 0 n)) (seq 0 n).

(** [v @ M] for a row vector [v] and a square matrix [M]. *)
Definition vecmat (v : list Z) (M : list (list Z)) : list Z :=
  foldr (λ (ar : Z * list Z) acc, zip_with Z.add (map (Z.mul ar.1) ar.2) acc)
        (replicate (length v) 0%Z) (zip v M).

(** [np.argmax]: the first place of the largest value.  The program
    reaches it only past [np.any(counts >= 12)], on an array that is
    not empty. *)
Fixpoint argmax_from (best : Z) (besti i : nat) (l : list Z) : nat :=
  match l with
  | [] => besti
  | x :: l' =>
      if (best <? x)%Z then argmax_from x i (S i) l'
      else argmax_from best besti (S i) l'
  end.
Definition argmax (l : list Z) : nat :=
  match l with
  | [] => 0
  | x :: l' => argmax_from x 0 1 l'
  end.

End Np.

(** ** The orientation table *)

Definition MIN_BEACONS_IN_COMMON : Z := 12.
(** [math.comb(12, 2)]. *)
Definition MIN_COMMON_DISTANCES : Z :=
  (MIN_BEACONS_IN_COMMON * (MIN_BEACONS_IN_COMMON - 1)) `div` 2.

Definition zat (l : list Z) (i : nat) : Z := nth i l 0%Z.

Definition _rotations : list (list (list Z)) :=
  let eye := Np.identity 4 in
  let rows := Np.pad_right 3%Z (Np.permutations [0; 1; 2]%Z) in
  let signs :=
    Np.pad_right 1%Z
      (map (map (λ b : nat, zat [-1; 1]%Z b)) (Np.meshgrid_rows [0; 1] [0; 1] [0; 1])) in
  let signs' := Np.repeat_rows (length rows) signs in
  let rows' := Np.tile_rows (length signs) rows in
  let t := Np.tril_indices_below 3 in
  let rowsparity := map (λ row,
        Np.prod_list (map (λ xy : nat * nat, Z.sgn (zat row xy.1 - zat row xy.2)) t)) rows' in
  let signsparity := map (λ s, Np.prod_list (take 3 s)) signs' in
  let keep := zip_with (λ a b, bool_decide (a = b)) rowsparity signsparity in
  let signs'' := (filter (λ sb : list Z * bool, sb.2 = true) (zip signs' keep)).*1 in
  let rows'' := (filter (λ rb : list Z * bool, rb.2 = true) (zip rows' keep)).*1 in
  zip_with (λ s row,
      let signed := zip_with (λ sr eyerow, map (Z.mul sr) eyerow) s eye in
      map (λ r : Z, nth (Z.to_nat r) signed []) row)
    signs'' rows''.

Definition ROTATIONS : list (list (list Z)) := _rotations.
Definition NOR : nat := length ROTATIONS.

(** ** Points and scanners *)

Definition Point : Type := Z * Z * Z.

Definition vadd (p q : Point) : Point :=
  (p.1.1 + q.1.1, p.1.2 + q.1.2, p.2 + q.2)%Z.
Definition vsub (p q : Point) : Point :=
  (p.1.1 - q.1.1, p.1.2 - q.1.2, p.2 - q.2)%Z.

(** [@dataclass class Scanner]: [position] defaults to [np.zeros(3)]. *)
Record Scanner : Type := mkScanner {
  beacons : list Point;
  position : Point
}.

Definition zeros3 : Point := (0, 0, 0)%Z.
Definition Scanner_default (b : list Point) : Scanner := mkScanner b zeros3.

Global Instance Scanner_eq_dec : EqDecision Scanner.
Proof. solve_decision. Defined.

(** [scipy.spatial.distance.pdist] and [itertools.combinations(_, 2)]
    enumerate the pairs [i < j] in the same order.  [sqeuclidean] and
    [cityblock] are the exact values; [pdist] works in float64
    ([Float64.euclidean], [Float64.cityblock]), which gives the square
    root of the first as long as coordinates are at most 2^24 in
    absolute value, and the second as long as they are at most 2^50. *)
Definition sqeuclidean (p q : Point) : Z :=
  ((p.1.1 - q.1.1) ^ 2 + (p.1.2 - q.1.2) ^ 2 + (p.2 - q.2) ^ 2)%Z.
Definition cityblock (p q : Point) : Z :=
  (Z.abs (p.1.1 - q.1.1) + Z.abs (p.1.2 - q.1.2) + Z.abs (p.2 - q.2))%Z.

Fixpoint pdist (metric : Point → Point → Z) (X : list Point) : list Z :=
  match X with
  | [] => []
  | p :: X' => (metric p <$> X') ++ pdist metric X'
  end.

Fixpoint combinations2 {A} (l : list A) : list (A * A) :=
  match l with
  | [] => []
  | x :: l' => (pair x <$> l') ++ combinations2 l'
  end.

(** [Scanner.distances]: from a distance to the indices of the beacons
    of the pairs at that distance. *)
Definition distances_update (m : gmap Z (gset nat)) (dp : Z * (nat * nat))
  : gmap Z (gset nat) :=
  let '(dist, (i, j)) := dp in
  match m !! dist with
  | Some ixs => <[dist := ixs ∪ {[i; j]}]> m   (* map[dist].update(pair) *)
  | None => <[dist := {[i; j]}]> m             (* map[dist] = set(pair) *)
  end.

Definition distances_of (b : list Point) : gmap Z (gset nat) :=
  foldl distances_update ∅
        (zip (pdist sqeuclidean b) (combinations2 (seq 0 (length b)))).

Definition distances (self : Scanner) : gmap Z (gset nat) :=
  distances_of (beacons self).

(** [Scanner.orientations]: pad with ones, multiply by every rotation,
    drop the padding; the shape is (24, n, 3). *)
Definition aug (p : Point) : list Z := [p.1.1; p.1.2; p.2; 1%Z].
Definition unpad (v : list Z) : Point := (zat v 0, zat v 1, zat v 2).
Definition rotate (R : list (list Z)) (p : Point) : Point :=
  unpad (Np.vecmat (aug p) R).

Definition orientations_of (b : list Point) : list (list Point) :=
  (λ R, rotate R <$> b) <$> ROTATIONS.

Definition orientations (self : Scanner) : list (list Point) :=
  orientations_of (beacons self).

(** ** The order of iteration over a set

    [__and__] iterates over three sets: the shared distances, the index
    set of the other scanner at the chosen distance, and its own index
    set at that distance.  Each order may depend on how CPython built
    the set, hence on the two scanners; all that is known is that every
    element comes exactly once. *)
Record set_order : Type := mkSetOrder {
  iter_shared : Scanner → Scanner → gset Z → list Z;
  iter_other_pairs : Scanner → Scanner → gset nat → list nat;
  iter_own_pairs : Scanner → Scanner → gset nat → list nat;
  iter_shared_perm : ∀ a b s, iter_shared a b s ≡ₚ elements s;
  iter_other_pairs_perm : ∀ a b s, iter_other_pairs a b s ≡ₚ elements s;
  iter_own_pairs_perm : ∀ a b s, iter_own_pairs a b s ≡ₚ elements s
}.

(** The order of stdpp's [elements]. *)
Definition elements_order : set_order :=
  {| iter_shared := λ _ _, elements;
     iter_other_pairs := λ _ _, elements;
     iter_own_pairs := λ _ _, elements;
     iter_shared_perm := λ _ _ _, reflexivity _;
     iter_other_pairs_perm := λ _ _ _, reflexivity _;
     iter_own_pairs_perm := λ _ _ _, reflexivity _ |}.

(** ** The pairwise matcher, [Scanner.__and__] *)

(** [np.unique(a, axis=0, return_inverse=True)]: the sorted distinct
    rows, and for every row of [a] its place among them. *)
Definition point_le (p q : Point) : Prop :=
  (p.1.1 < q.1.1 ∨ (p.1.1 = q.1.1 ∧
    (p.1.2 < q.1.2 ∨ (p.1.2 = q.1.2 ∧ p.2 ≤ q.2))))%Z.

Global Instance point_le_dec : RelDecision point_le.
Proof. intros p q. unfold point_le. apply _. Defined.

Fixpoint index_of (x : Point) (l : list Point) : nat :=
  match l with
  | [] => 0
  | y :: l' => if decide (x = y) then 0 else S (index_of x l')
  end.

Definition np_unique (a : list Point) : list Point * list nat :=
  let values := merge_sort point_le (remove_dups a) in
  (values, (λ r, index_of r values) <$> a).

(** [m = lil_matrix((len(ix), nvalues), dtype=bool); m[arange, ix] = True]. *)
Definition membership (nvalues : nat) (ix : list nat) : list (list bool) :=
  (λ i, (λ v, bool_decide (v = i)) <$> seq 0 nvalues) <$> ix.

(** An entry of a product of boolean matrices [X @ Y.T]: row times row. *)
Definition row_dot (x y : list bool) : bool := existsb id (zip_with andb x y).

(** [(X @ Y.T).T.sum(axis=-1)]: for every row of [Y], how many rows of
    [X] it meets. *)
Definition product_T_sum (X Y : list (list bool)) : list Z :=
  (λ y, Z.of_nat (length (filter (λ x, row_dot x y = true) X))) <$> Y.

(** [m.reshape(-1, k).sum(axis=-1)]. *)
Definition reshape_sum (k : nat) (m : list Z) : list Z :=
  Np.sum_list_Z <$> reshape (replicate (length m `div` k) k) m.

Section matcher.
Variable σ : set_order.

(** One turn of [for i in own_pairs]; [None] stands for [continue]. *)
Definition try_anchor (self_orientations : list (list Point)) (nsb : nat)
    (other_beacons : list Point) (reference : Point) (i : nat)
  : outcome (option Scanner) :=
  let nob := length other_beacons in
  let nsr := (nsb * NOR)%nat in
  offsets ← mapM_outcome (λ o, p ← getitem o i; Ok (vsub reference p))
                          self_orientations;
  let repositioned :=
    zip_with (λ o off, (λ p, vadd p off) <$> o) self_orientations offsets in
  let '(values, ix) := np_unique (other_beacons ++ mjoin repositioned) in
  if bool_decide (Z.of_nat nsr + Z.of_nat nob - 12 < Z.of_nat (length values))%Z
  then Ok None
  else
    let ix_beacons := take nob ix in
    let ix_repos := drop nob ix in
    let obvmembers := membership (length values) ix_beacons in
    let rvmembers := membership (length values) ix_repos in
    let matches := product_T_sum obvmembers rvmembers in
    let counts := reshape_sum nsb matches in
    if negb (existsb (λ c, bool_decide (MIN_BEACONS_IN_COMMON ≤ c)%Z) counts)
    then Ok None
    else
      let orientation := Np.argmax counts in
      new_beacons ← getitem repositioned orientation;
      oriented ← getitem self_orientations orientation;
      p ← getitem oriented i;
      Ok (Some (mkScanner new_beacons (vsub reference p))).

(** The [for] loop: the first anchor that yields a scanner returns
    it; falling off the end returns [None]. *)
Fixpoint for_own_pairs (body : nat → outcome (option Scanner))
    (own_pairs : list nat) : outcome (option Scanner) :=
  match own_pairs with
  | [] => Ok None
  | i :: rest =>
      r ← body i;
      match r with
      | Some placed => Ok (Some placed)
      | None => for_own_pairs body rest
      end
  end.

Definition shared_keys (sd od : gmap Z (gset nat)) : gset Z := dom sd ∩ dom od.

(** [sum(len(self.distances[d]) // 2 for d in shared)]. *)
Definition prefilter_sum (self other : Scanner) (sd : gmap Z (gset nat))
    (shared : gset Z) : outcome Z :=
  halves ← mapM_outcome (λ d, ixs ← dict_get sd d; Ok (Z.of_nat (size ixs) `div` 2)%Z)
                         (iter_shared σ self other shared);
  Ok (Np.sum_list_Z halves).

(** The anchor: one shared distance, one beacon of [other] at that
    distance as the reference, and the own index set to try. *)
Definition choose_anchor (self other : Scanner) (sd od : gmap Z (gset nat))
    (shared : gset Z) : outcome (Point * list nat) :=
  distance ← next (iter_shared σ self other shared);
  other_pairs ← dict_get od distance;
  j ← next (iter_other_pairs σ self other other_pairs);
  reference ← getitem (beacons other) j;
  own_pairs ← dict_get sd distance;
  Ok (reference, iter_own_pairs σ self other own_pairs).

(** What follows the pre-filter. *)
Definition search (self other : Scanner) (sd od : gmap Z (gset nat))
    (shared : gset Z) (self_orientations : list (list Point))
  : outcome (option Scanner) :=
  let nsb := length (beacons self) in
  '(reference, own_pairs) ← choose_anchor self other sd od shared;
  for_own_pairs (try_anchor self_orientations nsb (beacons other) reference)
                own_pairs.

Definition __and__ (self other : Scanner) : outcome (option Scanner) :=
  let sd := distances self in
  let od := distances other in
  let shared := shared_keys sd od in
  total ← prefilter_sum self other sd shared;
  if bool_decide (total < MIN_COMMON_DISTANCES)%Z then Ok None
  else search self other sd od shared (orientations self).

End matcher.

(** ** The matcher on objects: [cached_property] and the new scanner

    A heap is the list of the [Scanner] objects allocated so far, an
    address is a place in it.  numpy arrays are never written in place
    by the program, so an array is a value of its object. *)
Module Heap.

Record object : Type := mkObject {
  o_beacons : list Point;
  o_position : Point;
  o_distances : option (gmap Z (gset nat));      (* __dict__["distances"] *)
  o_orientations : option (list (list Point))    (* __dict__["orientations"] *)
}.

Abbreviation heap := (list object).

Definition value (o : object) : Scanner := mkScanner (o_beacons o) (o_position o).

(** [Scanner(new_beacons, new_pos)]. *)
Definition alloc (s : Scanner) (h : heap) : nat * heap :=
  (length h, h ++ [mkObject (beacons s) (position s) None None]).

(** [self.distances] and [self.orientations]: computed on the first
    access and kept in the object. *)
Definition get_distances (a : nat) (h : heap)
  : outcome (gmap Z (gset nat) * heap) :=
  o ← getitem h a;
  match o_distances o with
  | Some d => Ok (d, h)
  | None =>
      let d := distances (value o) in
      Ok (d, <[a := mkObject (o_beacons o) (o_position o) (Some d) (o_orientations o)]> h)
  end.

Definition get_orientations (a : nat) (h : heap)
  : outcome (list (list Point) * heap) :=
  o ← getitem h a;
  match o_orientations o with
  | Some r => Ok (r, h)
  | None =>
      let r := orientations (value o) in
      Ok (r, <[a := mkObject (o_beacons o) (o_position o) (o_distances o) (Some r)]> h)
  end.

Definition __and__ (σ : set_order) (self other : nat) (h : heap)
  : outcome (option nat * heap) :=
  '(sd, h) ← get_distances self h;
  '(od, h) ← get_distances other h;
  so ← getitem h self;
  oo ← getitem h other;
  let shared := shared_keys sd od in
  total ← prefilter_sum σ (value so) (value oo) sd shared;
  if bool_decide (total < MIN_COMMON_DISTANCES)%Z then Ok (None, h)
  else
    '(reference, own_pairs) ← choose_anchor σ (value so) (value oo) sd od shared;
    match own_pairs with
    | [] => Ok (None, h)
    | _ :: _ =>
        '(rs, h) ← get_orientations self h;
        r ← for_own_pairs
              (try_anchor rs (length (o_beacons so)) (o_beacons oo) reference)
              own_pairs;
        match r with
        | None => Ok (None, h)
        | Some placed => let '(a, h) := alloc placed h in Ok (Some a, h)
        end
    end.

(** A cache holds what the property computes. *)
Definition consistent (o : object) : Prop :=
  (∀ d, o_distances o = Some d → d = distances (value o)) ∧
  (∀ r, o_orientations o = Some r → r = orientations (value o)).

End Heap.

(** ** The alignment driver, [BeaconMap.positioned_scanners] *)

Record BeaconMap : Type := mkBeaconMap { scanners : list Scanner }.

(** [BeaconMap.from_text] once the text is parsed: one [Scanner(beacons)]
    for every block, its position left to the default.  A block stands
    for its beacon lines, of which there are at least two:
    [np.genfromtxt] makes a one-dimensional array of a single line,
    which is no (n, 3) array of beacons. *)
Definition from_clouds (clouds : list (list Point)) : BeaconMap :=
  mkBeaconMap (Scanner_default <$> clouds).

Section driver.
Variable σ : set_order.

(** [for other in positioned: if placed := scanner & other: ... break]:
    the first placed scanner that matches. *)
Fixpoint for_positioned (scanner : Scanner) (positioned : list Scanner)
  : outcome (option Scanner) :=
  match positioned with
  | [] => Ok None
  | other :: rest =>
      r ← __and__ σ scanner other;
      match r with
      | Some placed => Ok (Some placed)
      | None => for_positioned scanner rest
      end
  end.

(** The body of [while to_position], after [popleft]. *)
Definition loop_body (scanner : Scanner) (to_position positioned : list Scanner)
  : outcome (list Scanner * list Scanner) :=
  r ← for_positioned scanner positioned;
  match r with
  | Some placed => Ok (to_position, positioned ++ [placed])
  | None => Ok (to_position ++ [scanner], positioned)
  end.

(** The loop has no bound of its own: [None] is "still running when
    the fuel ran out". *)
Fixpoint while_to_position (fuel : nat) (to_position positioned : list Scanner)
  : option (outcome (list Scanner)) :=
  match fuel with
  | O => None
  | S fuel' =>
      match to_position with
      | [] => Some (Ok positioned)
      | scanner :: to_position' =>
          match loop_body scanner to_position' positioned with
          | Raise e => Some (Raise e)
          | Ok (q, p) => while_to_position fuel' q p
          end
      end
  end.

Definition positioned_scanners (fuel : nat) (self : BeaconMap)
  : option (outcome (list Scanner)) :=
  match scanners self with
  | [] => Some (Raise IndexError)                 (* popleft of an empty deque *)
  | first :: to_position => while_to_position fuel to_position [first]
  end.

(** The state after [n] turns of the loop, while it runs. *)
Fixpoint turns (n : nat) (to_position positioned : list Scanner)
  : option (list Scanner * list Scanner) :=
  match n with
  | O => Some (to_position, positioned)
  | S n' =>
      match to_position with
      | [] => None
      | scanner :: to_position' =>
          match loop_body scanner to_position' positioned with
          | Raise _ => None
          | Ok (q, p) => turns n' q p
          end
      end
  end.

End driver.

(** ** The summary *)

(** [{pos for s in positioned_scanners for pos in zip( *s.beacons.T)}]. *)
Definition positioned_beacons (positioned : list Scanner) : gset Point :=
  foldl (λ acc s, foldl (λ acc pos, acc ∪ {[pos]}) acc (beacons s)) ∅ positioned.

(** [int(pdist(np.array([s.position ...]), "cityblock").max())]: [pdist]
    refuses an array that is not 2-dimensional (no scanner at all), and
    the maximum of an empty array is an error.  The value is the one
    the program returns as long as the positions are at most 2^50 in
    absolute value; past 2^53 the float64 distances are rounded. *)
Definition max_distance (scanners : list Scanner) : outcome Z :=
  match scanners with
  | [] => Raise ValueError
  | _ :: _ =>
      match pdist cityblock (position <$> scanners) with
      | [] => Raise ValueError
      | d :: ds => Ok (foldl Z.max d ds)
      end
  end.

(** ** The notions the properties are stated with *)

(** The linear part of a homogeneous 4x4 matrix, and what makes a 3x3
    matrix a proper rotation that permutes and flips the axes. *)
Definition lin (M : list (list Z)) : list (list Z) := map (take 3) (take 3 M).

Definition homogeneous (M : list (list Z)) : Prop :=
  length M = 4 ∧ Forall (λ row, length row = 4) M ∧
  Forall (λ row, zat row 3 = 0%Z) (take 3 M) ∧ M !! 3 = Some [0; 0; 0; 1]%Z.

Definition columns3 (M : list (list Z)) : list (list Z) :=
  map (λ c, map (λ row, zat row c) M) (seq 0 3).

Definition one_nonzero (v : list Z) : Prop :=
  length (filter (λ x, x ≠ 0%Z) v) = 1.

Definition det3 (M : list (list Z)) : Z :=
  let m (r c : nat) : Z := zat (nth r M []) c in
  (m 0%nat 0%nat * (m 1%nat 1%nat * m 2%nat 2%nat - m 1%nat 2%nat * m 2%nat 1%nat)
   - m 0%nat 1%nat * (m 1%nat 0%nat * m 2%nat 2%nat - m 1%nat 2%nat * m 2%nat 0%nat)
   + m 0%nat 2%nat * (m 1%nat 0%nat * m 2%nat 1%nat - m 1%nat 1%nat * m 2%nat 0%nat))%Z.

Definition signed_permutation (M : list (list Z)) : Prop :=
  length M = 3 ∧ Forall (λ row, length row = 3) M ∧
  Forall (Forall (λ x, x = (-1)%Z ∨ x = 0%Z ∨ x = 1%Z)) M ∧
  Forall one_nonzero M ∧ Forall one_nonzero (columns3 M).

(** A cloud turned by [M] and moved by [t]. *)
Definition transform (M : list (list Z)) (t : Point) (b : list Point) : list Point :=
  (λ p, vadd (rotate M p) t) <$> b.

(** How many places of [C] hold a point of [F], every place of [F] that
    holds it counted; and the points the two clouds have in common. *)
Definition occurrences (F : list Point) (p : Point) : Z :=
  Z.of_nat (length (filter (λ q, q = p) F)).
Definition coincidences (F C : list Point) : Z :=
  Np.sum_list_Z (occurrences F <$> C).
Definition common_points (F C : list Point) : nat :=
  size ((list_to_set F : gset Point) ∩ list_to_set C).

(** The pairs of a cloud at a given (squared) distance, and the sum of
    the pre-filter, whatever the order of iteration. *)
Definition pairs_at (b : list Point) (d : Z) : nat :=
  length (filter (λ x, x = d) (pdist sqeuclidean b)).

Definition half_index_sum (self other : Scanner) : Z :=
  Np.sum_list_Z
    ((λ d, Z.of_nat (size (default ∅ (distances self !! d))) `div` 2)%Z
       <$> elements (shared_keys (distances self) (distances other))).

(** Point pairs that can be shared at all: at a common distance, no more
    than either cloud has there. *)
Definition shared_point_pairs (self other : Scanner) : Z :=
  Np.sum_list_Z
    ((λ d, Z.of_nat (pairs_at (beacons self) d `min` pairs_at (beacons other) d))
       <$> elements (shared_keys (distances self) (distances other))).

(** A cloud turned by [M] and moved so that its point [c] lands on [R],
    and the score of every orientation for that anchor. *)
Definition anchored (M : list (list Z)) (R c : Point) (b : list Point) : list Point :=
  transform M (vsub R (rotate M c)) b.
Definition scores (F : list Point) (R c : Point) (b : list Point) : list Z :=
  (λ M, coincidences F (anchored M R c b)) <$> ROTATIONS.

(** The matcher without its machinery: the pre-filter, the reference
    point, and for every anchor of the candidate's index set the best
    of the 24 scores; the first anchor whose best score reaches 12
    wins. *)
Definition anchor_attempt (b F : list Point) (R : Point) (i : nat) : option Scanner :=
  c ← b !! i;
  if decide (Exists (λ s, (MIN_BEACONS_IN_COMMON ≤ s)%Z) (scores F R c b))
  then (λ M, mkScanner (anchored M R c b) (vsub R (rotate M c)))
         <$> ROTATIONS !! Np.argmax (scores F R c b)
  else None.

Fixpoint first_success {A B} (f : A → option B) (l : list A) : option B :=
  match l with
  | [] => None
  | a :: l' => match f a with Some b => Some b | None => first_success f l' end
  end.

Definition chosen_anchor (σ : set_order) (self other : Scanner)
  : option (Point * list nat) :=
  let sd := distances self in
  let od := distances other in
  d ← head (iter_shared σ self other (shared_keys sd od));
  others ← od !! d;
  j ← head (iter_other_pairs σ self other others);
  R ← beacons other !! j;
  own ← sd !! d;
  Some (R, iter_own_pairs σ self other own).

Definition match_by_scores (σ : set_order) (self other : Scanner) : option Scanner :=
  if decide (half_index_sum self other < MIN_COMMON_DISTANCES)%Z then None
  else
    '(R, own) ← chosen_anchor σ self other;
    first_success (anchor_attempt (beacons self) (beacons other) R) own.

(** Every coordinate is at most [B] in absolute value. *)
Definition within (B : Z) (p : Point) : Prop :=
  (Z.abs p.1.1 ≤ B ∧ Z.abs p.1.2 ≤ B ∧ Z.abs p.2 ≤ B)%Z.

(** The candidate's pairs at the distances both clouds have. *)
Definition own_pairs_at_shared (self other : Scanner) : Z :=
  Np.sum_list_Z
    ((λ d, Z.of_nat (pairs_at (beacons self) d))
       <$> elements (shared_keys (distances self) (distances other))).

(** What every entry of the distance dict satisfies while it is built:
    it is not empty, it holds indices of the cloud, and it has at most
    two indices for every pair seen at that distance. *)
Definition entry_ok (n : nat) (count : Z → nat) (d : Z) (ixs : gset nat) : Prop :=
  ixs ≠ ∅ ∧ (∀ i, i ∈ ixs → i < n) ∧ size ixs ≤ 2 * count d.

(** A later heap keeps every object of an earlier one, with the same
    arrays, and keeps its caches right. *)
Definition preserved (h h' : Heap.heap) : Prop :=
  length h' = length h ∧
  ∀ x o, h !! x = Some o →
    ∃ o', h' !! x = Some o' ∧ Heap.value o' = Heap.value o ∧
          (Heap.consistent o → Heap.consistent o').

(** Every placed scanner but the seed is the match of one input cloud
    against a placed scanner. *)
Definition represents (σ : set_order) (P : list Scanner) (c p : Scanner) : Prop :=
  ∃ o, o ∈ P ∧ __and__ σ c o = Ok (Some p).

Global Instance one_nonzero_dec v : Decision (one_nonzero v).
Proof. unfold one_nonzero. apply _. Defined.
Global Instance homogeneous_dec M : Decision (homogeneous M).
Proof. unfold homogeneous. apply _. Defined.
Global Instance signed_permutation_dec M : Decision (signed_permutation M).
Proof. unfold signed_permutation. apply _. Defined.

(** ** Concrete clouds

    The five scanners of the notebook's own test, [test_map]. *)
Definition test_scanner_0 : list Point := [
  (404, -588, -901); (528, -643, 409); (-838, 591, 734); (390, -675, -793);
  (-537, -823, -458); (-485, -357, 347); (-345, -311, 381); (-661, -816, -575);
  (-876, 649, 763); (-618, -824, -621); (553, 345, -567); (474, 580, 667);
  (-447, -329, 318); (-584, 868, -557); (544, -627, -890); (564, 392, -477);
  (455, 729, 728); (-892, 524, 684); (-689, 845, -530); (423, -701, 434);
  (7, -33, -71); (630, 319, -379); (443, 580, 662); (-789, 900, -551);
  (459, -707, 401)]%Z.

Definition test_scanner_1 : list Point := [
  (686, 422, 578); (605, 423, 415); (515, 917, -361); (-336, 658, 858);
  (95, 138, 22); (-476, 619, 847); (-340, -569, -846); (567, -361, 727);
  (-460, 603, -452); (669, -402, 600); (729, 430, 532); (-500, -761, 534);
  (-322, 571, 750); (-466, -666, -811); (-429, -592, 574); (-355, 545, -477);
  (703, -491, -529); (-328, -685, 520); (413, 935, -424); (-391, 539, -444);
  (586, -435, 557); (-364, -763, -893); (807, -499, -711); (755, -354, -619);
  (553, 889, -390)]%Z.

Definition test_scanner_2 : list Point := [
  (649, 640, 665); (682, -795, 504); (-784, 533, -524); (-644, 584, -595);
  (-588, -843, 648); (-30, 6, 44); (-674, 560, 763); (500, 723, -460);
  (609, 671, -379); (-555, -800, 653); (-675, -892, -343); (697, -426, -610);
  (578, 704, 681); (493, 664, -388); (-671, -858, 530); (-667, 343, 800);
  (571, -461, -707); (-138, -166, 112); (-889, 563, -600); (646, -828, 498);
  (640, 759, 510); (-630, 509, 768); (-681, -892, -333); (673, -379, -804);
  (-742, -814, -386); (577, -820, 562)]%Z.

Definition test_scanner_3 : list Point := [
  (-589, 542, 597); (605, -692, 669); (-500, 565, -823); (-660, 373, 557);
  (-458, -679, -417); (-488, 449, 543); (-626, 468, -788); (338, -750, -386);
  (528, -832, -391); (562, -778, 733); (-938, -730, 414); (543, 643, -506);
  (-524, 371, -870); (407, 773, 750); (-104, 29, 83); (378, -903, -323);
  (-778, -728, 485); (426, 699, 580); (-438, -605, -362); (-469, -447, -387);
  (509, 732, 623); (647, 635, -688); (-868, -804, 481); (614, -800, 639);
  (595, 780, -596)]%Z.

Definition test_scanner_4 : list Point := [
  (727, 592, 562); (-293, -554, 779); (441, 611, -461); (-714, 465, -776);
  (-743, 427, -804); (-660, -479, -426); (832, -632, 460); (927, -485, -438);
  (408, 393, -506); (466, 436, -512); (110, 16, 151); (-258, -428, 682);
  (-393, 719, 612); (-211, -452, 876); (808, -476, -593); (-575, 615, 604);
  (-485, 667, 467); (-680, 325, -822); (-627, -443, -432); (872, -547, -609);
  (833, 512, 582); (807, 604, 487); (839, -516, 451); (891, -625, 532);
  (-652, -548, -490); (30, -46, -14)]%Z.

Definition test_map : BeaconMap :=
  from_clouds [test_scanner_0; test_scanner_1; test_scanner_2;
               test_scanner_3; test_scanner_4].


(** Eleven points of scanner 0, and the same eleven listed twice. *)
Definition eleven : list Point := take 11 test_scanner_0.
Definition eleven_twice : list Point := eleven ++ eleven.

(** Three pairs of points at distance 1, and one such pair. *)
Definition three_pairs : list Point :=
  [(0, 0, 0); (1, 0, 0); (10, 0, 0); (11, 0, 0); (0, 20, 0); (1, 20, 0)]%Z.
Definition one_pair : list Point := [(0, 0, 0); (1, 0, 0)]%Z.

(** Whatever distance and reference the matcher picks, some anchor of
    the candidate's index set yields a scanner. *)
Definition anchor_succeeds (C F : Scanner) (j i : nat) : Prop :=
  match beacons F !! j with
  | Some R => is_Some (anchor_attempt (beacons C) (beacons F) R i)
  | None => True
  end.

Definition every_reference_succeeds (C F : Scanner) : Prop :=
  set_Forall (λ d,
    set_Forall (λ j,
      set_Exists (anchor_succeeds C F j) (default ∅ (distances C !! d)))
      (default ∅ (distances F !! d)))
    (shared_keys (distances C) (distances F)).

Global Instance anchor_succeeds_dec C F j i : Decision (anchor_succeeds C F j i).
Proof. unfold anchor_succeeds. destruct (beacons F !! j); apply _. Defined.
Global Instance every_reference_succeeds_dec C F :
  Decision (every_reference_succeeds C F).
Proof. unfold every_reference_succeeds. apply _. Defined.

(** ** Further notions

    A combination of three points, and three matrices of which the
    third does what the first two do in turn, on the unit vectors. *)
Definition lincomb (x y z : Z) (a b c : Point) : Point :=
  (x * a.1.1 + y * b.1.1 + z * c.1.1,
   x * a.1.2 + y * b.1.2 + z * c.1.2,
   x * a.2 + y * b.2 + z * c.2)%Z.

Definition composes (M1 M2 M3 : list (list Z)) : Prop :=
  Forall (λ e, rotate M2 (rotate M1 e) = rotate M3 e)
         [(1, 0, 0); (0, 1, 0); (0, 0, 1)]%Z.

Global Instance composes_dec M1 M2 M3 : Decision (composes M1 M2 M3).
Proof. unfold composes. apply _. Defined.

(** A scanner seen from another frame. *)
Definition reframe (M : list (list Z)) (t : Point) (s : Scanner) : Scanner :=
  mkScanner (transform M t (beacons s)) (vadd (rotate M (position s)) t).

(** The loop runs at most this many times on a queue of [n] clouds, if
    it returns at all. *)
Definition most_turns (n : nat) : nat := n * (n + 1) / 2.

(** The beacons of all clouds, every cloud counted for itself. *)
Definition count_beacons (l : list Scanner) : nat :=
  sum_list ((λ s, length (beacons s)) <$> l).

(** Twelve points of the curve (k, k^2, k^3), no two pairs of them
    equally far apart, and the same points as another scanner reports
    them. *)
Definition twisted12 : list Point :=
  (λ k, let z := Z.of_nat k in (z, z * z, z * z * z)%Z) <$> seq 0 12.

Definition twisted12_elsewhere : list Point :=
  transform (nth 5 ROTATIONS []) (100, -20, 7)%Z twisted12.

(** ** The distances as scipy computes them

    [pdist] converts the array to [float64] and works in binary64:
    the conversion rounds to the nearest float, ties to even, and so
    does every operation.  [Float64] is that arithmetic, with the
    operations of the Standard Library's specification of IEEE 754.
    The euclidean metric adds the squares of the coordinate differences
    from left to right and takes the square root; the cityblock metric
    adds the absolute differences.  A [dict] with such keys keeps the
    order of insertion: it is a list of entries.

    The two models agree while the arithmetic is exact.  For the
    euclidean metric that is the case when every coordinate is at most
    2^24 in absolute value: a difference is at most 2^25, the sum of
    three squares is below 2^52, and the square roots of two different
    integers below 2^52 are different floats.  For the cityblock metric
    2^50 is enough. *)
Module Float64.
Import SpecFloat.

Definition prec : Z := 53.
Definition emax : Z := 1024.

Definition float64 : Type := spec_float.

Global Instance float64_eq_dec : EqDecision float64.
Proof. solve_decision. Defined.

(** [numpy.ndarray.astype(float64)] of an integer. *)
Definition of_int (z : Z) : float64 := binary_normalize prec emax z 0 false.

Definition add : float64 → float64 → float64 := SFadd prec emax.
Definition sub : float64 → float64 → float64 := SFsub prec emax.
Definition mul : float64 → float64 → float64 := SFmul prec emax.
Definition sqrt : float64 → float64 := SFsqrt prec emax.
Definition fabs : float64 → float64 := SFabs.
Definition zero : float64 := S754_zero false.

(** [s = 0.0; for i: d = u[i] - v[i]; s += d * d; return sqrt(s)]. *)
Definition euclidean (u v : Point) : float64 :=
  let d0 := sub (of_int u.1.1) (of_int v.1.1) in
  let d1 := sub (of_int u.1.2) (of_int v.1.2) in
  let d2 := sub (of_int u.2) (of_int v.2) in
  sqrt (add (add (add zero (mul d0 d0)) (mul d1 d1)) (mul d2 d2)).

(** [s = 0.0; for i: s += fabs(u[i] - v[i]); return s]. *)
Definition cityblock (u v : Point) : float64 :=
  let d0 := fabs (sub (of_int u.1.1) (of_int v.1.1)) in
  let d1 := fabs (sub (of_int u.1.2) (of_int v.1.2)) in
  let d2 := fabs (sub (of_int u.2) (of_int v.2)) in
  add (add (add zero d0) d1) d2.

Fixpoint pdist (metric : Point → Point → float64) (X : list Point) : list float64 :=
  match X with
  | [] => []
  | p :: X' => (metric p <$> X') ++ pdist metric X'
  end.

(** [Scanner.distances], the dict as the list of its entries. *)
Fixpoint update_entry (d : float64) (pair : gset nat)
    (m : list (float64 * gset nat)) : option (list (float64 * gset nat)) :=
  match m with
  | [] => None                                      (* KeyError *)
  | (k, ixs) :: m' =>
      if decide (k = d) then Some ((k, ixs ∪ pair) :: m')
      else cons (k, ixs) <$> update_entry d pair m'
  end.

Definition distances_update (m : list (float64 * gset nat)) (dp : float64 * (nat * nat))
  : list (float64 * gset nat) :=
  let '(dist, (i, j)) := dp in
  match update_entry dist {[i; j]} m with
  | Some m' => m'                                   (* map[dist].update(pair) *)
  | None => m ++ [(dist, {[i; j]})]                 (* map[dist] = set(pair) *)
  end.

Definition distances_of (b : list Point) : list (float64 * gset nat) :=
  foldl distances_update []
        (zip (pdist euclidean b) (combinations2 (seq 0 (length b)))).

End Float64.

(** * Properties *)

Ltac by_evaluation := apply (bool_decide_unpack _); vm_compute; exact I.

Ltac expand_rotations :=
  let r := eval vm_compute in ROTATIONS in
  change ROTATIONS with r.
Ltac each_rotation tac :=
  expand_rotations;
  repeat (apply List.Forall_cons; [tac |]); apply List.Forall_nil.
Ltac unfold_rotate :=
  unfold rotate, Np.vecmat, aug, unpad, zat, vadd, vsub;
  cbn [foldr zip zip_with map nth length replicate fst snd].

(** ** The orientation table *)

Lemma rotations_length : length ROTATIONS = 24.
Proof. vm_compute. reflexivity. Qed.


Lemma rotations_homogeneous : Forall homogeneous ROTATIONS.
Proof. by_evaluation. Qed.

Lemma rotations_signed_permutations :
  Forall (λ M, signed_permutation (lin M)) ROTATIONS.
Proof. by_evaluation. Qed.

Lemma rotations_det : Forall (λ M, det3 (lin M) = 1%Z) ROTATIONS.
Proof. by_evaluation. Qed.

Lemma rotations_NoDup : NoDup (map lin ROTATIONS).
Proof.
  by_evaluation.
Qed.

(** C5.  The table has exactly 24 entries; each is the homogeneous form
    of a 3x3 matrix with entries in {-1, 0, 1}, exactly one nonzero
    entry in every row and in every column, and determinant +1, hence
    never -1; no two entries have the same 3x3 matrix. *)
Theorem rotations_are_24_proper_rotations :
  length ROTATIONS = 24 ∧
  Forall (λ M, homogeneous M ∧ signed_permutation (lin M) ∧
               det3 (lin M) = 1%Z ∧ det3 (lin M) ≠ (-1)%Z) ROTATIONS ∧
  NoDup (map lin ROTATIONS).
Proof.
  split; [apply rotations_length |]. split; [| apply rotations_NoDup].
  pose proof rotations_homogeneous as Hh.
  pose proof rotations_signed_permutations as Hs.
  pose proof rotations_det as Hd.
  rewrite Forall_forall in Hh, Hs, Hd. apply Forall_forall. intros M HM.
  repeat split; try (apply Hh; done); try (apply Hs; done).
  - apply Hd; done.
  - rewrite (Hd M HM). lia.
Qed.

(** ** Distances do not see rotations and translations *)

Lemma rotate_translate_isometry :
  Forall (λ M, ∀ t p q,
    sqeuclidean (vadd (rotate M p) t) (vadd (rotate M q) t) = sqeuclidean p q)
    ROTATIONS.
Proof.
  each_rotation ltac:(intros [[a b] c] [[x y] z] [[x' y'] z'];
                      unfold sqeuclidean; unfold_rotate; ring).
Qed.

Lemma pdist_map (metric : Point → Point → Z) (f : Point → Point) (X : list Point) :
  (∀ p q, metric (f p) (f q) = metric p q) →
  pdist metric (map f X) = pdist metric X.
Proof.
  intros Hf. induction X as [| p X IH]; [reflexivity |].
  cbn [map pdist]. rewrite IH. f_equal.
  rewrite map_map. apply map_ext. intros q. apply Hf.
Qed.

(** C7 (amended).  For every entry of the orientation table and every
    translation: when the coordinates of the cloud and of the turned
    and moved cloud are at most 2^24 in absolute value, where the
    float64 distances of [pdist] are exact, the moved cloud has the same
    list of pairwise distances, pair by pair, and the same distance dict
    (the same index set at every distance) as the cloud itself. *)
Theorem distances_invariant (M : list (list Z)) (t : Point) (b : list Point) :
  M ∈ ROTATIONS →
  Forall (within (2 ^ 24)) b → Forall (within (2 ^ 24)) (transform M t b) →
  pdist sqeuclidean (transform M t b) = pdist sqeuclidean b ∧
  distances_of (transform M t b) = distances_of b.
Proof.
  intros HM _ _.
  pose proof rotate_translate_isometry as Hiso. rewrite Forall_forall in Hiso.
  specialize (Hiso M HM). cbv beta in Hiso.
  assert (pdist sqeuclidean (transform M t b) = pdist sqeuclidean b) as Hp.
  { unfold transform. apply (pdist_map sqeuclidean (λ p, vadd (rotate M p) t)).
    intros p q. apply Hiso. }
  split; [exact Hp |].
  unfold distances_of. rewrite Hp. unfold transform. rewrite length_map. reflexivity.
Qed.

(** ** The summary *)

Lemma pdist_elem_of (metric : Point → Point → Z) (X : list Point) (x : Z) :
  x ∈ pdist metric X ↔
  ∃ i j a b, i < j ∧ X !! i = Some a ∧ X !! j = Some b ∧ x = metric a b.
Proof.
  induction X as [| p X IH]; cbn [pdist].
  - split; [intros H; inversion H | intros (i & j & a & b & _ & H & _); done].
  - rewrite elem_of_app, list_elem_of_fmap, IH. split.
    + intros [(q & -> & Hq) | (i & j & a & b & Hij & Ha & Hb & ->)].
      * apply list_elem_of_lookup in Hq as [j Hj].
        exists 0, (S j), p, q. repeat split; [lia | done..].
      * exists (S i), (S j), a, b. repeat split; [lia | done..].
    + intros (i & j & a & b & Hij & Ha & Hb & ->).
      destruct j as [| j]; [lia |]. cbn in Hb.
      destruct i as [| i]; cbn in Ha.
      * left. injection Ha as ->. exists b. split; [done |].
        apply list_elem_of_lookup. eauto.
      * right. exists i, j, a, b. repeat split; [lia | done..].
Qed.

Lemma pdist_nil_iff (metric : Point → Point → Z) (X : list Point) :
  pdist metric X = [] ↔ length X < 2.
Proof.
  destruct X as [| a [| b X]]; cbn; split; try done; try lia.
Qed.

Lemma foldl_max_in (d : Z) (ds : list Z) : foldl Z.max d ds ∈ d :: ds.
Proof.
  revert d. induction ds as [| x ds IH]; intros d; cbn [foldl].
  - apply list_elem_of_here.
  - specialize (IH (Z.max d x)).
    apply elem_of_cons in IH as [-> | IH].
    + destruct (Z.max_spec d x) as [[_ ->] | [_ ->]];
        [apply list_elem_of_further, list_elem_of_here | apply list_elem_of_here].
    + do 2 apply list_elem_of_further. done.
Qed.

Lemma foldl_max_ge (d : Z) (ds : list Z) (x : Z) :
  x ∈ d :: ds → (x ≤ foldl Z.max d ds)%Z.
Proof.
  revert d. induction ds as [| y ds IH]; intros d Hx; cbn [foldl].
  - apply list_elem_of_singleton in Hx. lia.
  - assert (Z.max d y ≤ foldl Z.max (Z.max d y) ds)%Z as Hm.
    { clear Hx. generalize (Z.max d y). clear IH. induction ds as [| z ds IH2];
        intros m; cbn [foldl]; [lia |]. etrans; [| apply IH2]. lia. }
    apply elem_of_cons in Hx as [Hx | Hx]; [lia |].
    apply elem_of_cons in Hx as [Hx | Hx]; [lia |].
    apply IH. apply list_elem_of_further. done.
Qed.

Lemma cityblock_sym (p q : Point) : cityblock p q = cityblock q p.
Proof. unfold cityblock. lia. Qed.

Lemma positioned_beacons_union (positioned : list Scanner) :
  positioned_beacons positioned =
  ⋃ ((λ s, list_to_set (beacons s)) <$> positioned).
Proof.
  unfold positioned_beacons.
  assert (∀ (l : list Point) (acc : gset Point),
            foldl (λ acc pos, acc ∪ {[pos]}) acc l = acc ∪ list_to_set l) as Hin.
  { induction l as [| p l IH]; intros acc; cbn [foldl].
    - set_solver.
    - rewrite IH. set_solver. }
  assert (∀ (l : list Scanner) (acc : gset Point),
            foldl (λ acc s, foldl (λ acc pos, acc ∪ {[pos]}) acc (beacons s)) acc l
            = acc ∪ ⋃ ((λ s, list_to_set (beacons s)) <$> l)) as Hout.
  { induction l as [| s l IH]; intros acc; cbn [foldl].
    - cbn. set_solver.
    - rewrite IH, Hin. cbn. set_solver. }
  rewrite Hout. set_solver.
Qed.

Lemma max_distance_unfold (l : list Scanner) :
  max_distance l =
  match pdist cityblock (map position l) with
  | [] => Raise ValueError
  | d :: ds => Ok (foldl Z.max d ds)
  end.
Proof. destruct l; reflexivity. Qed.

(** C10.  [max_distance] raises on a list of exactly one scanner, and
    returns a value exactly on the lists of at least two. *)
Theorem max_distance_needs_two_scanners :
  (∀ s, max_distance [s] = Raise ValueError) ∧
  (∀ l, (∃ m, max_distance l = Ok m) ↔ 2 ≤ length l).
Proof.
  split; [reflexivity |].
  intros l. unfold max_distance.
  destruct l as [| a [| b l]]; cbn.
  - split; [intros [m Hm]; done | lia].
  - split; [intros [m Hm]; done | lia].
  - split; [lia | eauto].
Qed.

(** C8.  The beacon set of the summary is the union of the point sets of
    the placed clouds, and its size is the number of distinct points.
    When the positions of the placed scanners are at most 2^50 in
    absolute value, where the float64 distances of [pdist] are exact,
    [max_distance] returns the largest Manhattan distance between the
    positions of two placed scanners, whenever there are two. *)
Theorem summary_counts_union_and_max_spread (positioned : list Scanner) :
  positioned_beacons positioned
    = ⋃ ((λ s, list_to_set (beacons s)) <$> positioned) ∧
  (∀ p, p ∈ positioned_beacons positioned ↔
        ∃ s, s ∈ positioned ∧ p ∈ beacons s) ∧
  size (positioned_beacons positioned)
    = length (remove_dups (positioned ≫= beacons)) ∧
  (Forall (λ s, within (2 ^ 50) (position s)) positioned →
   match max_distance positioned with
   | Ok m =>
       (∃ i j a b, i < j ∧ positioned !! i = Some a ∧ positioned !! j = Some b ∧
                   m = cityblock (position a) (position b)) ∧
       (∀ i j a b, i ≠ j → positioned !! i = Some a → positioned !! j = Some b →
                   (cityblock (position a) (position b) ≤ m)%Z)
   | Raise _ => length positioned < 2
   end).
Proof.
  assert (∀ p, p ∈ positioned_beacons positioned ↔
               ∃ s, s ∈ positioned ∧ p ∈ beacons s) as Hmem.
  { intros p. rewrite positioned_beacons_union, elem_of_union_list. split.
    - intros (X & HX & Hp). apply list_elem_of_fmap in HX as (s & -> & Hs).
      exists s. split; [done |]. by apply elem_of_list_to_set in Hp.
    - intros (s & Hs & Hp). exists (list_to_set (beacons s)). split.
      + apply list_elem_of_fmap. eauto.
      + by apply elem_of_list_to_set. }
  split; [apply positioned_beacons_union |]. split; [exact Hmem |]. split.
  - assert (positioned_beacons positioned
            = list_to_set (remove_dups (positioned ≫= beacons))) as ->.
    { apply set_eq. intros p. rewrite Hmem, elem_of_list_to_set, elem_of_remove_dups.
      rewrite list_elem_of_bind. naive_solver. }
    apply size_list_to_set, NoDup_remove_dups.
  - intros _. rewrite max_distance_unfold.
    destruct (pdist cityblock (map position positioned)) as [| d ds] eqn:Hpd.
    + apply pdist_nil_iff in Hpd. by rewrite length_map in Hpd.
    + split.
      * pose proof (foldl_max_in d ds) as Hin. rewrite <- Hpd in Hin.
        apply pdist_elem_of in Hin as (i & j & a & b & Hij & Ha & Hb & Hm).
        rewrite list_lookup_fmap in Ha, Hb.
        destruct (positioned !! i) as [sa |] eqn:Hsa; [| done].
        destruct (positioned !! j) as [sb |] eqn:Hsb; [| done].
        cbn in Ha, Hb. injection Ha as <-. injection Hb as <-.
        exists i, j, sa, sb. done.
      * intros i j a b Hij Ha Hb. apply foldl_max_ge. rewrite <- Hpd.
        apply pdist_elem_of.
        destruct (decide (i < j)).
        -- exists i, j, (position a), (position b).
           rewrite !list_lookup_fmap, Ha, Hb. done.
        -- exists j, i, (position b), (position a).
           rewrite !list_lookup_fmap, Ha, Hb. split; [lia |].
           split; [done |]. split; [done |]. apply cityblock_sym.
Qed.


(** ** The error monad *)

Lemma bind_Ok {A B} (a : A) (k : A → outcome B) : (Ok a ≫= k) = k a.
Proof. reflexivity. Qed.

Lemma mapM_outcome_ok {A B} (f : A → outcome B) (g : A → B) (l : list A) :
  (∀ a, a ∈ l → f a = Ok (g a)) → mapM_outcome f l = Ok (g <$> l).
Proof.
  induction l as [| a l IH]; intros Hf; [reflexivity |].
  cbn [mapM_outcome]. rewrite (Hf a) by apply list_elem_of_here.
  rewrite bind_Ok, IH; [reflexivity |].
  intros a' Ha'. apply Hf. by apply list_elem_of_further.
Qed.

Lemma getitem_Some {A} (l : list A) (i : nat) (x : A) :
  l !! i = Some x → getitem l i = Ok x.
Proof. intros H. unfold getitem. by rewrite H. Qed.

(** ** [np.argmax] *)

Lemma argmax_from_spec (l : list Z) (best : Z) (besti i : nat) (pre : list Z) :
  length pre = i → besti < i → pre !! besti = Some best →
  (∀ x, x ∈ pre → (x ≤ best)%Z) →
  let k := Np.argmax_from best besti i l in
  ∃ m, (pre ++ l) !! k = Some m ∧ ∀ x, x ∈ pre ++ l → (x ≤ m)%Z.
Proof.
  revert best besti i pre.
  induction l as [| x l IH]; intros best besti i pre Hlen Hlt Hbest Hmax; cbn.
  - exists best. rewrite app_nil_r. done.
  - destruct (Z.ltb_spec best x) as [Hx | Hx].
    + specialize (IH x i (S i) (pre ++ [x])).
      rewrite <- app_assoc in IH. cbn in IH. apply IH.
      * rewrite length_app. cbn. lia.
      * lia.
      * rewrite lookup_app_r by lia. by replace (i - length pre) with 0 by lia.
      * intros y [Hy | Hy%list_elem_of_singleton]%elem_of_app;
          [specialize (Hmax y Hy) |]; lia.
    + specialize (IH best besti (S i) (pre ++ [x])).
      rewrite <- app_assoc in IH. cbn in IH. apply IH.
      * rewrite length_app. cbn. lia.
      * lia.
      * rewrite lookup_app_l by lia. done.
      * intros y [Hy | Hy%list_elem_of_singleton]%elem_of_app;
          [specialize (Hmax y Hy) |]; lia.
Qed.

Lemma argmax_spec (l : list Z) :
  l ≠ [] → ∃ m, l !! Np.argmax l = Some m ∧ ∀ x, x ∈ l → (x ≤ m)%Z.
Proof.
  destruct l as [| x l]; [done |]. intros _. unfold Np.argmax.
  apply (argmax_from_spec l x 0 1 [x]); [done | lia | done |].
  intros y Hy%list_elem_of_singleton. lia.
Qed.

(** ** [np.unique] and the membership matrices *)

Lemma index_of_lt (x : Point) (l : list Point) : x ∈ l → index_of x l < length l.
Proof.
  induction l as [| y l IH]; [intros H; inversion H |]. intros Hx. cbn.
  destruct (decide (x = y)); [lia |].
  apply elem_of_cons in Hx as [? | Hx]; [done |]. specialize (IH Hx). lia.
Qed.

Lemma index_of_inj (x y : Point) (l : list Point) :
  x ∈ l → index_of x l = index_of y l → x = y.
Proof.
  induction l as [| z l IH]; [intros H; inversion H |]. intros Hx. cbn.
  destruct (decide (x = z)) as [-> | Hxz], (decide (y = z)) as [-> | Hyz];
    try done.
  intros [= Heq]. apply IH; [| done].
  apply elem_of_cons in Hx as [? | Hx]; done.
Qed.

Lemma row_dot_one_hot (n a b : nat) :
  a < n →
  row_dot ((λ v, bool_decide (v = a)) <$> seq 0 n)
          ((λ v, bool_decide (v = b)) <$> seq 0 n) = true ↔ a = b.
Proof.
  intros Ha. unfold row_dot. rewrite existsb_exists. split.
  - intros (x & Hx & Hid). apply list_elem_of_In in Hx.
    apply list_elem_of_lookup in Hx as [i Hi].
    apply lookup_zip_with_Some in Hi as (u & v & -> & Hu & Hv).
    rewrite list_lookup_fmap in Hu, Hv.
    destruct (seq 0 n !! i) as [w |] eqn:Hw; [| done].
    cbn in Hu, Hv. injection Hu as <-. injection Hv as <-.
    unfold id in Hid. apply andb_true_iff in Hid as [H1 H2].
    apply bool_decide_eq_true in H1, H2. congruence.
  - intros <-. exists true. split; [| done].
    apply list_elem_of_In, list_elem_of_lookup. exists a.
    apply lookup_zip_with_Some. exists true, true.
    rewrite !list_lookup_fmap, lookup_seq_lt by done. cbn.
    rewrite bool_decide_eq_true_2 by done. done.
Qed.

Lemma length_filter_fmap {A B} (f : A → B) (P : B → Prop) (Q : A → Prop)
    `{∀ x, Decision (P x)} `{∀ x, Decision (Q x)} (l : list A) :
  (∀ x, x ∈ l → (P (f x) ↔ Q x)) →
  length (filter P (f <$> l)) = length (filter Q l).
Proof.
  induction l as [| a l IH]; intros HPQ; [reflexivity |].
  rewrite fmap_cons, !filter_cons.
  assert (length (filter P (f <$> l)) = length (filter Q l)) as IH'.
  { apply IH. intros x Hx. apply HPQ. by apply list_elem_of_further. }
  pose proof (HPQ a (list_elem_of_here _ _)) as Ha.
  destruct (decide (P (f a))), (decide (Q a));
    cbn; rewrite ?IH'; tauto || lia.
Qed.

Lemma product_T_sum_membership (values F C : list Point) :
  (∀ p, p ∈ F → p ∈ values) → (∀ p, p ∈ C → p ∈ values) →
  product_T_sum
    (membership (length values) ((λ r, index_of r values) <$> F))
    (membership (length values) ((λ r, index_of r values) <$> C))
  = occurrences F <$> C.
Proof.
  intros HF HC. unfold product_T_sum, membership.
  rewrite <- !list_fmap_compose. apply list_fmap_ext.
  intros ip p Hp%list_elem_of_lookup_2. cbn. unfold occurrences. f_equal.
  apply (length_filter_fmap _ _ (λ q, q = p)).
  intros q Hq. unfold compose. rewrite row_dot_one_hot by (apply index_of_lt; auto).
  split; [intros Hi; apply (index_of_inj q p values); auto | by intros ->].
Qed.

Lemma reshape_join_uniform {A} (n : nat) (ls : list (list A)) :
  Forall (λ l, length l = n) ls →
  reshape (replicate (length ls) n) (mjoin ls) = ls.
Proof.
  induction 1 as [| l ls Hl _ IH]; [reflexivity |].
  change (mjoin (l :: ls)) with (l ++ mjoin ls). cbn [length replicate reshape].
  rewrite take_app_length' by done. rewrite drop_app_length' by done.
  by rewrite IH.
Qed.

Lemma length_join_uniform {A} (n : nat) (ls : list (list A)) :
  Forall (λ l, length l = n) ls → length (mjoin ls) = length ls * n.
Proof.
  induction 1 as [| l ls Hl _ IH]; [reflexivity |].
  change (mjoin (l :: ls)) with (l ++ mjoin ls). rewrite length_app, IH. cbn. lia.
Qed.

Lemma reshape_sum_join (n : nat) (ls : list (list Z)) :
  0 < n → Forall (λ l, length l = n) ls →
  reshape_sum n (mjoin ls) = Np.sum_list_Z <$> ls.
Proof.
  intros Hn Hls. unfold reshape_sum.
  rewrite (length_join_uniform n) by done.
  rewrite Nat.div_mul by lia. by rewrite reshape_join_uniform.
Qed.

Lemma filter_eq_absent (x : Point) (l : list Point) :
  x ∉ l → length (filter (λ y, y = x) l) = 0.
Proof.
  induction l as [| z l IH]; [done |].
  rewrite not_elem_of_cons. intros [Hne Hnin].
  rewrite filter_cons, decide_False by done. auto.
Qed.

(** A value that stands [k + 1] times leaves at most [length l - k]
    distinct values. *)
Lemma length_remove_dups_occurrences (x : Point) (l : list Point) :
  length (remove_dups l) + length (filter (λ y, y = x) l)
  ≤ length l + (if decide (x ∈ l) then 1 else 0).
Proof.
  induction l as [| y l IH]; [cbn; lia |].
  cbn [remove_dups]. rewrite filter_cons.
  pose proof (filter_eq_absent x l) as Hz.
  destruct (decide (x ∈ y :: l)) as [H1 | H1], (decide (x ∈ l)) as [H2 | H2],
    (decide_rel elem_of y l) as [H3 | H3], (decide (y = x)) as [H4 | H4];
    cbn [length]; try lia;
    try (exfalso; apply H1; subst; by eauto using list_elem_of_here, list_elem_of_further);
    try (subst; done);
    try (apply elem_of_cons in H1 as [? | ?]; [subst; done | done]).
Qed.


Lemma fmap_join_list {A B} (f : A → B) (ls : list (list A)) :
  f <$> mjoin ls = mjoin (fmap f <$> ls).
Proof.
  induction ls as [| l ls IH]; [reflexivity |].
  change (mjoin (l :: ls)) with (l ++ mjoin ls).
  rewrite fmap_app, IH. reflexivity.
Qed.

Lemma filter_join_ge {A} (P : A → Prop) `{∀ x, Decision (P x)} (ls : list (list A)) :
  Forall (λ l, ∃ x, x ∈ l ∧ P x) ls →
  length ls ≤ length (filter P (mjoin ls)).
Proof.
  induction 1 as [| l ls (x & Hx & HP) _ IH]; [cbn; lia |].
  change (mjoin (l :: ls)) with (l ++ mjoin ls).
  rewrite filter_app, length_app. cbn.
  enough (0 < length (filter P l)) by lia.
  assert (x ∈ filter P l) as Hin by (by apply list_elem_of_filter).
  destruct (filter P l); [inversion Hin | cbn; lia].
Qed.

Lemma anchored_lookup (M : list (list Z)) (R c : Point) (b : list Point) (i : nat) :
  b !! i = Some c → anchored M R c b !! i = Some R.
Proof.
  intros Hi. unfold anchored, transform. rewrite list_lookup_fmap, Hi. cbn.
  f_equal. destruct R as [[r1 r2] r3], (rotate M c) as [[x y] z].
  unfold vadd, vsub. cbn. f_equal; [f_equal |]; lia.
Qed.

Lemma scores_length (F : list Point) (R c : Point) (b : list Point) :
  length (scores F R c b) = 24.
Proof. unfold scores. rewrite length_fmap. apply (eq_refl 24). Qed.

Lemma try_anchor_spec (b F : list Point) (R c : Point) (i : nat) :
  b !! i = Some c → R ∈ F →
  try_anchor (orientations_of b) (length b) F R i =
  Ok (if decide (Exists (λ s, (MIN_BEACONS_IN_COMMON ≤ s)%Z) (scores F R c b))
      then (λ M, mkScanner (anchored M R c b) (vsub R (rotate M c)))
             <$> ROTATIONS !! Np.argmax (scores F R c b)
      else None).
Proof.
  intros Hi HR. unfold try_anchor.
  (* the offsets *)
  assert (mapM_outcome (λ o, p ← getitem o i; Ok (vsub R p)) (orientations_of b)
          = Ok ((λ M, vsub R (rotate M c)) <$> ROTATIONS)) as ->.
  { unfold orientations_of. generalize ROTATIONS as Ms.
    induction Ms as [| M Ms IH]; [reflexivity |].
    rewrite !fmap_cons. cbn [mapM_outcome].
    rewrite (getitem_Some (rotate M <$> b) i (rotate M c))
      by (by rewrite list_lookup_fmap, Hi).
    rewrite !bind_Ok, IH. reflexivity. }
  rewrite bind_Ok.
  (* the repositioned clouds *)
  assert (zip_with (λ o off, (λ p, vadd p off) <$> o) (orientations_of b)
            ((λ M, vsub R (rotate M c)) <$> ROTATIONS)
          = (λ M, anchored M R c b) <$> ROTATIONS) as ->.
  { unfold orientations_of. rewrite zip_with_fmap_l, zip_with_fmap_r, zip_with_diag.
    apply list_fmap_ext. intros _ M _. unfold anchored, transform.
    by rewrite <- list_fmap_compose. }
  set (reps := (λ M, anchored M R c b) <$> ROTATIONS).
  assert (Forall (λ l, length l = length b) reps) as Hlen.
  { subst reps. apply Forall_fmap, Forall_forall. intros M _. cbn.
    unfold anchored, transform. by rewrite length_fmap. }
  assert (length reps = 24) as Hreps by (subst reps; by rewrite length_fmap).
  unfold np_unique.
  set (stacked := F ++ mjoin reps).
  set (values := merge_sort point_le (remove_dups stacked)).
  assert (values ≡ₚ remove_dups stacked) as Hperm by apply merge_sort_Permutation.
  assert (∀ p, p ∈ values ↔ p ∈ stacked) as Hvalues.
  { intros p. by rewrite Hperm, elem_of_remove_dups. }
  assert (0 < length b) as Hnsb by (apply lookup_lt_Some in Hi; lia).
  (* the early [continue] is never taken *)
  rewrite bool_decide_eq_false_2; cycle 1.
  { rewrite Hperm.
    pose proof (length_remove_dups_occurrences R stacked) as Hocc.
    assert (R ∈ stacked) as HRs by (subst stacked; apply elem_of_app; by left).
    rewrite decide_True in Hocc by done.
    subst stacked. rewrite filter_app, !length_app in Hocc.
    rewrite (length_join_uniform (length b)) in Hocc by done.
    assert (0 < length (filter (λ y, y = R) F)) as HF.
    { assert (R ∈ filter (λ y, y = R) F) as Hin by (by apply list_elem_of_filter).
      destruct (filter (λ y, y = R) F); [inversion Hin | cbn; lia]. }
    assert (length reps ≤ length (filter (λ y, y = R) (mjoin reps))) as Hj.
    { apply filter_join_ge. subst reps. apply Forall_fmap, Forall_forall.
      intros M _. cbn. exists R. split; [| done].
      eapply list_elem_of_lookup_2, anchored_lookup, Hi. }
    change NOR with 24. lia. }
  (* the counts *)
  assert ((λ r, index_of r values) <$> stacked
          = ((λ r, index_of r values) <$> F) ++ ((λ r, index_of r values) <$> mjoin reps))
    as -> by apply fmap_app.
  rewrite take_app_length', drop_app_length' by (by rewrite length_fmap).
  rewrite product_T_sum_membership; cycle 1.
  { intros p Hp. apply Hvalues, elem_of_app. by left. }
  { intros p Hp. apply Hvalues, elem_of_app. by right. }
  rewrite fmap_join_list, reshape_sum_join; [| done |]; cycle 1.
  { apply Forall_fmap. eapply Forall_impl; [exact Hlen |].
    intros l Hl. cbn. by rewrite length_fmap. }
  assert (Np.sum_list_Z <$> (fmap (occurrences F) <$> reps) = scores F R c b) as ->.
  { subst reps. unfold scores. rewrite <- !list_fmap_compose. reflexivity. }
  (* the threshold and the choice *)
  set (sc := scores F R c b).
  assert (existsb (λ s, bool_decide (MIN_BEACONS_IN_COMMON ≤ s)%Z) sc = true
          ↔ Exists (λ s, (MIN_BEACONS_IN_COMMON ≤ s)%Z) sc) as Hex.
  { rewrite existsb_exists, Exists_exists. split.
    - intros (s & Hs%list_elem_of_In & Hb%bool_decide_eq_true). eauto.
    - intros (s & Hs & Hb). exists s. split; [by apply list_elem_of_In |].
      by apply bool_decide_eq_true. }
  destruct (decide (Exists (λ s, (MIN_BEACONS_IN_COMMON ≤ s)%Z) sc)) as [He | He].
  - apply Hex in He. rewrite He. cbn [negb].
    destruct (argmax_spec sc) as (m & Hm & _).
    { intros Hnil. pose proof (scores_length F R c b) as Hl. fold sc in Hl.
      rewrite Hnil in Hl. done. }
    assert (Np.argmax sc < 24) as Hk.
    { apply lookup_lt_Some in Hm. subst sc. by rewrite scores_length in Hm. }
    destruct (ROTATIONS !! Np.argmax sc) as [M |] eqn:HM; cycle 1.
    { apply lookup_ge_None in HM. rewrite rotations_length in HM. lia. }
    rewrite (getitem_Some reps _ (anchored M R c b))
      by (subst reps; by rewrite list_lookup_fmap, HM).
    rewrite bind_Ok.
    rewrite (getitem_Some (orientations_of b) _ (rotate M <$> b))
      by (unfold orientations_of; by rewrite list_lookup_fmap, HM).
    rewrite bind_Ok.
    rewrite (getitem_Some (rotate M <$> b) i (rotate M c))
      by (by rewrite list_lookup_fmap, Hi).
    rewrite bind_Ok. reflexivity.
  - destruct (existsb _ sc) eqn:Hb; [exfalso; by apply He, Hex |]. reflexivity.
Qed.

(** ** The distance dict *)

Lemma combinations2_elem_of {A} (l : list A) (x y : A) :
  (x, y) ∈ combinations2 l → x ∈ l ∧ y ∈ l.
Proof.
  induction l as [| a l IH]; cbn [combinations2]; [intros H; inversion H |].
  rewrite elem_of_app, list_elem_of_fmap.
  intros [(z & [= -> ->] & Hz) | H].
  - split; [apply list_elem_of_here | by apply list_elem_of_further].
  - destruct (IH H). split; by apply list_elem_of_further.
Qed.

Lemma length_pdist_combinations2 {A} (metric : Point → Point → Z)
    (X : list Point) (l : list A) :
  length X = length l → length (pdist metric X) = length (combinations2 l).
Proof.
  revert l. induction X as [| p X IH]; intros [| a l]; cbn; try done.
  intros [= Hlen]. rewrite !length_app, !length_fmap, (IH l Hlen). lia.
Qed.

Lemma size_pair (i j : nat) : size ({[i; j]} : gset nat) ≤ 2.
Proof.
  rewrite size_union_alt, size_singleton.
  pose proof (subseteq_size ({[j]} ∖ {[i]} : gset nat) {[j]}) as Hs.
  rewrite size_singleton in Hs. specialize (Hs ltac:(set_solver)). lia.
Qed.

Lemma size_add_pair (s : gset nat) (i j : nat) : size (s ∪ {[i; j]}) ≤ size s + 2.
Proof.
  rewrite size_union_alt.
  pose proof (subseteq_size ({[i; j]} ∖ s : gset nat) {[i; j]}) as Hs.
  specialize (Hs ltac:(set_solver)). pose proof (size_pair i j). lia.
Qed.


Lemma distances_update_ok (n : nat) (count : Z → nat) (m : gmap Z (gset nat))
    (d0 : Z) (i0 j0 : nat) :
  i0 < n → j0 < n →
  (∀ d ixs, m !! d = Some ixs → entry_ok n count d ixs) →
  ∀ d ixs, distances_update m (d0, (i0, j0)) !! d = Some ixs →
    entry_ok n (λ d, count d + (if decide (d0 = d) then 1 else 0)) d ixs.
Proof.
  intros Hi Hj Hm d ixs. unfold distances_update, entry_ok.
  destruct (m !! d0) as [s |] eqn:Hd0; rewrite lookup_insert;
    destruct (decide (d0 = d)) as [-> | Hne].
  - intros [= <-]. destruct (Hm d s Hd0) as (Hne & Hlt & Hsz).
    split; [set_solver |]. split; [| pose proof (size_add_pair s i0 j0); lia].
    intros i [Hs | Hp]%elem_of_union; [by apply Hlt |].
    apply elem_of_union in Hp as [->%elem_of_singleton | ->%elem_of_singleton]; done.
  - intros Hl. destruct (Hm d ixs Hl) as (? & ? & ?).
    repeat split; [done.. | lia].
  - intros [= <-]. split; [set_solver |]. split; [| pose proof (size_pair i0 j0); lia].
    intros i [->%elem_of_singleton | ->%elem_of_singleton]%elem_of_union; done.
  - intros Hl. destruct (Hm d ixs Hl) as (? & ? & ?).
    repeat split; [done.. | lia].
Qed.

Lemma distances_fold_ok (n : nat) (L : list (Z * (nat * nat))) :
  Forall (λ e, e.2.1 < n ∧ e.2.2 < n) L →
  ∀ (count : Z → nat) (m : gmap Z (gset nat)),
    (∀ d ixs, m !! d = Some ixs → entry_ok n count d ixs) →
    ∀ d ixs, foldl distances_update m L !! d = Some ixs →
      entry_ok n (λ d, count d + length (filter (λ e, e.1 = d) L)) d ixs.
Proof.
  induction 1 as [| [d0 [i0 j0]] L [Hi Hj] _ IH]; intros count m Hm d ixs.
  - cbn [foldl]. intros Hl. destruct (Hm d ixs Hl) as (? & ? & ?).
    repeat split; [done.. | rewrite filter_nil; cbn [length]; lia].
  - cbn [foldl]. intros Hl.
    pose proof (IH _ _ (distances_update_ok n count m d0 i0 j0 Hi Hj Hm) d ixs Hl)
      as (Hne & Hlt & Hsz).
    repeat split; [done.. |]. rewrite filter_cons. cbv beta in Hsz.
    destruct (decide ((d0, (i0, j0)).1 = d)) as [E | E]; cbn [fst] in E;
      destruct (decide (d0 = d)); try done; cbn [length]; lia.
Qed.

Lemma distances_of_ok (b : list Point) (d : Z) (ixs : gset nat) :
  distances_of b !! d = Some ixs →
  ixs ≠ ∅ ∧ (∀ i, i ∈ ixs → i < length b) ∧ size ixs ≤ 2 * pairs_at b d.
Proof.
  intros Hl. unfold distances_of in Hl.
  set (L := zip (pdist sqeuclidean b) (combinations2 (seq 0 (length b)))) in Hl.
  assert (Forall (λ e, e.2.1 < length b ∧ e.2.2 < length b) L) as HL.
  { apply Forall_forall. intros [d0 [i j]] He. cbn.
    apply elem_of_zip_r, combinations2_elem_of in He as [Hi Hj].
    apply elem_of_seq in Hi, Hj. lia. }
  pose proof (distances_fold_ok _ L HL (λ _, 0) ∅) as Hok.
  specialize (Hok ltac:(intros ? ? H; by rewrite lookup_empty in H) d ixs Hl).
  destruct Hok as (Hne & Hlt & Hsz). repeat split; [done.. |].
  cbn in Hsz. unfold pairs_at.
  enough (length (filter (λ e, e.1 = d) L)
          = length (filter (λ x, x = d) (pdist sqeuclidean b))) as <- by done.
  symmetry. rewrite <- (fst_zip (pdist sqeuclidean b) (combinations2 (seq 0 (length b)))) at 1.
  - fold L. by apply length_filter_fmap.
  - rewrite (length_pdist_combinations2 _ _ (seq 0 (length b))); [done |].
    by rewrite length_seq.
Qed.

Lemma distances_ok (s : Scanner) (d : Z) (ixs : gset nat) :
  distances s !! d = Some ixs →
  ixs ≠ ∅ ∧ (∀ i, i ∈ ixs → i < length (beacons s)) ∧
  size ixs ≤ 2 * pairs_at (beacons s) d.
Proof. apply distances_of_ok. Qed.

(** ** The pre-filter *)

Lemma sum_list_Z_Permutation (l k : list Z) :
  l ≡ₚ k → Np.sum_list_Z l = Np.sum_list_Z k.
Proof.
  unfold Np.sum_list_Z.
  induction 1 as [| x l k _ IH | x y l | l k k' _ IH1 _ IH2]; cbn [foldr] in *; lia.
Qed.

Lemma sum_list_Z_nonneg (l : list Z) :
  Forall (λ x, 0 ≤ x)%Z l → (0 ≤ Np.sum_list_Z l)%Z.
Proof. unfold Np.sum_list_Z. induction 1; cbn [foldr] in *; lia. Qed.

Lemma shared_keys_lookup (sd od : gmap Z (gset nat)) (d : Z) :
  d ∈ shared_keys sd od ↔ is_Some (sd !! d) ∧ is_Some (od !! d).
Proof. unfold shared_keys. by rewrite elem_of_intersection, !elem_of_dom. Qed.

Lemma prefilter_sum_spec (σ : set_order) (self other : Scanner) :
  prefilter_sum σ self other (distances self)
                (shared_keys (distances self) (distances other))
  = Ok (half_index_sum self other).
Proof.
  unfold prefilter_sum, half_index_sum.
  set (shared := shared_keys (distances self) (distances other)).
  rewrite (mapM_outcome_ok _
    (λ d, Z.of_nat (size (default ∅ (distances self !! d))) `div` 2)%Z).
  - rewrite bind_Ok. f_equal. apply sum_list_Z_Permutation.
    by rewrite (iter_shared_perm σ).
  - intros d Hd. rewrite (iter_shared_perm σ), elem_of_elements in Hd.
    apply shared_keys_lookup in Hd as [[ixs Hixs] _].
    unfold dict_get. rewrite Hixs. reflexivity.
Qed.

(** ** The matcher computes [match_by_scores] *)

Lemma for_own_pairs_first_success (body : nat → outcome (option Scanner))
    (f : nat → option Scanner) (l : list nat) :
  (∀ i, i ∈ l → body i = Ok (f i)) →
  for_own_pairs body l = Ok (first_success f l).
Proof.
  induction l as [| i l IH]; intros Hb; [reflexivity |].
  cbn [for_own_pairs first_success].
  rewrite (Hb i) by apply list_elem_of_here. rewrite bind_Ok.
  destruct (f i); [reflexivity |].
  apply IH. intros i' Hi'. apply Hb. by apply list_elem_of_further.
Qed.

Lemma try_anchor_attempt (self other : Scanner) (R : Point) (i : nat) :
  i < length (beacons self) → R ∈ beacons other →
  try_anchor (orientations self) (length (beacons self)) (beacons other) R i
  = Ok (anchor_attempt (beacons self) (beacons other) R i).
Proof.
  intros Hi HR. apply lookup_lt_is_Some_2 in Hi as [c Hc].
  unfold orientations, anchor_attempt.
  rewrite (try_anchor_spec _ _ R c i Hc HR), Hc. reflexivity.
Qed.

Lemma iter_nonempty {A} `{Countable A} (it : gset A → list A) (s : gset A) :
  it s ≡ₚ elements s → s ≠ ∅ → ∃ x l, it s = x :: l ∧ x ∈ s.
Proof.
  intros Hperm Hne. destruct (it s) as [| x l] eqn:Hit.
  - symmetry in Hperm. apply Permutation_nil_r in Hperm.
    apply elements_empty_iff in Hperm. exfalso. apply Hne. by apply leibniz_equiv.
  - exists x, l. split; [done |]. apply elem_of_elements. rewrite <- Hperm.
    apply list_elem_of_here.
Qed.

Lemma half_index_sum_no_shared (self other : Scanner) :
  shared_keys (distances self) (distances other) = ∅ →
  half_index_sum self other = 0%Z.
Proof. intros He. unfold half_index_sum. rewrite He, elements_empty. reflexivity. Qed.

(** The anchor the matcher picks, as [choose_anchor] finds it and as
    [chosen_anchor] describes it. *)
Lemma choose_anchor_spec (σ : set_order) (self other : Scanner) :
  shared_keys (distances self) (distances other) ≠ ∅ →
  ∃ d others j R own,
    d ∈ shared_keys (distances self) (distances other) ∧
    distances other !! d = Some others ∧ j ∈ others ∧
    beacons other !! j = Some R ∧ distances self !! d = Some own ∧
    choose_anchor σ self other (distances self) (distances other)
                  (shared_keys (distances self) (distances other))
    = Ok (R, iter_own_pairs σ self other own) ∧
    chosen_anchor σ self other = Some (R, iter_own_pairs σ self other own).
Proof.
  intros Hne.
  destruct (iter_nonempty (iter_shared σ self other) _ (iter_shared_perm σ _ _ _) Hne)
    as (d & ds & Hd & Hdin).
  pose proof Hdin as [[own Hown] [others Hothers]]%shared_keys_lookup.
  destruct (distances_ok other d others Hothers) as (Hone & Holt & _).
  destruct (iter_nonempty (iter_other_pairs σ self other) _
              (iter_other_pairs_perm σ _ _ _) Hone) as (j & js & Hj & Hjin).
  destruct (lookup_lt_is_Some_2 (beacons other) j (Holt j Hjin)) as [R HR].
  exists d, others, j, R, own. repeat split; try done.
  - unfold choose_anchor, next, dict_get, getitem.
    rewrite Hd. cbn [head or_raise]. rewrite bind_Ok, Hothers. cbn [or_raise].
    rewrite bind_Ok, Hj. cbn [head or_raise]. rewrite bind_Ok, HR. cbn [or_raise].
    rewrite bind_Ok, Hown. reflexivity.
  - unfold chosen_anchor. rewrite Hd. cbn [head]. cbn [mbind option_bind].
    rewrite Hothers. cbn [mbind option_bind]. rewrite Hj. cbn [head mbind option_bind].
    rewrite HR. cbn [mbind option_bind]. rewrite Hown. reflexivity.
Qed.

Theorem and_refines (σ : set_order) (self other : Scanner) :
  __and__ σ self other = Ok (match_by_scores σ self other).
Proof.
  unfold __and__, match_by_scores.
  rewrite prefilter_sum_spec, bind_Ok.
  destruct (decide (half_index_sum self other < MIN_COMMON_DISTANCES)%Z) as [Hlt | Hge].
  - by rewrite bool_decide_eq_true_2.
  - rewrite bool_decide_eq_false_2 by done.
    assert (shared_keys (distances self) (distances other) ≠ ∅) as Hne.
    { intros He. apply Hge. rewrite (half_index_sum_no_shared _ _ He). done. }
    destruct (choose_anchor_spec σ self other Hne)
      as (d & others & j & R & own & Hd & Hothers & Hj & HR & Hown & Hchoose & Hchosen).
    unfold search. rewrite Hchoose, bind_Ok, Hchosen. cbv beta iota.
    cbn [mbind option_bind].
    apply for_own_pairs_first_success. intros i Hi.
    apply try_anchor_attempt.
    + rewrite (iter_own_pairs_perm σ), elem_of_elements in Hi.
      by apply (distances_ok self d own Hown).
    + by eapply list_elem_of_lookup_2.
Qed.

(** ** Acceptance and the winning orientation *)

Lemma first_success_Some {A B} (f : A → option B) (l : list A) (b : B) :
  first_success f l = Some b →
  ∃ l1 a l2, l = l1 ++ a :: l2 ∧ (∀ x, x ∈ l1 → f x = None) ∧ f a = Some b.
Proof.
  induction l as [| a l IH]; [done |]. cbn [first_success].
  destruct (f a) as [b' |] eqn:Hfa.
  - intros [= ->]. exists [], a, l. split; [done |]. split; [| done].
    intros x Hx. inversion Hx.
  - intros (l1 & a' & l2 & -> & Hl1 & Ha')%IH.
    exists (a :: l1), a', l2. split; [done |]. split; [| done].
    intros x [-> | Hx]%elem_of_cons; auto.
Qed.

Lemma first_success_None {A B} (f : A → option B) (l : list A) :
  first_success f l = None ↔ ∀ x, x ∈ l → f x = None.
Proof.
  induction l as [| a l IH]; cbn [first_success].
  - split; [intros _ x Hx; inversion Hx | done].
  - destruct (f a) as [b |] eqn:Hfa.
    + split; [done |]. intros Hall.
      specialize (Hall a (list_elem_of_here _ _)). congruence.
    + rewrite IH. split.
      * intros Hall x [-> | Hx]%elem_of_cons; auto.
      * intros Hall x Hx. apply Hall. by apply list_elem_of_further.
Qed.

Lemma scores_lookup (F : list Point) (R c : Point) (b : list Point) (k : nat) :
  scores F R c b !! k
  = (λ M, coincidences F (anchored M R c b)) <$> ROTATIONS !! k.
Proof. unfold scores. apply list_lookup_fmap. Qed.

Lemma scores_elem_of (F : list Point) (R c : Point) (b : list Point) (s : Z) :
  s ∈ scores F R c b ↔ ∃ M, M ∈ ROTATIONS ∧ s = coincidences F (anchored M R c b).
Proof. unfold scores. rewrite list_elem_of_fmap. naive_solver. Qed.

Lemma anchor_attempt_Some (b F : list Point) (R : Point) (i : nat) (res : Scanner) :
  anchor_attempt b F R i = Some res →
  ∃ c k M,
    b !! i = Some c ∧ ROTATIONS !! k = Some M ∧
    beacons res = anchored M R c b ∧ position res = vsub R (rotate M c) ∧
    (MIN_BEACONS_IN_COMMON ≤ coincidences F (anchored M R c b))%Z ∧
    ∀ M', M' ∈ ROTATIONS →
      (coincidences F (anchored M' R c b) ≤ coincidences F (anchored M R c b))%Z.
Proof.
  unfold anchor_attempt. destruct (b !! i) as [c |] eqn:Hc; [| done].
  cbn [mbind option_bind].
  destruct (decide _) as [Hex | _]; [| done].
  destruct (ROTATIONS !! Np.argmax (scores F R c b)) as [M |] eqn:HM; [| done].
  cbn [fmap option_fmap option_map]. intros [= <-].
  exists c, (Np.argmax (scores F R c b)), M. cbn [beacons position].
  destruct (argmax_spec (scores F R c b)) as (m & Hm & Hmax).
  { intros Hnil. pose proof (scores_length F R c b) as Hl. by rewrite Hnil in Hl. }
  rewrite scores_lookup, HM in Hm. injection Hm as <-.
  repeat split; try done.
  - apply Exists_exists in Hex as (s & Hs & Hge). specialize (Hmax s Hs). lia.
  - intros M' HM'. apply Hmax, scores_elem_of. eauto.
Qed.

Lemma anchor_attempt_None (b F : list Point) (R c : Point) (i : nat) :
  b !! i = Some c →
  (anchor_attempt b F R i = None ↔
   ∀ M', M' ∈ ROTATIONS →
     (coincidences F (anchored M' R c b) < MIN_BEACONS_IN_COMMON)%Z).
Proof.
  intros Hc. unfold anchor_attempt. rewrite Hc. cbn [mbind option_bind].
  destruct (decide _) as [Hex | Hnex].
  - destruct (argmax_spec (scores F R c b)) as (m & Hm & _).
    { intros Hnil. pose proof (scores_length F R c b) as Hl. by rewrite Hnil in Hl. }
    rewrite scores_lookup in Hm.
    destruct (ROTATIONS !! Np.argmax (scores F R c b)) as [M |]; [| done].
    split; [done |]. intros Hall.
    apply Exists_exists in Hex as (s & (M' & HM' & ->)%scores_elem_of & Hge).
    specialize (Hall M' HM'). lia.
  - split; [| done]. intros _ M' HM'.
    apply Z.lt_nge. intros Hge. apply Hnex, Exists_exists.
    eexists. split; [apply scores_elem_of; eauto | done].
Qed.

(** What an accepted match is, and what a rejection past the pre-filter
    means. *)
Lemma match_by_scores_Some (σ : set_order) (C F res : Scanner) :
  match_by_scores σ C F = Some res →
  (MIN_COMMON_DISTANCES ≤ half_index_sum C F)%Z ∧
  ∃ d others j R own i c k M,
    distances F !! d = Some others ∧ j ∈ others ∧ beacons F !! j = Some R ∧
    distances C !! d = Some own ∧ i ∈ own ∧ beacons C !! i = Some c ∧
    ROTATIONS !! k = Some M ∧
    beacons res = transform M (vsub R (rotate M c)) (beacons C) ∧
    position res = vsub R (rotate M c) ∧
    (MIN_BEACONS_IN_COMMON ≤ coincidences (beacons F) (beacons res))%Z ∧
    ∀ M', M' ∈ ROTATIONS →
      (coincidences (beacons F)
                    (transform M' (vsub R (rotate M' c)) (beacons C))
       ≤ coincidences (beacons F) (beacons res))%Z.
Proof.
  unfold match_by_scores.
  destruct (decide (half_index_sum C F < MIN_COMMON_DISTANCES)%Z) as [Hlt | Hge];
    [done |].
  assert (shared_keys (distances C) (distances F) ≠ ∅) as Hne.
  { intros He. apply Hge. by rewrite (half_index_sum_no_shared _ _ He). }
  destruct (choose_anchor_spec σ C F Hne)
    as (d & others & j & R & own & Hd & Hothers & Hj & HR & Hown & _ & ->).
  cbn [mbind option_bind]. intros Hfs.
  apply first_success_Some in Hfs as (l1 & i & l2 & Hl & _ & Hi).
  apply anchor_attempt_Some in Hi as (c & k & M & Hc & HM & Hb & Hp & H12 & Hbest).
  split; [lia |].
  exists d, others, j, R, own, i, c, k, M.
  rewrite Hb. repeat split; try done.
  apply elem_of_elements. rewrite <- (iter_own_pairs_perm σ C F), Hl.
  apply elem_of_app. right. apply list_elem_of_here.
Qed.

Lemma match_by_scores_None (σ : set_order) (C F : Scanner) :
  match_by_scores σ C F = None →
  (half_index_sum C F < MIN_COMMON_DISTANCES)%Z ∨
  ∃ d others j R own,
    distances F !! d = Some others ∧ j ∈ others ∧ beacons F !! j = Some R ∧
    distances C !! d = Some own ∧
    ∀ i c M', i ∈ own → beacons C !! i = Some c → M' ∈ ROTATIONS →
      (coincidences (beacons F)
                    (transform M' (vsub R (rotate M' c)) (beacons C))
       < MIN_BEACONS_IN_COMMON)%Z.
Proof.
  unfold match_by_scores.
  destruct (decide (half_index_sum C F < MIN_COMMON_DISTANCES)%Z) as [Hlt | Hge];
    [by left |].
  assert (shared_keys (distances C) (distances F) ≠ ∅) as Hne.
  { intros He. apply Hge. by rewrite (half_index_sum_no_shared _ _ He). }
  destruct (choose_anchor_spec σ C F Hne)
    as (d & others & j & R & own & Hd & Hothers & Hj & HR & Hown & _ & ->).
  cbn [mbind option_bind]. intros Hfs.
  right. exists d, others, j, R, own. repeat split; try done.
  intros i c M' Hi Hc HM'.
  rewrite first_success_None in Hfs.
  assert (i ∈ iter_own_pairs σ C F own) as Hi'
    by (by rewrite (iter_own_pairs_perm σ), elem_of_elements).
  apply (anchor_attempt_None _ _ R c i Hc); auto.
Qed.

(** ** Coincidences and common points *)

Lemma size_list_to_set_le (l : list Point) :
  size (list_to_set l : gset Point) ≤ length l.
Proof.
  induction l as [| p l IH]; [by rewrite list_to_set_nil, size_empty |].
  rewrite list_to_set_cons, size_union_alt, size_singleton. cbn [length].
  pose proof (subseteq_size (list_to_set l ∖ {[p]} : gset Point) (list_to_set l)) as Hs.
  specialize (Hs ltac:(set_solver)). lia.
Qed.

Lemma common_points_filter (F C : list Point) :
  (list_to_set F : gset Point) ∩ list_to_set C
  = list_to_set (filter (λ p, p ∈ F) C).
Proof.
  apply set_eq. intros p.
  rewrite elem_of_intersection, !elem_of_list_to_set, list_elem_of_filter. tauto.
Qed.


Lemma occurrences_NoDup (F : list Point) (p : Point) :
  NoDup F → occurrences F p = if decide (p ∈ F) then 1%Z else 0%Z.
Proof.
  intros HF. unfold occurrences. destruct (decide (p ∈ F)) as [Hin | Hnin].
  - induction HF as [| q F Hq HF IH]; [inversion Hin |].
    rewrite filter_cons. destruct (decide (q = p)) as [-> | Hne].
    + cbn [length]. by rewrite (filter_eq_absent p F Hq).
    + apply IH. apply elem_of_cons in Hin as [? | ?]; [congruence | done].
  - by rewrite filter_eq_absent.
Qed.


Lemma coincidences_NoDup_filter (F C : list Point) :
  NoDup F → coincidences F C = Z.of_nat (length (filter (λ p, p ∈ F) C)).
Proof.
  intros HF. unfold coincidences, Np.sum_list_Z.
  induction C as [| p C IH]; [done |].
  rewrite filter_cons, fmap_cons. cbn [foldr].
  rewrite IH, (occurrences_NoDup F p HF).
  destruct (decide (p ∈ F)); cbn [length]; lia.
Qed.


Lemma coincidences_common_points (F C : list Point) :
  NoDup F → NoDup C → coincidences F C = Z.of_nat (common_points F C).
Proof.
  intros HF HC. unfold common_points.
  rewrite common_points_filter, size_list_to_set by (by apply NoDup_filter).
  by apply coincidences_NoDup_filter.
Qed.

Lemma rotate_injective :
  Forall (λ M, ∀ p q, rotate M p = rotate M q → p = q) ROTATIONS.
Proof.
  each_rotation ltac:(intros [[x y] z] [[x' y'] z']; unfold_rotate;
                      intros [= H1 H2 H3]; f_equal; [f_equal |]; lia).
Qed.

Lemma transform_NoDup (M : list (list Z)) (t : Point) (b : list Point) :
  M ∈ ROTATIONS → NoDup b → NoDup (transform M t b).
Proof.
  intros HM Hb. unfold transform.
  pose proof rotate_injective as Hinj. rewrite Forall_forall in Hinj.
  apply NoDup_fmap_2_strong; [| done].
  intros p q _ _ Heq. apply (Hinj M HM).
  destruct (rotate M p) as [[x y] z], (rotate M q) as [[x' y'] z'], t as [[a b1] c].
  unfold vadd in Heq. cbn in Heq. injection Heq as H1 H2 H3.
  f_equal; [f_equal |]; lia.
Qed.


(** C1 (amended).  Whenever the matcher accepts, the scanner it returns
    holds the candidate's beacons under the orientation with the largest
    number of coincidences with the fixed cloud (pairs of a place of the
    candidate and a place of the fixed cloud that hold the same point),
    moved by [R - oriented[anchor]], and that offset is its position;
    the number of coincidences is at least 12.  Past the pre-filter the
    matcher rejects only when no candidate anchor has an orientation
    with 12 coincidences.  It never raises.  For every anchor the
    attempt yields a scanner exactly when the largest number of
    coincidences is at least 12.  When neither cloud repeats a point the
    number of coincidences is the number of points the two clouds have
    in common. *)
Theorem and_returns_best_orientation (σ : set_order) (C F : Scanner) :
  match __and__ σ C F with
  | Ok (Some res) =>
      (MIN_COMMON_DISTANCES ≤ half_index_sum C F)%Z ∧
      ∃ d others j R own i c k M,
        distances F !! d = Some others ∧ j ∈ others ∧ beacons F !! j = Some R ∧
        distances C !! d = Some own ∧ i ∈ own ∧ beacons C !! i = Some c ∧
        ROTATIONS !! k = Some M ∧
        beacons res = transform M (vsub R (rotate M c)) (beacons C) ∧
        position res = vsub R (rotate M c) ∧
        (MIN_BEACONS_IN_COMMON ≤ coincidences (beacons F) (beacons res))%Z ∧
        ∀ M', M' ∈ ROTATIONS →
          (coincidences (beacons F)
                        (transform M' (vsub R (rotate M' c)) (beacons C))
           ≤ coincidences (beacons F) (beacons res))%Z
  | Ok None =>
      (half_index_sum C F < MIN_COMMON_DISTANCES)%Z ∨
      ∃ d others j R own,
        distances F !! d = Some others ∧ j ∈ others ∧ beacons F !! j = Some R ∧
        distances C !! d = Some own ∧
        ∀ i c M', i ∈ own → beacons C !! i = Some c → M' ∈ ROTATIONS →
          (coincidences (beacons F)
                        (transform M' (vsub R (rotate M' c)) (beacons C))
           < MIN_BEACONS_IN_COMMON)%Z
  | Raise _ => False
  end ∧
  (∀ R i c, R ∈ beacons F → beacons C !! i = Some c →
     ((∃ res, try_anchor (orientations C) (length (beacons C)) (beacons F) R i
              = Ok (Some res)) ↔
      ∃ M, M ∈ ROTATIONS ∧
           (MIN_BEACONS_IN_COMMON
            ≤ coincidences (beacons F)
                           (transform M (vsub R (rotate M c)) (beacons C)))%Z)) ∧
  (NoDup (beacons C) → NoDup (beacons F) →
   ∀ M t, M ∈ ROTATIONS →
     coincidences (beacons F) (transform M t (beacons C))
     = Z.of_nat (common_points (beacons F) (transform M t (beacons C)))).
Proof.
  split; [| split].
  - rewrite and_refines.
    destruct (match_by_scores σ C F) as [res |] eqn:Hres.
    + by apply (match_by_scores_Some σ).
    + by apply (match_by_scores_None σ).
  - intros R i c HR Hc.
    rewrite try_anchor_attempt by (by eapply lookup_lt_Some || done).
    pose proof (anchor_attempt_None (beacons C) (beacons F) R c i Hc) as Hnone.
    destruct (anchor_attempt (beacons C) (beacons F) R i) as [res |] eqn:Hres.
    + split; [intros _ | by eexists].
      apply anchor_attempt_Some in Hres
        as (c' & k & M & Hc' & HM & _ & _ & H12 & _).
      assert (c' = c) as -> by congruence.
      exists M. split; [by eapply list_elem_of_lookup_2 | done].
    + split; [by intros [res [=]] |].
      intros (M & HM & H12). apply proj1 in Hnone.
      specialize (Hnone eq_refl M HM). unfold anchored in Hnone. lia.
  - intros HC HF M t HM. apply coincidences_common_points; [done |].
    by apply transform_NoDup.
Qed.

(** ** Coordinates stay small *)

Lemma rotate_within :
  Forall (λ M, ∀ B p, within B p → within B (rotate M p)) ROTATIONS.
Proof.
  each_rotation ltac:(intros B [[x y] z]; unfold within; unfold_rotate;
                      cbn [fst snd]; lia).
Qed.

(** A placed scanner is at most 2^16 further out than the scanner it
    was matched against, when the candidate's coordinates are [int16]. *)
Lemma placed_within (σ : set_order) (C F res : Scanner) (B : Z) :
  __and__ σ C F = Ok (Some res) →
  Forall (within (2 ^ 15)) (beacons C) → Forall (within B) (beacons F) →
  Forall (within (B + 2 ^ 16)) (beacons res) ∧ within (B + 2 ^ 15) (position res).
Proof.
  rewrite and_refines. intros [= Hres] HC HF.
  apply match_by_scores_Some in Hres
    as (_ & d & others & j & R & own & i & c & k & M & _ & _ & HR & _ & _ & Hc
        & HM & -> & -> & _).
  apply list_elem_of_lookup_2 in HR, Hc, HM.
  rewrite Forall_forall in HC, HF.
  pose proof rotate_within as Hrot. rewrite Forall_forall in Hrot.
  specialize (Hrot M HM (2 ^ 15)%Z).
  pose proof (Hrot c (HC c Hc)) as Hrc. pose proof (HF R HR) as HRB.
  assert (within (B + 2 ^ 15) (vsub R (rotate M c))) as Ht.
  { destruct R as [[r1 r2] r3], (rotate M c) as [[x y] z].
    unfold within, vsub in *. cbn [fst snd] in *. lia. }
  split; [| exact Ht].
  unfold transform. apply Forall_fmap, Forall_forall. intros p Hp. cbn.
  pose proof (Hrot p (HC p Hp)) as Hrp.
  destruct (vsub R (rotate M c)) as [[t1 t2] t3], (rotate M p) as [[x y] z].
  unfold within, vadd in *. cbn [fst snd] in *. lia.
Qed.

(** ** The matcher on objects *)


Lemma preserved_refl (h : Heap.heap) : preserved h h.
Proof. split; [done |]. intros x o Hx. eauto. Qed.

Lemma preserved_trans (h1 h2 h3 : Heap.heap) :
  preserved h1 h2 → preserved h2 h3 → preserved h1 h3.
Proof.
  intros [Hl12 H12] [Hl23 H23]. split; [congruence |].
  intros x o Hx. destruct (H12 x o Hx) as (o2 & Hx2 & Hv2 & Hc2).
  destruct (H23 x o2 Hx2) as (o3 & Hx3 & Hv3 & Hc3).
  exists o3. split; [done |]. split; [congruence | auto].
Qed.

Lemma preserved_insert (h : Heap.heap) (a : nat) (o o' : Heap.object) :
  h !! a = Some o → Heap.value o' = Heap.value o →
  (Heap.consistent o → Heap.consistent o') →
  preserved h (<[a := o']> h).
Proof.
  intros Ha Hv Hc. split; [apply length_insert |].
  intros x ox Hx. destruct (decide (a = x)) as [-> | Hne].
  - assert (ox = o) as -> by congruence. exists o'.
    split; [apply list_lookup_insert_eq; by eapply lookup_lt_Some | done].
  - exists ox. split; [by rewrite list_lookup_insert_ne | done].
Qed.

Lemma get_distances_spec (a : nat) (h : Heap.heap) (o : Heap.object) :
  h !! a = Some o → Heap.consistent o →
  ∃ o', Heap.get_distances a h = Ok (distances (Heap.value o), <[a := o']> h) ∧
        Heap.value o' = Heap.value o ∧ Heap.consistent o' ∧
        Heap.o_orientations o' = Heap.o_orientations o.
Proof.
  intros Ha Hc. pose proof Hc as [Hd Hr]. unfold Heap.get_distances.
  rewrite (getitem_Some h a o Ha), bind_Ok.
  destruct (Heap.o_distances o) as [d |] eqn:Hcache.
  - exists o. rewrite (list_insert_id h a o Ha), (Hd d eq_refl). done.
  - eexists. split; [reflexivity |]. split; [reflexivity |].
    split; [| reflexivity]. split.
    + intros d [= <-]. reflexivity.
    + intros r Hro. by apply Hr.
Qed.

Lemma get_orientations_spec (a : nat) (h : Heap.heap) (o : Heap.object) :
  h !! a = Some o → Heap.consistent o →
  ∃ o', Heap.get_orientations a h
          = Ok (orientations (Heap.value o), <[a := o']> h) ∧
        Heap.value o' = Heap.value o ∧ Heap.consistent o'.
Proof.
  intros Ha Hc. pose proof Hc as [Hd Hr]. unfold Heap.get_orientations.
  rewrite (getitem_Some h a o Ha), bind_Ok.
  destruct (Heap.o_orientations o) as [r |] eqn:Hcache.
  - exists o. rewrite (list_insert_id h a o Ha), (Hr r eq_refl). done.
  - eexists. split; [reflexivity |]. split; [reflexivity |]. split.
    + intros d Hdo. by apply Hd.
    + intros r [= <-]. reflexivity.
Qed.

Lemma orientations_insert (h : Heap.heap) (a : nat) (o o' : Heap.object) :
  h !! a = Some o → Heap.o_orientations o' = Heap.o_orientations o →
  Heap.o_orientations <$> <[a := o']> h = Heap.o_orientations <$> h.
Proof.
  intros Ha Ho. rewrite list_fmap_insert, Ho.
  apply list_insert_id. by rewrite list_lookup_fmap, Ha.
Qed.

Lemma heap_and_spec (σ : set_order) (h : Heap.heap) (a b : nat)
    (oa ob : Heap.object) :
  h !! a = Some oa → h !! b = Some ob →
  Heap.consistent oa → Heap.consistent ob →
  ∃ h1,
    preserved h h1 ∧
    Heap.__and__ σ a b h =
      match match_by_scores σ (Heap.value oa) (Heap.value ob) with
      | None => Ok (None, h1)
      | Some res =>
          Ok (Some (length h),
              h1 ++ [Heap.mkObject (beacons res) (position res) None None])
      end ∧
    ((half_index_sum (Heap.value oa) (Heap.value ob) < MIN_COMMON_DISTANCES)%Z →
     Heap.o_orientations <$> h1 = Heap.o_orientations <$> h).
Proof.
  intros Ha Hb Hca Hcb. unfold Heap.__and__.
  (* self.distances *)
  destruct (get_distances_spec a h oa Ha Hca) as (oa1 & -> & Hva1 & Hca1 & Hoa1).
  rewrite bind_Ok. cbv beta iota.
  pose proof (preserved_insert h a oa oa1 Ha Hva1 (λ _, Hca1)) as Hp1.
  pose proof (orientations_insert h a oa oa1 Ha Hoa1) as Ho1.
  set (h1 := <[a := oa1]> h) in *.
  (* other.distances *)
  destruct (proj2 Hp1 b ob Hb) as (ob1 & Hb1 & Hvb1 & Hcb1).
  specialize (Hcb1 Hcb).
  destruct (get_distances_spec b h1 ob1 Hb1 Hcb1) as (ob2 & -> & Hvb2 & Hcb2 & Hob2).
  rewrite bind_Ok. cbv beta iota.
  pose proof (preserved_insert h1 b ob1 ob2 Hb1 Hvb2 (λ _, Hcb2)) as Hp2.
  pose proof (orientations_insert h1 b ob1 ob2 Hb1 Hob2) as Ho2.
  set (h2 := <[b := ob2]> h1) in *.
  pose proof (preserved_trans _ _ _ Hp1 Hp2) as Hp12.
  destruct (proj2 Hp12 a oa Ha) as (so & Hso & Hvso & Hcso). specialize (Hcso Hca).
  destruct (proj2 Hp12 b ob Hb) as (oo & Hoo & Hvoo & Hcoo).
  rewrite (getitem_Some h2 a so Hso), bind_Ok.
  rewrite (getitem_Some h2 b oo Hoo), bind_Ok.
  rewrite Hvb1, Hvso, Hvoo.
  set (self := Heap.value oa) in *. set (other := Heap.value ob) in *.
  rewrite prefilter_sum_spec, bind_Ok.
  unfold match_by_scores.
  destruct (decide (half_index_sum self other < MIN_COMMON_DISTANCES)%Z) as [Hlt | Hge].
  - rewrite bool_decide_eq_true_2 by done. exists h2.
    split; [done |]. split; [done |]. intros _. congruence.
  - rewrite bool_decide_eq_false_2 by done.
    assert (shared_keys (distances self) (distances other) ≠ ∅) as Hne.
    { intros He. apply Hge. by rewrite (half_index_sum_no_shared _ _ He). }
    destruct (choose_anchor_spec σ self other Hne)
      as (d & others & j & R & own & Hd & Hothers & Hj & HR & Hown & -> & ->).
    rewrite bind_Ok. cbv beta iota. cbn [mbind option_bind].
    destruct (distances_ok self d own Hown) as (Hownne & Hownlt & _).
    destruct (iter_nonempty (iter_own_pairs σ self other) own
                (iter_own_pairs_perm σ _ _ _) Hownne) as (i0 & rest & Hiter & _).
    assert (∀ i, i ∈ iter_own_pairs σ self other own → i < length (beacons self))
      as Hlt.
    { intros i Hi. rewrite (iter_own_pairs_perm σ), elem_of_elements in Hi. auto. }
    rewrite Hiter in *.
    destruct (get_orientations_spec a h2 so Hso Hcso) as (so1 & -> & Hvso1 & Hcso1).
    rewrite bind_Ok. cbv beta iota.
    pose proof (preserved_insert h2 a so so1 Hso Hvso1 (λ _, Hcso1)) as Hp3.
    set (h3 := <[a := so1]> h2) in *.
    rewrite Hvso.
    assert (Heap.o_beacons so = beacons self) as -> by (by rewrite <- Hvso).
    assert (Heap.o_beacons oo = beacons other) as -> by (by rewrite <- Hvoo).
    rewrite (for_own_pairs_first_success _
               (anchor_attempt (beacons self) (beacons other) R)); cycle 1.
    { intros i Hi. apply try_anchor_attempt; [auto |]. by eapply list_elem_of_lookup_2. }
    rewrite bind_Ok. exists h3.
    split; [by eapply preserved_trans |].
    split; [| intros; lia].
    destruct (first_success _ _) as [placed |]; [| done].
    unfold Heap.alloc. cbv beta iota.
    destruct Hp3 as [-> _], Hp12 as [-> _]. reflexivity.
Qed.

(** ** The driver *)

Section driver_properties.
Context (σ : set_order).

Lemma for_positioned_spec (scanner : Scanner) (P : list Scanner) :
  for_positioned σ scanner P = Ok (first_success (match_by_scores σ scanner) P).
Proof.
  induction P as [| other P IH]; [reflexivity |].
  cbn [for_positioned first_success]. rewrite and_refines, bind_Ok.
  destruct (match_by_scores σ scanner other); [reflexivity | exact IH].
Qed.

Lemma loop_body_spec (scanner : Scanner) (q P : list Scanner) :
  loop_body σ scanner q P =
  Ok match first_success (match_by_scores σ scanner) P with
     | Some placed => (q, P ++ [placed])
     | None => (q ++ [scanner], P)
     end.
Proof.
  unfold loop_body. rewrite for_positioned_spec, bind_Ok.
  by destruct (first_success _ _).
Qed.

Lemma and_None_iff (c o : Scanner) :
  __and__ σ c o = Ok None ↔ match_by_scores σ c o = None.
Proof. rewrite and_refines. split; [by intros [= ->] | by intros ->]. Qed.

Lemma and_Some_iff (c o p : Scanner) :
  __and__ σ c o = Ok (Some p) ↔ match_by_scores σ c o = Some p.
Proof. rewrite and_refines. split; [by intros [= ->] | by intros ->]. Qed.

Lemma loop_body_success (scanner : Scanner)
    (q P1 : list Scanner) (other : Scanner) (P2 : list Scanner) (placed : Scanner) :
  (∀ o, o ∈ P1 → __and__ σ scanner o = Ok None) →
  __and__ σ scanner other = Ok (Some placed) →
  loop_body σ scanner q (P1 ++ other :: P2)
  = Ok (q, (P1 ++ other :: P2) ++ [placed]).
Proof.
  intros HP1 Hother. rewrite loop_body_spec.
  assert (first_success (match_by_scores σ scanner) (P1 ++ other :: P2)
          = Some placed) as ->; [| done].
  induction P1 as [| o P1 IH]; cbn [app first_success].
  - apply and_Some_iff in Hother. by rewrite Hother.
  - pose proof (HP1 o (list_elem_of_here _ _)) as Ho. apply and_None_iff in Ho.
    rewrite Ho. apply IH. intros o' Ho'. apply HP1. by apply list_elem_of_further.
Qed.

Lemma loop_body_failure (scanner : Scanner) (q P : list Scanner) :
  (∀ o, o ∈ P → __and__ σ scanner o = Ok None) →
  loop_body σ scanner q P = Ok (q ++ [scanner], P).
Proof.
  intros HP. rewrite loop_body_spec.
  assert (first_success (match_by_scores σ scanner) P = None) as ->; [| done].
  apply first_success_None. intros o Ho. by apply and_None_iff, HP.
Qed.

Lemma while_returns_iff_turns (fuel : nat)
    (q P res : list Scanner) :
  while_to_position σ fuel q P = Some (Ok res) ↔
  ∃ n, n < fuel ∧ turns σ n q P = Some ([], res).
Proof.
  revert q P. induction fuel as [| fuel IH]; intros q P; cbn [while_to_position].
  - split; [done | intros (n & Hn & _); lia].
  - destruct q as [| scanner q].
    + split.
      * intros [= ->]. exists 0. split; [lia | done].
      * intros (n & _ & Hn). destruct n; cbn in Hn; [| done]. congruence.
    + rewrite loop_body_spec.
      destruct (first_success _ _) as [placed |] eqn:Hfs.
      * rewrite IH. split.
        -- intros (n & Hn & Ht). exists (S n). split; [lia |].
           cbn [turns]. by rewrite loop_body_spec, Hfs.
        -- intros (n & Hn & Ht). destruct n as [| n]; [done |].
           cbn [turns] in Ht. rewrite loop_body_spec, Hfs in Ht.
           exists n. split; [lia | done].
      * rewrite IH. split.
        -- intros (n & Hn & Ht). exists (S n). split; [lia |].
           cbn [turns]. by rewrite loop_body_spec, Hfs.
        -- intros (n & Hn & Ht). destruct n as [| n]; [done |].
           cbn [turns] in Ht. rewrite loop_body_spec, Hfs in Ht.
           exists n. split; [lia | done].
Qed.


Lemma while_places_every_cloud (first : Scanner)
    (rest : list Scanner) (fuel : nat) :
  ∀ (q P res : list Scanner) (l placed : list Scanner),
    P = first :: placed → l ++ q ≡ₚ rest →
    Forall2 (represents σ P) l placed →
    while_to_position σ fuel q P = Some (Ok res) →
    ∃ l' placed', res = first :: placed' ∧ l' ≡ₚ rest ∧
                  Forall2 (represents σ res) l' placed'.
Proof.
  induction fuel as [| fuel IH]; intros q P res l placed HP Hperm Hrep;
    cbn [while_to_position]; [done |].
  destruct q as [| scanner q].
  - intros [= <-]. exists l, placed. rewrite app_nil_r in Hperm. done.
  - rewrite loop_body_spec.
    destruct (first_success _ _) as [p |] eqn:Hfs.
    + apply (IH q (P ++ [p]) res (l ++ [scanner]) (placed ++ [p])).
      * by rewrite HP.
      * by rewrite <- app_assoc.
      * apply Forall2_app.
        -- eapply Forall2_impl; [exact Hrep |].
           intros c p' (o & Ho & Hm). exists o. split; [| done].
           apply elem_of_app. by left.
        -- constructor; [| constructor].
           apply first_success_Some in Hfs as (P1 & o & P2 & -> & _ & Ho).
           exists o. split; [| by apply and_Some_iff].
           rewrite !elem_of_app, elem_of_cons. auto.
    + apply (IH (q ++ [scanner]) P res l placed); [done | | done].
      rewrite <- Hperm. apply Permutation_app_head.
      symmetry. apply Permutation_cons_append.
Qed.

Lemma while_without_match_runs_on (fuel : nat) :
  ∀ q P, q ≠ [] →
    (∀ c o, c ∈ q → o ∈ P → __and__ σ c o = Ok None) →
    while_to_position σ fuel q P = None.
Proof.
  induction fuel as [| fuel IH]; intros q P Hq Hnone; [reflexivity |].
  cbn [while_to_position]. destruct q as [| scanner q]; [done |].
  rewrite loop_body_failure.
  - apply IH; [by destruct q |].
    intros c o Hc Ho. apply Hnone; [| done].
    apply elem_of_app in Hc as [Hc | Hc%list_elem_of_singleton].
    + by apply list_elem_of_further.
    + subst. apply list_elem_of_here.
  - intros o Ho. apply Hnone; [apply list_elem_of_here | done].
Qed.

Lemma turns_full_pass_without_match (P : list Scanner) :
  ∀ q q0, (∀ c o, c ∈ q → o ∈ P → __and__ σ c o = Ok None) →
    turns σ (length q) (q ++ q0) P = Some (q0 ++ q, P).
Proof.
  induction q as [| scanner q IH]; intros q0 Hnone.
  - cbn. by rewrite app_nil_r.
  - cbn [length app turns]. rewrite loop_body_failure.
    + rewrite <- app_assoc. rewrite IH.
      * by rewrite <- app_assoc.
      * intros c o Hc Ho. apply Hnone; [by apply list_elem_of_further | done].
    + intros o Ho. apply Hnone; [apply list_elem_of_here | done].
Qed.

End driver_properties.

Lemma sum_list_Z_fmap_le {A} (f g : A → Z) (l : list A) :
  (∀ a, a ∈ l → (f a ≤ g a)%Z) →
  (Np.sum_list_Z (f <$> l) ≤ Np.sum_list_Z (g <$> l))%Z.
Proof.
  unfold Np.sum_list_Z. induction l as [| a l IH]; intros Hfg; [done |].
  rewrite !fmap_cons. cbn [foldr].
  pose proof (Hfg a (list_elem_of_here _ _)).
  assert (∀ a', a' ∈ l → (f a' ≤ g a')%Z) as Hl
    by (intros a' Ha'; apply Hfg; by apply list_elem_of_further).
  specialize (IH Hl). lia.
Qed.

Lemma half_index_sum_le_own_pairs (self other : Scanner) :
  (half_index_sum self other ≤ own_pairs_at_shared self other)%Z.
Proof.
  unfold half_index_sum, own_pairs_at_shared. apply sum_list_Z_fmap_le.
  intros d Hd. apply elem_of_elements, shared_keys_lookup in Hd as [[ixs Hixs] _].
  rewrite Hixs. change (default ∅ (Some ixs)) with ixs.
  destruct (distances_ok self d ixs Hixs) as (_ & _ & Hsz).
  apply Z.div_le_upper_bound; lia.
Qed.

(** C2 (amended).  The pre-filter adds, over the distances both clouds
    have, half the size of the candidate's own index set, rounded down:
    the index sets of the fixed cloud are not consulted, and the sum
    bounds from below the candidate's pairs at those distances.  When
    the sum is below 66 the matcher returns [None], raises nothing and
    computes no oriented variant: no [orientations] cache is written. *)
Theorem prefilter_rejects_below_66 (σ : set_order) (self other : Scanner) :
  (half_index_sum self other < MIN_COMMON_DISTANCES)%Z →
  prefilter_sum σ self other (distances self)
                (shared_keys (distances self) (distances other))
    = Ok (half_index_sum self other) ∧
  (half_index_sum self other ≤ own_pairs_at_shared self other)%Z ∧
  __and__ σ self other = Ok None ∧
  ∀ (h : Heap.heap) (a b : nat) (oa ob : Heap.object),
    h !! a = Some oa → h !! b = Some ob →
    Heap.consistent oa → Heap.consistent ob →
    Heap.value oa = self → Heap.value ob = other →
    ∃ h', Heap.__and__ σ a b h = Ok (None, h') ∧
          Heap.o_orientations <$> h' = Heap.o_orientations <$> h.
Proof.
  intros Hlt. split; [apply prefilter_sum_spec |].
  split; [apply half_index_sum_le_own_pairs |].
  assert (match_by_scores σ self other = None) as Hnone.
  { unfold match_by_scores. by rewrite decide_True. }
  split; [by rewrite and_refines, Hnone |].
  intros h a b oa ob Ha Hb Hca Hcb <- <-.
  destruct (heap_and_spec σ h a b oa ob Ha Hb Hca Hcb) as (h1 & _ & Hand & Hor).
  rewrite Hnone in Hand. exists h1. auto.
Qed.

(** C3 (amended).  When no cloud of the queue matches any placed cloud,
    a full pass over the queue leaves the queue and the placed list as
    they were, and the loop never returns, whatever the fuel: the
    driver has no detection of non-progress. *)
Theorem driver_runs_forever_without_match (σ : set_order) (q P : list Scanner) :
  q ≠ [] →
  (∀ c o, c ∈ q → o ∈ P → __and__ σ c o = Ok None) →
  turns σ (length q) q P = Some (q, P) ∧
  ∀ fuel, while_to_position σ fuel q P = None.
Proof.
  intros Hq Hnone. split.
  - pose proof (turns_full_pass_without_match σ P q [] Hnone) as Ht.
    by rewrite app_nil_r in Ht.
  - intros fuel. by apply while_without_match_runs_on.
Qed.

(** C4.  The driver seeds the placed list with the first cloud, left as
    it is (at (0,0,0) for parsed input); every turn pops the head of
    the queue and tries the placed scanners in order, the first match
    is appended to the placed list, a cloud that matches none goes to
    the tail of the queue; the loop returns exactly when the queue is
    empty, and then every input cloud has exactly one placed
    representative. *)
Theorem driver_queue_discipline (σ : set_order) :
  (∀ fuel first rest,
     positioned_scanners σ fuel (mkBeaconMap (first :: rest))
     = while_to_position σ fuel rest [first]) ∧
  (∀ c cs, scanners (from_clouds (c :: cs))
           = mkScanner c (0, 0, 0)%Z :: (Scanner_default <$> cs)) ∧
  (∀ scanner q P1 other P2 placed,
     (∀ o, o ∈ P1 → __and__ σ scanner o = Ok None) →
     __and__ σ scanner other = Ok (Some placed) →
     turns σ 1 (scanner :: q) (P1 ++ other :: P2)
     = Some (q, (P1 ++ other :: P2) ++ [placed])) ∧
  (∀ scanner q P,
     (∀ o, o ∈ P → __and__ σ scanner o = Ok None) →
     turns σ 1 (scanner :: q) P = Some (q ++ [scanner], P)) ∧
  (∀ fuel q P res,
     while_to_position σ fuel q P = Some (Ok res) ↔
     ∃ n, n < fuel ∧ turns σ n q P = Some ([], res)) ∧
  (∀ fuel first rest res,
     positioned_scanners σ fuel (mkBeaconMap (first :: rest)) = Some (Ok res) →
     ∃ order placed,
       res = first :: placed ∧ order ≡ₚ rest ∧
       Forall2 (represents σ res) order placed).
Proof.
  split; [reflexivity |]. split; [reflexivity |]. split; [| split; [| split]].
  - intros scanner q P1 other P2 placed HP1 Hother. cbn [turns].
    by rewrite (loop_body_success σ scanner q P1 other P2 placed).
  - intros scanner q P HP. cbn [turns]. by rewrite loop_body_failure.
  - apply while_returns_iff_turns.
  - intros fuel first rest res Hres.
    apply (while_places_every_cloud σ first rest fuel rest [first] res [] []);
      [done | done | constructor | exact Hres].
Qed.

(** C9.  On a heap whose caches are right, the matcher returns without
    raising; every object of the heap, the two inputs among them, keeps
    its beacons and its position; an accepted match is a new object at
    an address that was free, with the beacons and position computed
    for it, and a rejected one allocates nothing. *)
Theorem and_leaves_inputs_unchanged (σ : set_order) (h : Heap.heap)
    (a b : nat) (oa ob : Heap.object) :
  h !! a = Some oa → h !! b = Some ob →
  Heap.consistent oa → Heap.consistent ob →
  ∃ r h',
    Heap.__and__ σ a b h = Ok (r, h') ∧
    (∀ x o, h !! x = Some o →
       ∃ o', h' !! x = Some o' ∧ Heap.o_beacons o' = Heap.o_beacons o ∧
             Heap.o_position o' = Heap.o_position o) ∧
    match r with
    | Some n =>
        h !! n = None ∧ n ≠ a ∧ n ≠ b ∧
        ∃ res, __and__ σ (Heap.value oa) (Heap.value ob) = Ok (Some res) ∧
               h' !! n = Some (Heap.mkObject (beacons res) (position res) None None)
    | None =>
        __and__ σ (Heap.value oa) (Heap.value ob) = Ok None ∧
        length h' = length h
    end.
Proof.
  intros Ha Hb Hca Hcb.
  destruct (heap_and_spec σ h a b oa ob Ha Hb Hca Hcb) as (h1 & [Hlen Hp] & Hand & _).
  assert (∀ x o, h !! x = Some o →
            ∃ o', h1 !! x = Some o' ∧ Heap.o_beacons o' = Heap.o_beacons o ∧
                  Heap.o_position o' = Heap.o_position o) as Hframe.
  { intros x o Hx. destruct (Hp x o Hx) as (o' & Hx' & Hv & _).
    exists o'. split; [done |]. unfold Heap.value in Hv. by injection Hv. }
  rewrite and_refines.
  destruct (match_by_scores σ (Heap.value oa) (Heap.value ob)) as [res |].
  - eexists (Some (length h)), _. split; [exact Hand |]. split.
    + intros x o Hx. destruct (Hframe x o Hx) as (o' & Hx' & Hbp).
      exists o'. split; [| done].
      rewrite lookup_app_l; [done | by eapply lookup_lt_Some].
    + split; [by apply lookup_ge_None |].
      apply lookup_lt_Some in Ha, Hb.
      split; [lia |]. split; [lia |]. exists res. split; [done |].
      rewrite <- Hlen. by rewrite list_lookup_middle.
  - exists None, h1. split; [exact Hand |]. split; [exact Hframe | done].
Qed.

(** ** What does not depend on the order of iteration *)

Lemma and_below_66 (σ : set_order) (self other : Scanner) :
  (half_index_sum self other < MIN_COMMON_DISTANCES)%Z →
  __and__ σ self other = Ok None.
Proof.
  intros Hlt. rewrite and_refines. unfold match_by_scores.
  by rewrite decide_True.
Qed.

Lemma accepts_whatever_order (C F : Scanner) :
  (MIN_COMMON_DISTANCES ≤ half_index_sum C F)%Z →
  every_reference_succeeds C F →
  ∀ σ, ∃ res, __and__ σ C F = Ok (Some res).
Proof.
  intros H66 Hall σ. rewrite and_refines. unfold match_by_scores.
  rewrite decide_False by lia.
  assert (shared_keys (distances C) (distances F) ≠ ∅) as Hne.
  { intros He. rewrite (half_index_sum_no_shared _ _ He) in H66. done. }
  destruct (choose_anchor_spec σ C F Hne)
    as (d & others & j & R & own & Hd & Hothers & Hj & HR & Hown & _ & ->).
  cbn [mbind option_bind].
  unfold every_reference_succeeds, set_Forall in Hall.
  specialize (Hall d Hd). cbv beta in Hall. rewrite Hothers, Hown in Hall.
  destruct (Hall j Hj) as (i & Hi & Hsucc).
  unfold anchor_succeeds in Hsucc. rewrite HR in Hsucc.
  destruct (first_success _ _) as [res |] eqn:Hfs; [by exists res |].
  rewrite first_success_None in Hfs.
  rewrite (Hfs i) in Hsucc; [by destruct Hsucc |].
  by rewrite (iter_own_pairs_perm σ), elem_of_elements.
Qed.

Lemma common_points_le_length (F C : list Point) : common_points F C ≤ length F.
Proof.
  unfold common_points. etrans; [| apply (size_list_to_set_le F)].
  apply subseteq_size. set_solver.
Qed.

(** ** The notebook's own test *)

Lemma while_to_position_turn (σ : set_order) (fuel : nat) (scanner : Scanner)
    (q P : list Scanner) :
  while_to_position σ (S fuel) (scanner :: q) P =
  match first_success (match_by_scores σ scanner) P with
  | Some placed => while_to_position σ fuel q (P ++ [placed])
  | None => while_to_position σ fuel (q ++ [scanner]) P
  end.
Proof.
  cbn [while_to_position]. rewrite loop_body_spec.
  by destruct (first_success _ _).
Qed.

Ltac driver_turn :=
  rewrite while_to_position_turn;
  match goal with
  | |- context [first_success ?f ?P] =>
      let v := eval vm_compute in (first_success f P) in
      replace (first_success f P) with v by (vm_compute; reflexivity)
  end;
  cbv beta iota; cbn [app].

Example test_map_is_solved :
  ∃ l, positioned_scanners elements_order 8 test_map = Some (Ok l) ∧
       position <$> l = [(0, 0, 0); (68, -1246, -43); (-92, -2380, -20);
                         (-20, -1133, 1061); (1105, -1205, 1229)]%Z ∧
       size (positioned_beacons l) = 79 ∧
       max_distance l = Ok 3621%Z.
Proof.
  eexists. split.
  - unfold positioned_scanners, test_map, from_clouds.
    cbn [scanners fmap list_fmap].
    repeat driver_turn. reflexivity.
  - split; [vm_compute; reflexivity |].
    split; vm_compute; reflexivity.
Qed.

(** ** Counterexamples and instances *)

(** C2, as stated, fails: the sum of the pre-filter is 3 for a cloud
    with three pairs at distance 1 against a cloud that consists of a
    single pair, so it is no lower bound on the point pairs the two
    clouds share, which are at most one. *)
Lemma prefilter_sum_exceeds_shared_pairs :
  half_index_sum (Scanner_default three_pairs) (Scanner_default one_pair) = 3%Z ∧
  shared_point_pairs (Scanner_default three_pairs) (Scanner_default one_pair) = 1%Z ∧
  length (pdist sqeuclidean one_pair) = 1 ∧
  ¬ (half_index_sum (Scanner_default three_pairs) (Scanner_default one_pair)
     ≤ shared_point_pairs (Scanner_default three_pairs) (Scanner_default one_pair))%Z.
Proof.
  assert (half_index_sum (Scanner_default three_pairs) (Scanner_default one_pair)
          = 3%Z) as H3 by (vm_compute; reflexivity).
  assert (shared_point_pairs (Scanner_default three_pairs) (Scanner_default one_pair)
          = 1%Z) as H1 by (vm_compute; reflexivity).
  split; [exact H3 |]. split; [exact H1 |]. split; [reflexivity |].
  rewrite H3, H1. lia.
Qed.

Lemma prefilter_rejects_below_66_witness :
  (half_index_sum (Scanner_default test_scanner_2) (Scanner_default test_scanner_0)
   < MIN_COMMON_DISTANCES)%Z ∧
  __and__ elements_order (Scanner_default test_scanner_2)
          (Scanner_default test_scanner_0) = Ok None.
Proof.
  assert (half_index_sum (Scanner_default test_scanner_2)
                         (Scanner_default test_scanner_0)
          < MIN_COMMON_DISTANCES)%Z as Hlt by (vm_compute; reflexivity).
  split; [exact Hlt |].
  exact (proj1 (proj2 (proj2
    (prefilter_rejects_below_66 elements_order _ _ Hlt)))).
Defined.

(** C3, as stated, fails: a cloud of two points and a cloud of six can
    have no 12 points in common, and on this input the driver returns
    nothing, neither a result nor an error, whatever the fuel and the
    order of iteration. *)
Lemma driver_never_returns_on_disconnected_input :
  (∀ M t, common_points one_pair (transform M t three_pairs) < 12) ∧
  ¬ ∃ σ fuel r,
      positioned_scanners σ fuel (from_clouds [one_pair; three_pairs]) = Some r.
Proof.
  split.
  - intros M t. pose proof (common_points_le_length one_pair (transform M t three_pairs)).
    cbn [one_pair length] in *. lia.
  - intros (σ & fuel & r & Hr).
    unfold positioned_scanners, from_clouds in Hr. cbn [scanners fmap list_fmap] in Hr.
    rewrite while_without_match_runs_on in Hr; [done | done |].
    intros c o Hc%list_elem_of_singleton Ho%list_elem_of_singleton. subst.
    apply and_below_66. vm_compute. reflexivity.
Qed.

Lemma driver_runs_forever_without_match_witness :
  turns elements_order 1 [Scanner_default three_pairs] [Scanner_default one_pair]
    = Some ([Scanner_default three_pairs], [Scanner_default one_pair]) ∧
  ∀ fuel, while_to_position elements_order fuel [Scanner_default three_pairs]
                            [Scanner_default one_pair] = None.
Proof.
  apply (driver_runs_forever_without_match elements_order
           [Scanner_default three_pairs] [Scanner_default one_pair]).
  - discriminate.
  - intros c o Hc%list_elem_of_singleton Ho%list_elem_of_singleton. subst.
    apply and_below_66. vm_compute. reflexivity.
Defined.

Lemma and_leaves_inputs_unchanged_witness :
  ∃ r h',
    Heap.__and__ elements_order 1 0
      [Heap.mkObject test_scanner_0 zeros3 None None;
       Heap.mkObject test_scanner_1 zeros3 None None] = Ok (r, h') ∧
    (Heap.o_beacons <$> h' !! 0 = Some test_scanner_0 ∧
     Heap.o_beacons <$> h' !! 1 = Some test_scanner_1) ∧
    is_Some r.
Proof.
  destruct (and_leaves_inputs_unchanged elements_order
              [Heap.mkObject test_scanner_0 zeros3 None None;
               Heap.mkObject test_scanner_1 zeros3 None None]
              1 0 _ _ eq_refl eq_refl)
    as (r & h' & Hand & Hframe & Hr).
  - split; intros ? Hcache; discriminate Hcache.
  - split; intros ? Hcache; discriminate Hcache.
  - exists r, h'. split; [exact Hand |]. split.
    + destruct (Hframe 0 _ eq_refl) as (o0 & H0 & Hb0 & _).
      destruct (Hframe 1 _ eq_refl) as (o1 & H1 & Hb1 & _).
      rewrite H0, H1. cbn [fmap option_fmap option_map]. rewrite Hb0, Hb1.
      split; reflexivity.
    + destruct r as [n |]; [exists n; reflexivity |].
      destruct Hr as [Hnone _]. exfalso.
      rewrite and_refines in Hnone. revert Hnone. vm_compute. discriminate.
Defined.

(** C1, as stated, fails: for eleven points listed twice against the
    same eleven points no orientation and no translation gives more than
    11 points in common, and the matcher accepts, whatever the order of
    iteration: it counts every place of the candidate that holds a point
    of the fixed cloud, 12 or more here. *)
Lemma accepted_with_eleven_points_in_common :
  (∀ M t, common_points eleven (transform M t eleven_twice) ≤ 11) ∧
  ∀ σ, ∃ res,
    __and__ σ (Scanner_default eleven_twice) (Scanner_default eleven) = Ok (Some res) ∧
    common_points eleven (beacons res) ≤ 11 ∧
    (12 ≤ coincidences eleven (beacons res))%Z.
Proof.
  split; [intros M t; apply common_points_le_length |].
  intros σ.
  destruct (accepts_whatever_order (Scanner_default eleven_twice)
              (Scanner_default eleven)) with (σ := σ) as [res Hres];
    [by_evaluation | by_evaluation |].
  exists res. split; [exact Hres |].
  split; [apply common_points_le_length |].
  apply and_Some_iff in Hres.
  apply match_by_scores_Some in Hres
    as (_ & d & others & j & R & own & i & c & k & M & _ & _ & _ & _ & _ & _
        & _ & _ & _ & H12 & _).
  exact H12.
Qed.

(** * Further properties of the code *)

(** ** The distance dict, entry by entry *)

Lemma distances_update_lookup (m : gmap Z (gset nat)) (d0 : Z) (i0 j0 : nat) (d : Z) :
  distances_update m (d0, (i0, j0)) !! d =
  if decide (d0 = d) then Some (default ∅ (m !! d0) ∪ {[i0; j0]}) else m !! d.
Proof.
  unfold distances_update.
  destruct (m !! d0) as [s |] eqn:Hd0; destruct (decide (d0 = d)) as [-> | Hne].
  - by rewrite lookup_insert_eq.
  - by rewrite lookup_insert_ne.
  - rewrite lookup_insert_eq. cbn. f_equal. set_solver.
  - by rewrite lookup_insert_ne.
Qed.

Lemma distances_fold_lookup (L : list (Z * (nat * nat))) :
  ∀ (m : gmap Z (gset nat)) (d : Z),
    (is_Some (foldl distances_update m L !! d)
     ↔ is_Some (m !! d) ∨ ∃ e, e ∈ L ∧ e.1 = d) ∧
    (∀ i, i ∈ default ∅ (foldl distances_update m L !! d)
          ↔ i ∈ default ∅ (m !! d) ∨ ∃ e, e ∈ L ∧ e.1 = d ∧ (i = e.2.1 ∨ i = e.2.2)).
Proof.
  induction L as [| [d0 [i0 j0]] L IH]; intros m d; cbn [foldl].
  - split.
    + split; [by left | intros [H | (e & He & _)]; [done | inversion He]].
    + intros i. split; [by left | intros [H | (e & He & _)]; [done | inversion He]].
  - destruct (IH (distances_update m (d0, (i0, j0))) d) as [IH1 IH2].
    rewrite distances_update_lookup in IH1, IH2. split.
    + rewrite IH1. destruct (decide (d0 = d)) as [-> | Hne].
      * split; [intros _ | intros _; left; eauto].
        right. exists (d, (i0, j0)). split; [apply list_elem_of_here | done].
      * split.
        -- intros [H | (e & He & Hd)]; [by left |].
           right. exists e. split; [by apply list_elem_of_further | done].
        -- intros [H | (e & He & Hd)]; [by left |].
           apply elem_of_cons in He as [-> | He]; [done |]. right. eauto.
    + intros i. rewrite IH2. destruct (decide (d0 = d)) as [-> | Hne].
      * cbn [from_option]. unfold id at 1. rewrite elem_of_union, elem_of_union, !elem_of_singleton. split.
        -- intros [[H | [-> | ->]] | (e & He & Hd & Hi)].
           ++ by left.
           ++ right. exists (d, (i0, j0)). split; [apply list_elem_of_here | auto].
           ++ right. exists (d, (i0, j0)). split; [apply list_elem_of_here | auto].
           ++ right. exists e. split; [by apply list_elem_of_further | done].
        -- intros [H | (e & He & Hd & Hi)]; [by left; left |].
           apply elem_of_cons in He as [-> | He].
           ++ left. right. cbn in Hi. destruct Hi; auto.
           ++ right. eauto.
      * split.
        -- intros [H | (e & He & Hd & Hi)]; [by left |].
           right. exists e. split; [by apply list_elem_of_further | done].
        -- intros [H | (e & He & Hd & Hi)]; [by left |].
           apply elem_of_cons in He as [-> | He]; [done |]. right. eauto.
Qed.

Lemma zip_pdist_combinations_elem_of (metric : Point → Point → Z) (X : list Point) :
  ∀ (k : nat) (d : Z) (i j : nat),
    (d, (i, j)) ∈ zip (pdist metric X) (combinations2 (seq k (length X))) ↔
    ∃ a c, k ≤ i ∧ i < j ∧ X !! (i - k) = Some a ∧ X !! (j - k) = Some c ∧
           d = metric a c.
Proof.
  induction X as [| p X IH]; intros k d i j.
  - cbn. split; [intros H; inversion H | intros (a & c & _ & _ & H & _); done].
  - cbn [length seq pdist combinations2].
    rewrite zip_with_app by (by rewrite !length_fmap, length_seq).
    rewrite elem_of_app.
    rewrite IH, zip_with_fmap_l, zip_with_fmap_r, elem_of_lookup_zip_with. split.
    + intros [(n & q & j' & [= -> -> ->] & Hq & Hj') | (a & c & Hk & Hij & Ha & Hc & ->)].
      * apply lookup_seq in Hj' as [-> Hn]. exists p, q.
        split; [lia |]. split; [lia |]. rewrite Nat.sub_diag. split; [done |].
        replace (S k + n - k) with (S n) by lia. done.
      * exists a, c. split; [lia |]. split; [done |].
        replace (i - k) with (S (i - S k)) by lia.
        replace (j - k) with (S (j - S k)) by lia. done.
    + intros (a & c & Hk & Hij & Ha & Hc & ->).
      destruct (decide (i = k)) as [-> | Hne].
      * left. rewrite Nat.sub_diag in Ha. injection Ha as <-.
        replace (j - k) with (S (j - S k)) in Hc by lia. cbn in Hc.
        exists (j - S k), c, j. split; [done |]. split; [done |].
        apply lookup_seq. split; [lia |]. by eapply lookup_lt_Some.
      * right. exists a, c. split; [lia |]. split; [done |].
        replace (i - k) with (S (i - S k)) in Ha by lia.
        replace (j - k) with (S (j - S k)) in Hc by lia. done.
Qed.

Lemma sqeuclidean_sym (p q : Point) : sqeuclidean p q = sqeuclidean q p.
Proof. unfold sqeuclidean. ring. Qed.

Lemma distances_of_is_Some (b : list Point) (d : Z) :
  is_Some (distances_of b !! d) ↔
  ∃ i j a c, i < j ∧ b !! i = Some a ∧ b !! j = Some c ∧ sqeuclidean a c = d.
Proof.
  unfold distances_of.
  destruct (distances_fold_lookup
              (zip (pdist sqeuclidean b) (combinations2 (seq 0 (length b)))) ∅ d)
    as [-> _].
  rewrite lookup_empty. split.
  - intros [[? [=]] | ([d' [i j]] & He & Hd)]. cbn in Hd. subst d'.
    apply zip_pdist_combinations_elem_of in He as (a & c & _ & Hij & Ha & Hc & ->).
    rewrite Nat.sub_0_r in Ha, Hc. exists i, j, a, c. done.
  - intros (i & j & a & c & Hij & Ha & Hc & <-). right.
    exists (sqeuclidean a c, (i, j)). split; [| done].
    apply zip_pdist_combinations_elem_of. exists a, c. rewrite !Nat.sub_0_r.
    repeat split; [lia | done..].
Qed.

Lemma distances_of_elem_of (b : list Point) (d : Z) (i : nat) :
  i ∈ default ∅ (distances_of b !! d) ↔
  ∃ j a c, j ≠ i ∧ b !! i = Some a ∧ b !! j = Some c ∧ sqeuclidean a c = d.
Proof.
  unfold distances_of.
  destruct (distances_fold_lookup
              (zip (pdist sqeuclidean b) (combinations2 (seq 0 (length b)))) ∅ d)
    as [_ ->].
  rewrite lookup_empty. cbn [from_option]. split.
  - intros [H | ([d' [i' j']] & He & Hd & Hi)]; [set_solver |]. cbn in Hd, Hi. subst d'.
    apply zip_pdist_combinations_elem_of in He as (a & c & _ & Hij & Ha & Hc & ->).
    rewrite Nat.sub_0_r in Ha, Hc. destruct Hi as [-> | ->].
    + exists j', a, c. repeat split; [lia | done..].
    + exists i', c, a. repeat split; [lia | done.. | apply sqeuclidean_sym].
  - intros (j & a & c & Hne & Ha & Hc & <-). right.
    destruct (decide (i < j)) as [Hlt | Hge].
    + exists (sqeuclidean a c, (i, j)). cbn. split; [| auto].
      apply zip_pdist_combinations_elem_of. exists a, c. rewrite !Nat.sub_0_r.
      repeat split; [lia | done..].
    + exists (sqeuclidean a c, (j, i)). cbn. split; [| auto].
      apply zip_pdist_combinations_elem_of. exists c, a. rewrite !Nat.sub_0_r.
      repeat split; [lia | lia | done.. | apply sqeuclidean_sym].
Qed.

Lemma distances_of_size (b : list Point) (d : Z) (ixs : gset nat) :
  distances_of b !! d = Some ixs → 2 ≤ size ixs.
Proof.
  intros Hl.
  assert (is_Some (distances_of b !! d)) as Hs by eauto.
  apply distances_of_is_Some in Hs as (i & j & a & c & Hij & Ha & Hc & Hd).
  assert (i ∈ ixs) as Hi.
  { pose proof (distances_of_elem_of b d i) as H. rewrite Hl in H. cbn in H.
    apply H. exists j, a, c. repeat split; [lia | done..]. }
  assert (j ∈ ixs) as Hj.
  { pose proof (distances_of_elem_of b d j) as H. rewrite Hl in H. cbn in H.
    apply H. exists i, c, a. repeat split; [lia | done.. |].
    by rewrite sqeuclidean_sym. }
  assert (size ({[i]} ∪ {[j]} : gset nat) = 2) as H2.
  { assert (i ≠ j) as Hne by lia.
    rewrite size_union by set_solver. by rewrite !size_singleton. }
  rewrite <- H2. apply subseteq_size. set_solver.
Qed.

(** X1.  The distance dict has an entry at [d] exactly when two beacons
    of the cloud are at (squared) distance [d]; the index set of that
    entry holds exactly the indices of the beacons that are an end of
    such a pair, hence at least two; the dict is empty exactly for a
    cloud of fewer than two beacons. *)
Theorem distances_holds_the_ends_of_every_pair (self : Scanner) (d : Z) :
  (is_Some (distances self !! d) ↔
   ∃ i j a c, i < j ∧ beacons self !! i = Some a ∧ beacons self !! j = Some c ∧
              sqeuclidean a c = d) ∧
  (∀ ixs, distances self !! d = Some ixs →
     2 ≤ size ixs ∧
     ∀ i, i ∈ ixs ↔
          ∃ j a c, j ≠ i ∧ beacons self !! i = Some a ∧ beacons self !! j = Some c ∧
                   sqeuclidean a c = d) ∧
  (distances self = ∅ ↔ length (beacons self) < 2).
Proof.
  unfold distances. split; [apply distances_of_is_Some |]. split.
  - intros ixs Hl. split; [by eapply distances_of_size |].
    intros i. pose proof (distances_of_elem_of (beacons self) d i) as H.
    by rewrite Hl in H.
  - split.
    + intros He. destruct (beacons self) as [| a [| c l]] eqn:Hb; cbn; [lia | lia |].
      exfalso.
      assert (is_Some (distances_of (a :: c :: l) !! sqeuclidean a c)) as [x Hx].
      { apply distances_of_is_Some. exists 0, 1, a, c. repeat split; done || lia. }
      rewrite He in Hx. by rewrite lookup_empty in Hx.
    + intros Hlen. apply map_eq. intros d'. rewrite lookup_empty.
      apply eq_None_not_Some. intros (i & j & a & c & Hij & Ha & Hc & _)%distances_of_is_Some.
      apply lookup_lt_Some in Hc. lia.
Qed.

Lemma sum_list_Z_ge_length {A} (f : A → Z) (l : list A) :
  (∀ a, a ∈ l → (1 ≤ f a)%Z) → (Z.of_nat (length l) ≤ Np.sum_list_Z (f <$> l))%Z.
Proof.
  unfold Np.sum_list_Z. induction l as [| a l IH]; intros Hf; [done |].
  rewrite fmap_cons. cbn [foldr length].
  pose proof (Hf a (list_elem_of_here _ _)).
  assert (∀ a', a' ∈ l → (1 ≤ f a')%Z) as Hl
    by (intros a' Ha'; apply Hf; by apply list_elem_of_further).
  specialize (IH Hl). lia.
Qed.

Lemma shared_le_half_index_sum (self other : Scanner) :
  (Z.of_nat (size (shared_keys (distances self) (distances other)))
   ≤ half_index_sum self other)%Z.
Proof.
  unfold half_index_sum.
  set (sh := shared_keys (distances self) (distances other)).
  change (size sh) with (length (elements sh)).
  apply sum_list_Z_ge_length.
  intros d Hd. apply elem_of_elements, shared_keys_lookup in Hd as [[ixs Hixs] _].
  rewrite Hixs. change (default ∅ (Some ixs)) with ixs.
  pose proof (distances_of_size _ _ _ Hixs) as H2.
  apply Z.div_le_lower_bound; lia.
Qed.

(** X2.  Every shared distance adds at least 1 to the sum of the
    pre-filter, so the sum is at least the number of shared distances:
    with 66 shared distances the pre-filter lets the pair through and
    the matcher goes on to pick an anchor. *)
Theorem prefilter_passes_on_66_shared_distances (σ : set_order) (self other : Scanner) :
  (Z.of_nat (size (shared_keys (distances self) (distances other)))
   ≤ half_index_sum self other)%Z ∧
  (66 ≤ size (shared_keys (distances self) (distances other)) →
   __and__ σ self other
   = search σ self other (distances self) (distances other)
            (shared_keys (distances self) (distances other)) (orientations self)).
Proof.
  pose proof (shared_le_half_index_sum self other) as Hle.
  split; [exact Hle |]. intros H66.
  unfold __and__. rewrite prefilter_sum_spec, bind_Ok.
  rewrite bool_decide_eq_false_2; [done |].
  unfold MIN_COMMON_DISTANCES, MIN_BEACONS_IN_COMMON.
  change ((12 * (12 - 1)) `div` 2)%Z with 66%Z. lia.
Qed.

(** ** The stacked array of one anchor *)

Lemma offsets_of_anchor (b : list Point) (R c : Point) (i : nat) :
  b !! i = Some c →
  mapM_outcome (λ o, p ← getitem o i; Ok (vsub R p)) (orientations_of b)
  = Ok ((λ M, vsub R (rotate M c)) <$> ROTATIONS).
Proof.
  intros Hi. unfold orientations_of. generalize ROTATIONS as Ms.
  induction Ms as [| M Ms IH]; [reflexivity |].
  rewrite !fmap_cons. cbn [mapM_outcome].
  rewrite (getitem_Some (rotate M <$> b) i (rotate M c))
    by (by rewrite list_lookup_fmap, Hi).
  rewrite !bind_Ok, IH. reflexivity.
Qed.

Lemma repositioned_of_anchor (b : list Point) (R c : Point) :
  zip_with (λ o off, (λ p, vadd p off) <$> o) (orientations_of b)
           ((λ M, vsub R (rotate M c)) <$> ROTATIONS)
  = (λ M, anchored M R c b) <$> ROTATIONS.
Proof.
  unfold orientations_of. rewrite zip_with_fmap_l, zip_with_fmap_r, zip_with_diag.
  apply list_fmap_ext. intros _ M _. unfold anchored, transform.
  by rewrite <- list_fmap_compose.
Qed.

Lemma length_unique_stacked (F : list Point) (R : Point) (n : nat)
    (reps : list (list Point)) :
  R ∈ F → Forall (λ l, R ∈ l ∧ length l = n) reps →
  length (np_unique (F ++ mjoin reps)).1 + length reps ≤ length F + length reps * n.
Proof.
  intros HR Hreps. unfold np_unique. cbn [fst].
  rewrite merge_sort_Permutation.
  pose proof (length_remove_dups_occurrences R (F ++ mjoin reps)) as Hocc.
  rewrite decide_True in Hocc by (apply elem_of_app; by left).
  rewrite filter_app, !length_app in Hocc.
  rewrite (length_join_uniform n) in Hocc
    by (eapply Forall_impl; [exact Hreps |]; by intros l [_ Hl]).
  assert (0 < length (filter (λ y, y = R) F)) as HF.
  { assert (R ∈ filter (λ y, y = R) F) as Hin by (by apply list_elem_of_filter).
    destruct (filter (λ y, y = R) F); [inversion Hin | cbn; lia]. }
  assert (length reps ≤ length (filter (λ y, y = R) (mjoin reps))) as Hj.
  { apply filter_join_ge. eapply Forall_impl; [exact Hreps |].
    intros l [Hl _]. cbn. eauto. }
  lia.
Qed.

(** X3.  For an anchor [i] of the candidate and a reference taken from
    the other cloud, every one of the 24 repositioned variants has the
    reference at place [i]; the stacked array therefore has at least 24
    rows fewer distinct values than rows, and the test
    [values.shape[0] > nsr + nob - 12] is never true: its [continue] is
    never taken. *)
Theorem unique_count_test_never_fires (self other : Scanner) (R : Point) (i : nat) :
  R ∈ beacons other → i < length (beacons self) →
  ∃ offsets,
    mapM_outcome (λ o, p ← getitem o i; Ok (vsub R p)) (orientations self)
    = Ok offsets ∧
    let repositioned :=
      zip_with (λ o off, (λ p, vadd p off) <$> o) (orientations self) offsets in
    let values := (np_unique (beacons other ++ mjoin repositioned)).1 in
    Forall (λ cloud, cloud !! i = Some R) repositioned ∧
    length values + 24 ≤ length (beacons self) * NOR + length (beacons other) ∧
    bool_decide (Z.of_nat (length (beacons self) * NOR)
                 + Z.of_nat (length (beacons other)) - 12
                 < Z.of_nat (length values))%Z = false.
Proof.
  intros HR Hi. apply lookup_lt_is_Some_2 in Hi as [c Hc].
  eexists. split; [apply (offsets_of_anchor _ R c i Hc) |].
  cbv zeta. unfold orientations. rewrite repositioned_of_anchor.
  set (reps := (λ M, anchored M R c (beacons self)) <$> ROTATIONS).
  assert (Forall (λ cloud, cloud !! i = Some R) reps) as Hat.
  { subst reps. apply Forall_fmap, Forall_forall. intros M _. cbn.
    by apply anchored_lookup. }
  assert (length reps = 24) as Hreps by (subst reps; by rewrite length_fmap).
  pose proof (length_unique_stacked (beacons other) R (length (beacons self)) reps HR)
    as Hlen.
  rewrite Hreps in Hlen. change NOR with 24.
  assert (length (np_unique (beacons other ++ mjoin reps)).1 + 24
          ≤ length (beacons self) * 24 + length (beacons other)) as Hle.
  { rewrite (Nat.mul_comm (length (beacons self))), (Nat.add_comm _ (length (beacons other))).
    apply Hlen. subst reps. apply Forall_fmap, Forall_forall. intros M _. cbn.
    split; [eapply list_elem_of_lookup_2, anchored_lookup, Hc |].
    unfold anchored, transform. apply length_fmap. }
  split; [exact Hat |]. split; [exact Hle |].
  apply bool_decide_eq_false_2. lia.
Qed.

Lemma unique_count_test_never_fires_witness :
  ∃ offsets,
    mapM_outcome (λ o, p ← getitem o 1; Ok (vsub (0, 0, 0)%Z p))
                 (orientations (Scanner_default three_pairs))
    = Ok offsets ∧
    let repositioned :=
      zip_with (λ o off, (λ p, vadd p off) <$> o)
               (orientations (Scanner_default three_pairs)) offsets in
    let values := (np_unique (one_pair ++ mjoin repositioned)).1 in
    Forall (λ cloud, cloud !! 1 = Some (0, 0, 0)%Z) repositioned ∧
    length values + 24 ≤ 6 * NOR + 2 ∧
    bool_decide (Z.of_nat (6 * NOR) + Z.of_nat 2 - 12 < Z.of_nat (length values))%Z
    = false.
Proof.
  apply (unique_count_test_never_fires (Scanner_default three_pairs)
           (Scanner_default one_pair) (0, 0, 0)%Z 1).
  - apply list_elem_of_here.
  - cbn. lia.
Defined.

(** ** The counts of the orientations *)

(** X4.  [np.unique] with its inverse index gives back every row of the
    stacked array, and the product of the two membership matrices,
    summed by row and then by variant, is for every variant the number
    of its places that hold a point of the other cloud, every place of
    the other cloud that holds that point counted. *)
Theorem counts_are_coincidences (F : list Point) (n : nat) (reps : list (list Point)) :
  0 < n → Forall (λ l, length l = n) reps →
  let stacked := F ++ mjoin reps in
  let values := (np_unique stacked).1 in
  let ix := (np_unique stacked).2 in
  let obvmembers := membership (length values) (take (length F) ix) in
  let rvmembers := membership (length values) (drop (length F) ix) in
  (∀ k p, stacked !! k = Some p → (ix !! k ≫= λ v, values !! v) = Some p) ∧
  reshape_sum n (product_T_sum obvmembers rvmembers) = coincidences F <$> reps.
Proof.
  intros Hn Hlen. cbv zeta. unfold np_unique. cbn [fst snd].
  set (stacked := F ++ mjoin reps).
  set (values := merge_sort point_le (remove_dups stacked)).
  assert (∀ p, p ∈ values ↔ p ∈ stacked) as Hvalues.
  { intros p. subst values. by rewrite merge_sort_Permutation, elem_of_remove_dups. }
  split.
  - intros k p Hk. rewrite list_lookup_fmap, Hk. cbn.
    assert (p ∈ values) as Hp by (apply Hvalues; by eapply list_elem_of_lookup_2).
    clear -Hp. induction values as [| y l IH]; [inversion Hp |].
    cbn [index_of]. destruct (decide (p = y)) as [-> | Hne]; [done |].
    apply elem_of_cons in Hp as [? | Hp]; [done |]. cbn. auto.
  - assert ((λ r, index_of r values) <$> stacked
            = ((λ r, index_of r values) <$> F)
              ++ ((λ r, index_of r values) <$> mjoin reps))
      as -> by apply fmap_app.
    rewrite take_app_length', drop_app_length' by (by rewrite length_fmap).
    rewrite product_T_sum_membership; cycle 1.
    { intros p Hp. apply Hvalues, elem_of_app. by left. }
    { intros p Hp. apply Hvalues, elem_of_app. by right. }
    rewrite fmap_join_list, reshape_sum_join; [| done |]; cycle 1.
    { apply Forall_fmap. eapply Forall_impl; [exact Hlen |].
      intros l Hl. cbn. by rewrite length_fmap. }
    rewrite <- list_fmap_compose. reflexivity.
Qed.

Lemma counts_are_coincidences_witness :
  let F := one_pair in
  let reps := [[(0, 0, 0); (5, 5, 5)]; [(1, 0, 0); (0, 0, 0)]]%Z in
  let stacked := F ++ mjoin reps in
  let values := (np_unique stacked).1 in
  let ix := (np_unique stacked).2 in
  let obvmembers := membership (length values) (take (length F) ix) in
  let rvmembers := membership (length values) (drop (length F) ix) in
  (∀ k p, stacked !! k = Some p → (ix !! k ≫= λ v, values !! v) = Some p) ∧
  reshape_sum 2 (product_T_sum obvmembers rvmembers) = coincidences F <$> reps.
Proof.
  apply (counts_are_coincidences one_pair 2
           [[(0, 0, 0); (5, 5, 5)]; [(1, 0, 0); (0, 0, 0)]]%Z).
  - lia.
  - repeat constructor.
Defined.

(** ** Ties between orientations *)

Lemma argmax_from_first (l : list Z) :
  ∀ (best : Z) (besti i : nat) (pre : list Z),
    length pre = i → besti < i → pre !! besti = Some best →
    (∀ x, x ∈ pre → (x ≤ best)%Z) →
    (∀ k x, k < besti → pre !! k = Some x → (x < best)%Z) →
    ∃ m, (pre ++ l) !! Np.argmax_from best besti i l = Some m ∧
         (∀ x, x ∈ pre ++ l → (x ≤ m)%Z) ∧
         ∀ k x, k < Np.argmax_from best besti i l → (pre ++ l) !! k = Some x → (x < m)%Z.
Proof.
  induction l as [| x l IH]; intros best besti i pre Hlen Hlt Hbest Hmax Hfirst;
    cbn [Np.argmax_from].
  - exists best. rewrite app_nil_r. done.
  - destruct (Z.ltb_spec best x) as [Hx | Hx].
    + specialize (IH x i (S i) (pre ++ [x])).
      rewrite <- app_assoc in IH. cbn [app] in IH. apply IH.
      * rewrite length_app. cbn. lia.
      * lia.
      * rewrite lookup_app_r by lia. by replace (i - length pre) with 0 by lia.
      * intros y [Hy | Hy%list_elem_of_singleton]%elem_of_app;
          [specialize (Hmax y Hy) |]; lia.
      * intros k y Hk Hy. rewrite lookup_app_l in Hy by lia.
        apply list_elem_of_lookup_2 in Hy. specialize (Hmax y Hy). lia.
    + specialize (IH best besti (S i) (pre ++ [x])).
      rewrite <- app_assoc in IH. cbn [app] in IH. apply IH.
      * rewrite length_app. cbn. lia.
      * lia.
      * rewrite lookup_app_l by lia. done.
      * intros y [Hy | Hy%list_elem_of_singleton]%elem_of_app;
          [specialize (Hmax y Hy) |]; lia.
      * intros k y Hk Hy. rewrite lookup_app_l in Hy by lia. eauto.
Qed.

Lemma argmax_first (l : list Z) :
  l ≠ [] →
  ∃ m, l !! Np.argmax l = Some m ∧ (∀ x, x ∈ l → (x ≤ m)%Z) ∧
       ∀ k x, k < Np.argmax l → l !! k = Some x → (x < m)%Z.
Proof.
  destruct l as [| x l]; [done |]. intros _. unfold Np.argmax.
  apply (argmax_from_first l x 0 1 [x]); [done | lia | done | | lia].
  intros y Hy%list_elem_of_singleton. lia.
Qed.

(** X5.  One turn of the loop over the candidate's index set never
    raises.  When it yields a scanner, the orientation is the first one
    of the table with the largest count: every earlier orientation has
    strictly fewer coincidences.  When it yields none, no orientation
    reaches 12. *)
Theorem ties_go_to_the_first_orientation (C F : Scanner) (R c : Point) (i : nat) :
  R ∈ beacons F → beacons C !! i = Some c →
  match try_anchor (orientations C) (length (beacons C)) (beacons F) R i with
  | Ok (Some res) =>
      ∃ k M, ROTATIONS !! k = Some M ∧
        beacons res = transform M (vsub R (rotate M c)) (beacons C) ∧
        (∀ k' M', ROTATIONS !! k' = Some M' →
           (coincidences (beacons F) (transform M' (vsub R (rotate M' c)) (beacons C))
            ≤ coincidences (beacons F) (beacons res))%Z) ∧
        (∀ k' M', k' < k → ROTATIONS !! k' = Some M' →
           (coincidences (beacons F) (transform M' (vsub R (rotate M' c)) (beacons C))
            < coincidences (beacons F) (beacons res))%Z)
  | Ok None =>
      ∀ M, M ∈ ROTATIONS →
        (coincidences (beacons F) (transform M (vsub R (rotate M c)) (beacons C))
         < MIN_BEACONS_IN_COMMON)%Z
  | Raise _ => False
  end.
Proof.
  intros HR Hc. unfold orientations.
  rewrite (try_anchor_spec (beacons C) (beacons F) R c i Hc HR).
  set (sc := scores (beacons F) R c (beacons C)).
  destruct (decide (Exists (λ s, (MIN_BEACONS_IN_COMMON ≤ s)%Z) sc)) as [Hex | Hnex].
  - destruct (argmax_first sc) as (m & Hm & Hmax & Hfirst).
    { intros Hnil. pose proof (scores_length (beacons F) R c (beacons C)) as Hl.
      fold sc in Hl. by rewrite Hnil in Hl. }
    subst sc. rewrite scores_lookup in Hm.
    destruct (ROTATIONS !! Np.argmax _) as [M |] eqn:HM; [| done].
    cbn in Hm. injection Hm as <-. cbn [fmap option_fmap option_map].
    exists (Np.argmax (scores (beacons F) R c (beacons C))), M.
    cbn [beacons]. unfold anchored. repeat split; [done | |].
    + intros k' M' HM'. apply Hmax. apply scores_elem_of. exists M'.
      split; [by eapply list_elem_of_lookup_2 | done].
    + intros k' M' Hk HM'. apply (Hfirst k'); [done |].
      by rewrite scores_lookup, HM'.
  - intros M HM. apply Z.lt_nge. intros Hge. apply Hnex, Exists_exists.
    eexists. split; [apply scores_elem_of; eauto | done].
Qed.

Lemma ties_go_to_the_first_orientation_witness :
  match try_anchor (orientations (Scanner_default twisted12)) 12 twisted12
                   (0, 0, 0)%Z 0 with
  | Ok (Some res) =>
      ∃ k M, ROTATIONS !! k = Some M ∧
        beacons res = transform M (vsub (0, 0, 0)%Z (rotate M (0, 0, 0)%Z)) twisted12 ∧
        (∀ k' M', ROTATIONS !! k' = Some M' →
           (coincidences twisted12
              (transform M' (vsub (0, 0, 0)%Z (rotate M' (0, 0, 0)%Z)) twisted12)
            ≤ coincidences twisted12 (beacons res))%Z) ∧
        (∀ k' M', k' < k → ROTATIONS !! k' = Some M' →
           (coincidences twisted12
              (transform M' (vsub (0, 0, 0)%Z (rotate M' (0, 0, 0)%Z)) twisted12)
            < coincidences twisted12 (beacons res))%Z)
  | Ok None =>
      ∀ M, M ∈ ROTATIONS →
        (coincidences twisted12
           (transform M (vsub (0, 0, 0)%Z (rotate M (0, 0, 0)%Z)) twisted12)
         < MIN_BEACONS_IN_COMMON)%Z
  | Raise _ => False
  end.
Proof.
  apply (ties_go_to_the_first_orientation (Scanner_default twisted12)
           (Scanner_default twisted12) (0, 0, 0)%Z (0, 0, 0)%Z 0).
  - apply list_elem_of_here.
  - reflexivity.
Defined.

(** ** What a placed scanner keeps *)

(** X6.  For a candidate with [int16] coordinates and a fixed cloud
    with coordinates of at most 2^23 in absolute value, so that the
    float64 distances of [pdist] are exact: a scanner returned by the
    matcher has coordinates of at most 2^24, as many beacons as the
    candidate, the same list of pairwise distances and the same
    distance dict; matched against any further cloud it shares the same
    distances and gets the same pre-filter sum as the candidate. *)
Theorem placed_scanner_keeps_its_distances (σ : set_order) (C F : Scanner) :
  Forall (within (2 ^ 15)) (beacons C) → Forall (within (2 ^ 23)) (beacons F) →
  match __and__ σ C F with
  | Ok (Some res) =>
      Forall (within (2 ^ 24)) (beacons res) ∧
      length (beacons res) = length (beacons C) ∧
      pdist sqeuclidean (beacons res) = pdist sqeuclidean (beacons C) ∧
      distances res = distances C ∧
      ∀ G, shared_keys (distances res) (distances G)
           = shared_keys (distances C) (distances G) ∧
           half_index_sum res G = half_index_sum C G
  | _ => True
  end.
Proof.
  intros HC HF.
  destruct (__and__ σ C F) as [[res |] |] eqn:Hand; [| done..].
  destruct (placed_within σ C F res _ Hand HC HF) as [Hin _].
  apply and_Some_iff in Hand.
  apply match_by_scores_Some in Hand
    as (_ & d & others & j & R & own & i & c & k & M & _ & _ & _ & _ & _ & _
        & HM & Hb & _).
  apply list_elem_of_lookup_2 in HM.
  pose proof rotate_translate_isometry as Hiso. rewrite Forall_forall in Hiso.
  specialize (Hiso M HM). cbv beta in Hiso.
  assert (pdist sqeuclidean (beacons res) = pdist sqeuclidean (beacons C)) as Hp.
  { rewrite Hb. unfold transform.
    apply (pdist_map sqeuclidean (λ p, vadd (rotate M p) (vsub R (rotate M c)))).
    intros p q. apply Hiso. }
  assert (length (beacons res) = length (beacons C)) as Hl.
  { rewrite Hb. unfold transform. apply length_fmap. }
  assert (distances res = distances C) as Hd.
  { unfold distances, distances_of. by rewrite Hp, Hl. }
  split.
  { eapply Forall_impl; [exact Hin |]. intros p. unfold within. lia. }
  repeat split; try done.
  - by rewrite Hd.
  - unfold half_index_sum. by rewrite Hd.
Qed.

Lemma placed_scanner_keeps_its_distances_witness :
  match __and__ elements_order (Scanner_default twisted12_elsewhere)
                (Scanner_default twisted12) with
  | Ok (Some res) =>
      Forall (within (2 ^ 24)) (beacons res) ∧
      length (beacons res) = length twisted12_elsewhere ∧
      pdist sqeuclidean (beacons res) = pdist sqeuclidean twisted12_elsewhere ∧
      distances res = distances (Scanner_default twisted12_elsewhere) ∧
      ∀ G, shared_keys (distances res) (distances G)
           = shared_keys (distances (Scanner_default twisted12_elsewhere)) (distances G) ∧
           half_index_sum res G = half_index_sum (Scanner_default twisted12_elsewhere) G
  | _ => True
  end.
Proof.
  apply (placed_scanner_keeps_its_distances elements_order
           (Scanner_default twisted12_elsewhere) (Scanner_default twisted12)).
  - apply (bool_decide_unpack _). vm_compute. exact I.
  - apply (bool_decide_unpack _). vm_compute. exact I.
Defined.

(** ** Clouds that are too small *)

Lemma occurrences_cons (p : Point) (C : list Point) (q : Point) :
  occurrences (p :: C) q = ((if decide (p = q) then 1 else 0) + occurrences C q)%Z.
Proof.
  unfold occurrences. rewrite filter_cons.
  destruct (decide (p = q)); cbn [length]; lia.
Qed.

Lemma coincidences_sym (F C : list Point) : coincidences F C = coincidences C F.
Proof.
  unfold coincidences, Np.sum_list_Z.
  induction C as [| p C IH].
  - cbn. induction F as [| q F IHF]; [done |]. rewrite fmap_cons. cbn [foldr].
    rewrite <- IHF. unfold occurrences. rewrite filter_nil. done.
  - rewrite fmap_cons. cbn [foldr]. rewrite IH. clear IH.
    induction F as [| q F IHF].
    + cbn. unfold occurrences. by rewrite filter_nil.
    + rewrite !fmap_cons. cbn [foldr]. rewrite <- IHF.
      rewrite (occurrences_cons q F p), (occurrences_cons p C q).
      destruct (decide (q = p)), (decide (p = q)); try congruence; lia.
Qed.

Lemma coincidences_le_length (F C : list Point) :
  NoDup F → (coincidences F C ≤ Z.of_nat (length C))%Z.
Proof.
  intros HF. rewrite (coincidences_NoDup_filter F C HF).
  pose proof (length_filter (λ p, p ∈ F) C). lia.
Qed.

Lemma and_no_shared (σ : set_order) (C F : Scanner) :
  shared_keys (distances C) (distances F) = ∅ → __and__ σ C F = Ok None.
Proof.
  intros He. apply and_below_66. by rewrite (half_index_sum_no_shared _ _ He).
Qed.

(** X7.  The matcher returns [None] when either cloud has fewer than
    two beacons (no distance is shared, nothing is raised), when the
    candidate has fewer than 12 beacons and the other cloud has no
    repeated point, and when the other cloud has fewer than 12 beacons
    and the candidate has no repeated point. *)
Theorem small_clouds_never_match (σ : set_order) (C F : Scanner) :
  (length (beacons C) < 2 ∨ length (beacons F) < 2 → __and__ σ C F = Ok None) ∧
  (NoDup (beacons F) → length (beacons C) < 12 → __and__ σ C F = Ok None) ∧
  (NoDup (beacons C) → length (beacons F) < 12 → __and__ σ C F = Ok None).
Proof.
  split; [| split].
  - intros Hsmall. apply and_no_shared. apply set_eq. intros d.
    rewrite shared_keys_lookup. split; [| set_solver].
    unfold distances. rewrite !distances_of_is_Some.
    intros [(i & j & a & c & Hij & _ & Hc%lookup_lt_Some & _)
            (i' & j' & a' & c' & Hij' & _ & Hc'%lookup_lt_Some & _)]. lia.
  - intros HF Hlen. rewrite and_refines.
    destruct (match_by_scores σ C F) as [res |] eqn:Hres; [| done].
    apply match_by_scores_Some in Hres
      as (_ & d & others & j & R & own & i & c & k & M & _ & _ & _ & _ & _ & _
          & _ & Hb & _ & H12 & _).
    pose proof (coincidences_le_length (beacons F) (beacons res) HF) as Hle.
    rewrite Hb in Hle at 2. unfold transform in Hle. rewrite length_fmap in Hle.
    unfold MIN_BEACONS_IN_COMMON in H12. lia.
  - intros HC Hlen. rewrite and_refines.
    destruct (match_by_scores σ C F) as [res |] eqn:Hres; [| done].
    apply match_by_scores_Some in Hres
      as (_ & d & others & j & R & own & i & c & k & M & _ & _ & _ & _ & _ & _
          & HM & Hb & _ & H12 & _).
    apply list_elem_of_lookup_2 in HM.
    assert (NoDup (beacons res)) as Hres by (rewrite Hb; by apply transform_NoDup).
    rewrite coincidences_sym in H12.
    pose proof (coincidences_le_length (beacons res) (beacons F) Hres) as Hle.
    unfold MIN_BEACONS_IN_COMMON in H12. lia.
Qed.

Lemma rotate_by_basis :
  Forall (λ M, ∀ x y z,
    rotate M (x, y, z)
    = lincomb x y z (rotate M (1, 0, 0)%Z) (rotate M (0, 1, 0)%Z) (rotate M (0, 0, 1)%Z))
    ROTATIONS.
Proof.
  each_rotation ltac:(intros x y z; unfold lincomb; unfold_rotate;
                      cbn [fst snd]; f_equal; [f_equal |]; ring).
Qed.

Lemma rotate_lincomb :
  Forall (λ M, ∀ x y z a b c,
    rotate M (lincomb x y z a b c)
    = lincomb x y z (rotate M a) (rotate M b) (rotate M c)) ROTATIONS.
Proof.
  each_rotation ltac:(intros x y z [[a1 a2] a3] [[b1 b2] b3] [[c1 c2] c3];
                      unfold lincomb; unfold_rotate;
                      cbn [fst snd]; f_equal; [f_equal |]; ring).
Qed.

Lemma composes_spec (M1 M2 M3 : list (list Z)) :
  M1 ∈ ROTATIONS → M2 ∈ ROTATIONS → M3 ∈ ROTATIONS → composes M1 M2 M3 →
  ∀ p, rotate M2 (rotate M1 p) = rotate M3 p.
Proof.
  intros H1 H2 H3 Hc [[x y] z].
  pose proof rotate_by_basis as Hb. rewrite Forall_forall in Hb.
  pose proof rotate_lincomb as Hl. rewrite Forall_forall in Hl.
  rewrite (Hb M1 H1), (Hl M2 H2), (Hb M3 H3).
  unfold composes in Hc. rewrite !Forall_cons in Hc.
  destruct Hc as (-> & -> & -> & _). reflexivity.
Qed.

Lemma rotations_compose :
  Forall (λ M1, Forall (λ M2, Exists (composes M1 M2) ROTATIONS) ROTATIONS) ROTATIONS.
Proof. by_evaluation. Qed.

Lemma rotations_invert :
  Forall (λ M, Exists (λ M', composes M M' (Np.identity 4) ∧ composes M' M (Np.identity 4))
                      ROTATIONS) ROTATIONS.
Proof. by_evaluation. Qed.

Lemma identity_in_rotations : Np.identity 4 ∈ ROTATIONS.
Proof. by_evaluation. Qed.

Lemma rotate_identity (p : Point) : rotate (Np.identity 4) p = p.
Proof.
  destruct p as [[x y] z]. unfold Np.identity. cbn [seq map]. unfold_rotate.
  repeat (destruct (decide _); try lia). cbn [rotate Np.vecmat]. 
  unfold_rotate. f_equal; [f_equal |]; ring.
Qed.

(** X8.  The orientation table is a group: it holds the identity, the
    composition of two of its entries acts as one of its entries, and
    every entry has an inverse in the table.  Hence the oriented
    variants of an oriented variant of a cloud are the oriented variants
    of the cloud. *)
Theorem rotations_form_a_group :
  (Np.identity 4 ∈ ROTATIONS ∧ ∀ p, rotate (Np.identity 4) p = p) ∧
  (∀ M1 M2, M1 ∈ ROTATIONS → M2 ∈ ROTATIONS →
     ∃ M3, M3 ∈ ROTATIONS ∧ ∀ p, rotate M2 (rotate M1 p) = rotate M3 p) ∧
  (∀ M, M ∈ ROTATIONS →
     ∃ M', M' ∈ ROTATIONS ∧
           ∀ p, rotate M' (rotate M p) = p ∧ rotate M (rotate M' p) = p) ∧
  (∀ M b o, M ∈ ROTATIONS →
     o ∈ orientations_of (rotate M <$> b) ↔ o ∈ orientations_of b).
Proof.
  pose proof identity_in_rotations as Hid.
  assert (∀ M1 M2, M1 ∈ ROTATIONS → M2 ∈ ROTATIONS →
            ∃ M3, M3 ∈ ROTATIONS ∧ ∀ p, rotate M2 (rotate M1 p) = rotate M3 p) as Hcomp.
  { intros M1 M2 H1 H2. pose proof rotations_compose as Hc.
    rewrite Forall_forall in Hc. specialize (Hc M1 H1). cbv beta in Hc.
    rewrite Forall_forall in Hc. specialize (Hc M2 H2).
    apply Exists_exists in Hc as (M3 & H3 & Hc).
    exists M3. split; [done |]. by apply composes_spec. }
  assert (∀ M, M ∈ ROTATIONS →
            ∃ M', M' ∈ ROTATIONS ∧
                  ∀ p, rotate M' (rotate M p) = p ∧ rotate M (rotate M' p) = p) as Hinv.
  { intros M HM. pose proof rotations_invert as Hi.
    rewrite Forall_forall in Hi. specialize (Hi M HM).
    apply Exists_exists in Hi as (M' & HM' & H1 & H2).
    exists M'. split; [done |]. intros p.
    rewrite (composes_spec M M' _ HM HM' Hid H1), (composes_spec M' M _ HM' HM Hid H2).
    by rewrite rotate_identity. }
  split; [split; [exact Hid | apply rotate_identity] |].
  split; [exact Hcomp |]. split; [exact Hinv |].
  intros M b o HM. unfold orientations_of. rewrite !list_elem_of_fmap. split.
  - intros (M2 & -> & H2). destruct (Hcomp M M2 HM H2) as (M3 & H3 & Heq).
    exists M3. split; [| done]. rewrite <- list_fmap_compose.
    apply list_fmap_ext. intros _ p _. apply Heq.
  - intros (M3 & -> & H3). destruct (Hinv M HM) as (M' & HM' & Hinv').
    destruct (Hcomp M' M3 HM' H3) as (M2 & H2 & Heq).
    exists M2. split; [| done]. rewrite <- list_fmap_compose.
    apply list_fmap_ext. intros _ p _. cbn.
    rewrite <- Heq. by rewrite (proj1 (Hinv' p)).
Qed.

(** ** [max_distance] *)

Lemma rotate_translate_cityblock :
  Forall (λ M, ∀ t p q,
    cityblock (vadd (rotate M p) t) (vadd (rotate M q) t) = cityblock p q) ROTATIONS.
Proof.
  each_rotation ltac:(intros [[a b] c] [[x y] z] [[x' y'] z'];
                      unfold cityblock; unfold_rotate; cbn [fst snd]; lia).
Qed.

(** X9.  [max_distance] does not depend on the frame: turning all
    scanners by one entry of the orientation table and moving them by
    one vector changes neither the result nor the error, as long as the
    positions stay at most 2^50 in absolute value, where the float64
    distances of [pdist] are exact. *)
Theorem max_distance_in_any_frame (M : list (list Z)) (t : Point) (l : list Scanner) :
  M ∈ ROTATIONS →
  Forall (λ s, within (2 ^ 50) (position s)) l →
  Forall (λ s, within (2 ^ 50) (position s)) (reframe M t <$> l) →
  max_distance (reframe M t <$> l) = max_distance l.
Proof.
  intros HM _ _. rewrite !max_distance_unfold.
  pose proof rotate_translate_cityblock as Hc. rewrite Forall_forall in Hc.
  specialize (Hc M HM). cbv beta in Hc.
  assert (map position (reframe M t <$> l)
          = map (λ p, vadd (rotate M p) t) (map position l)) as ->.
  { rewrite !map_map. reflexivity. }
  rewrite (pdist_map cityblock (λ p, vadd (rotate M p) t)); [done |].
  intros p q. apply Hc.
Qed.

Lemma max_distance_in_any_frame_witness :
  max_distance (reframe (Np.identity 4) (5, 0, 0)%Z
                  <$> [Scanner_default one_pair; mkScanner one_pair (1, 2, 3)%Z])
  = max_distance [Scanner_default one_pair; mkScanner one_pair (1, 2, 3)%Z].
Proof.
  apply (max_distance_in_any_frame (Np.identity 4) (5, 0, 0)%Z
           [Scanner_default one_pair; mkScanner one_pair (1, 2, 3)%Z]).
  - apply (bool_decide_unpack _). vm_compute. exact I.
  - apply (bool_decide_unpack _). vm_compute. exact I.
  - apply (bool_decide_unpack _). vm_compute. exact I.
Defined.

Lemma pdist_Permutation_elem_of (metric : Point → Point → Z) (X Y : list Point) (x : Z) :
  (∀ p q, metric p q = metric q p) → X ≡ₚ Y →
  x ∈ pdist metric X → x ∈ pdist metric Y.
Proof.
  intros Hsym [Hlen (f & Hf & Hlook)]%Permutation_inj.
  rewrite !pdist_elem_of. intros (i & j & a & b & Hij & Ha & Hb & ->).
  rewrite Hlook in Ha, Hb.
  destruct (decide (f i < f j)) as [Hlt | Hge].
  - exists (f i), (f j), a, b. done.
  - exists (f j), (f i), b, a. repeat split; try done.
    assert (f i ≠ f j) by (intros Heq; apply Hf in Heq; lia). lia.
Qed.

Lemma max_of_same_elements (d : Z) (ds : list Z) (e : Z) (es : list Z) :
  (∀ x, x ∈ d :: ds ↔ x ∈ e :: es) → foldl Z.max d ds = foldl Z.max e es.
Proof.
  intros Hsame.
  pose proof (foldl_max_in d ds) as H1. pose proof (foldl_max_in e es) as H2.
  apply Hsame in H1. apply Hsame in H2.
  apply (foldl_max_ge e es) in H1. apply (foldl_max_ge d ds) in H2. lia.
Qed.

(** X10.  [max_distance] does not depend on the order of the list and
    its result is never negative; when the positions are at most 2^50
    in absolute value, where the float64 distances of [pdist] are
    exact, it is 0 exactly when all scanners are at the same position. *)
Theorem max_distance_ignores_the_order (l l' : list Scanner) :
  l ≡ₚ l' →
  max_distance l = max_distance l' ∧
  ∀ m, max_distance l = Ok m →
    (0 ≤ m)%Z ∧
    (Forall (λ s, within (2 ^ 50) (position s)) l →
     (m = 0%Z ↔ ∀ a b, a ∈ l → b ∈ l → position a = position b)).
Proof.
  intros Hperm.
  assert (∀ x, x ∈ pdist cityblock (map position l)
               ↔ x ∈ pdist cityblock (map position l')) as Hsame.
  { intros x. split; apply pdist_Permutation_elem_of;
      [apply cityblock_sym | by apply fmap_Permutation
      | apply cityblock_sym | symmetry; by apply fmap_Permutation]. }
  split.
  - rewrite !max_distance_unfold.
    destruct (pdist cityblock (map position l)) as [| d ds] eqn:Hd,
             (pdist cityblock (map position l')) as [| e es] eqn:He.
    + done.
    + exfalso. specialize (Hsame e). rewrite elem_of_cons in Hsame.
      destruct Hsame as [_ Hs]. specialize (Hs (or_introl eq_refl)). inversion Hs.
    + exfalso. specialize (Hsame d). rewrite elem_of_cons in Hsame.
      destruct Hsame as [Hs _]. specialize (Hs (or_introl eq_refl)). inversion Hs.
    + f_equal. by apply max_of_same_elements.
  - intros m. rewrite max_distance_unfold.
    destruct (pdist cityblock (map position l)) as [| d ds] eqn:Hd; [done |].
    intros [= <-].
    pose proof (foldl_max_in d ds) as Hin. rewrite <- Hd in Hin.
    apply pdist_elem_of in Hin as (i & j & a & b & Hij & Ha & Hb & Hm).
    assert (0 ≤ foldl Z.max d ds)%Z as Hnn by (rewrite Hm; unfold cityblock; lia).
    split; [exact Hnn |]. intros _. split.
    + intros H0 s1 s2 Hs1 Hs2.
      assert (∀ s, s ∈ l → ∀ s', s' ∈ l → cityblock (position s) (position s') = 0%Z)
        as Hz.
      { intros s Hs s' Hs'.
        apply list_elem_of_lookup in Hs as [i1 Hi1]. apply list_elem_of_lookup in Hs' as [i2 Hi2].
        destruct (decide (i1 = i2)) as [-> | Hne].
        { assert (s = s') as -> by congruence. unfold cityblock. lia. }
        assert (cityblock (position s) (position s') ∈ d :: ds) as Hel.
        { rewrite <- Hd. apply pdist_elem_of.
          destruct (decide (i1 < i2)).
          - exists i1, i2, (position s), (position s').
            rewrite !list_lookup_fmap, Hi1, Hi2. done.
          - exists i2, i1, (position s'), (position s).
            rewrite !list_lookup_fmap, Hi1, Hi2. repeat split; [lia | apply cityblock_sym]. }
        apply (foldl_max_ge d ds) in Hel.
        assert (0 ≤ cityblock (position s) (position s'))%Z by (unfold cityblock; lia).
        lia. }
      specialize (Hz s1 Hs1 s2 Hs2).
      destruct (position s1) as [[x y] z], (position s2) as [[x' y'] z'].
      unfold cityblock in Hz. cbn [fst snd] in Hz. f_equal; [f_equal |]; lia.
    + intros Hall. rewrite Hm.
      rewrite list_lookup_fmap in Ha, Hb.
      destruct (l !! i) as [s1 |] eqn:H1; [| done].
      destruct (l !! j) as [s2 |] eqn:H2; [| done].
      cbn in Ha, Hb. injection Ha as <-. injection Hb as <-.
      rewrite (Hall s1 s2) by (by eapply list_elem_of_lookup_2).
      unfold cityblock. lia.
Qed.

Lemma max_distance_ignores_the_order_witness :
  max_distance [Scanner_default one_pair; mkScanner one_pair (1, 2, 3)%Z]
  = max_distance [mkScanner one_pair (1, 2, 3)%Z; Scanner_default one_pair] ∧
  ∀ m, max_distance [Scanner_default one_pair; mkScanner one_pair (1, 2, 3)%Z] = Ok m →
    (0 ≤ m)%Z ∧
    (Forall (λ s, within (2 ^ 50) (position s))
            [Scanner_default one_pair; mkScanner one_pair (1, 2, 3)%Z] →
     (m = 0%Z ↔ ∀ a b, a ∈ [Scanner_default one_pair; mkScanner one_pair (1, 2, 3)%Z] →
                       b ∈ [Scanner_default one_pair; mkScanner one_pair (1, 2, 3)%Z] →
                       position a = position b)).
Proof.
  apply (max_distance_ignores_the_order
           [Scanner_default one_pair; mkScanner one_pair (1, 2, 3)%Z]
           [mkScanner one_pair (1, 2, 3)%Z; Scanner_default one_pair]).
  apply perm_swap.
Defined.

(** ** Invariants of the driver *)

Lemma while_invariant (σ : set_order) (I : list Scanner → list Scanner → Prop) :
  (∀ c q P o p, I (c :: q) P → o ∈ P → __and__ σ c o = Ok (Some p) → I q (P ++ [p])) →
  (∀ c q P, I (c :: q) P → I (q ++ [c]) P) →
  ∀ fuel q P r, I q P → while_to_position σ fuel q P = Some r →
    ∃ res, r = Ok res ∧ I [] res.
Proof.
  intros Hs Hf. induction fuel as [| fuel IH]; intros q P r HI; [done |].
  destruct q as [| c q].
  - cbn [while_to_position]. intros [= <-]. eauto.
  - rewrite while_to_position_turn.
    destruct (first_success _ P) as [p |] eqn:Hfs.
    + apply first_success_Some in Hfs as (P1 & o & P2 & -> & _ & Ho).
      apply IH. apply (Hs c q _ o p HI).
      * apply elem_of_app. right. apply list_elem_of_here.
      * by apply and_Some_iff.
    + apply IH. by apply Hf.
Qed.

Lemma and_Some_motion (σ : set_order) (c o p : Scanner) :
  __and__ σ c o = Ok (Some p) →
  (∃ M, M ∈ ROTATIONS ∧ beacons p = transform M (position p) (beacons c)) ∧
  (MIN_BEACONS_IN_COMMON ≤ coincidences (beacons o) (beacons p))%Z.
Proof.
  rewrite and_refines. intros [= Hres].
  apply match_by_scores_Some in Hres
    as (_ & d & others & j & R & own & i & c' & k & M & _ & _ & _ & _ & _ & _
        & HM & Hb & Hp & H12 & _).
  split; [| done]. exists M. split; [by eapply list_elem_of_lookup_2 |].
  by rewrite Hp.
Qed.

(** X11.  The driver never raises on a map that is not empty.  When it
    returns, the first scanner is the first cloud as it is, and the
    other placed scanners are, one for one, the other clouds: each is
    its cloud turned by an entry of the orientation table and moved by
    the position it carries, and each has at least 12 coincidences with
    a scanner placed before it. *)
Theorem placed_scanners_are_rigid_motions (σ : set_order) (fuel : nat)
    (first : Scanner) (rest : list Scanner) :
  match positioned_scanners σ fuel (mkBeaconMap (first :: rest)) with
  | Some (Ok res) =>
      ∃ order placed,
        res = first :: placed ∧ order ≡ₚ rest ∧
        Forall2 (λ c p, ∃ M, M ∈ ROTATIONS ∧
                             beacons p = transform M (position p) (beacons c))
                order placed ∧
        ∀ k p, placed !! k = Some p →
          ∃ j o, j ≤ k ∧ res !! j = Some o ∧
                 (MIN_BEACONS_IN_COMMON ≤ coincidences (beacons o) (beacons p))%Z
  | Some (Raise _) => False
  | None => True
  end.
Proof.
  unfold positioned_scanners. cbn [scanners].
  destruct (while_to_position σ fuel rest [first]) as [r |] eqn:Hw; [| done].
  apply (while_invariant σ (λ q P,
    ∃ order placed,
      P = first :: placed ∧ order ++ q ≡ₚ rest ∧
      Forall2 (λ c p, ∃ M, M ∈ ROTATIONS ∧
                           beacons p = transform M (position p) (beacons c))
              order placed ∧
      ∀ k p, placed !! k = Some p →
        ∃ j o, j ≤ k ∧ P !! j = Some o ∧
               (MIN_BEACONS_IN_COMMON ≤ coincidences (beacons o) (beacons p))%Z))
    in Hw as (res & -> & order & placed & Hres & Hperm & Hall & Htree).
  - exists order, placed. rewrite app_nil_r in Hperm. done.
  - intros c q P o p (order & placed & -> & Hperm & Hall & Htree) Ho Hand.
    apply and_Some_motion in Hand as [Hmotion H12].
    exists (order ++ [c]), (placed ++ [p]). split; [done |].
    split; [by rewrite <- app_assoc |].
    split; [apply Forall2_app; [done | by repeat constructor] |].
    intros k p' Hk.
    destruct (decide (k < length placed)) as [Hlt | Hge].
    + rewrite lookup_app_l in Hk by done.
      destruct (Htree k p' Hk) as (j & o' & Hj & Ho' & H12').
      exists j, o'. split; [done |]. split; [| done].
      rewrite lookup_app_l; [done |]. cbn [length]. lia.
    + rewrite lookup_app_r in Hk by lia.
      apply list_lookup_singleton_Some in Hk as [Hk0 <-].
      apply list_elem_of_lookup in Ho as [j Hj].
      exists j, o. split; [apply lookup_lt_Some in Hj; cbn [length] in Hj; lia |].
      split; [| done]. rewrite lookup_app_l; [done | by eapply lookup_lt_Some].
  - intros c q P (order & placed & -> & Hperm & Hall & Htree).
    exists order, placed. split; [done |]. split; [| done].
    rewrite <- Hperm. apply Permutation_app_head. symmetry.
    apply Permutation_cons_append.
  - exists [], []. repeat split; [done | constructor |].
    intros k p Hk. done.
Qed.

(** ** How many beacons there can be *)

Lemma positioned_beacons_snoc (P : list Scanner) (p : Scanner) :
  positioned_beacons (P ++ [p]) = positioned_beacons P ∪ list_to_set (beacons p).
Proof.
  rewrite !positioned_beacons_union, fmap_app, union_list_app_L. cbn. set_solver.
Qed.

Lemma positioned_beacons_elem (P : list Scanner) (o : Scanner) :
  o ∈ P → (list_to_set (beacons o) : gset Point) ⊆ positioned_beacons P.
Proof.
  intros Ho. rewrite positioned_beacons_union. intros x Hx.
  apply elem_of_union_list. exists (list_to_set (beacons o)). split; [| done].
  apply list_elem_of_fmap. eauto.
Qed.

Lemma size_union_overlap (A B O : gset Point) (n : nat) :
  O ⊆ A → n ≤ size (O ∩ B) → size (A ∪ B) + n ≤ size A + size B.
Proof.
  intros HO Hn. rewrite size_union_alt.
  assert (B = (B ∖ A) ∪ (B ∩ A)) as HB.
  { apply set_eq. intros x. rewrite elem_of_union, elem_of_difference, elem_of_intersection.
    destruct (decide (x ∈ A)); tauto. }
  assert (size B = size (B ∖ A) + size (B ∩ A)) as Hsz.
  { rewrite HB at 1. apply size_union. set_solver. }
  assert (size (O ∩ B) ≤ size (B ∩ A)) by (apply subseteq_size; set_solver).
  lia.
Qed.

Lemma count_beacons_app (l1 l2 : list Scanner) :
  count_beacons (l1 ++ l2) = count_beacons l1 + count_beacons l2.
Proof. unfold count_beacons. induction l1 as [| s l1 IH]; [done |]. cbn in *. lia. Qed.

Lemma count_beacons_cons (s : Scanner) (l : list Scanner) :
  count_beacons (s :: l) = length (beacons s) + count_beacons l.
Proof. reflexivity. Qed.

(** X12.  For clouds without repeated points: when the driver returns,
    as many scanners are placed as there were clouds, and the number of
    distinct beacons is at most the number of beacons of all clouds
    minus 12 for every cloud but the first. *)
Theorem every_placement_shares_12_beacons (σ : set_order) (fuel : nat)
    (first : Scanner) (rest res : list Scanner) :
  Forall (λ s, NoDup (beacons s)) (first :: rest) →
  positioned_scanners σ fuel (mkBeaconMap (first :: rest)) = Some (Ok res) →
  length res = S (length rest) ∧
  size (positioned_beacons res) + 12 * length rest
  ≤ count_beacons (first :: rest).
Proof.
  intros Hnd Hw. unfold positioned_scanners in Hw. cbn [scanners] in Hw.
  apply Forall_cons in Hnd as [Hfirst Hrest].
  apply (while_invariant σ (λ q P,
    Forall (λ s, NoDup (beacons s)) q ∧ Forall (λ s, NoDup (beacons s)) P ∧
    length q + length P = S (length rest) ∧
    size (positioned_beacons P) + 12 * (length P - 1) + count_beacons q
    ≤ count_beacons (first :: rest)))
    in Hw as (res' & [= <-] & _ & _ & Hlen & Hbound).
  - cbn [length] in Hlen. split; [lia |].
    replace (length res - 1) with (length rest) in Hbound by lia.
    change (count_beacons []) with 0 in Hbound. lia.
  - intros c q P o p (Hq & HP & Hlen & Hbound) Ho Hand.
    pose proof Hand as [(M & HM & Hb) H12]%and_Some_motion.
    apply Forall_cons in Hq as [Hc Hq].
    assert (NoDup (beacons o)) as Hno by (rewrite Forall_forall in HP; by apply HP).
    assert (NoDup (beacons p)) as Hp by (rewrite Hb; by apply transform_NoDup).
    assert (length (beacons p) = length (beacons c)) as Hpl
      by (rewrite Hb; unfold transform; apply length_fmap).
    split; [done |]. split; [apply Forall_app; split; [done | by constructor] |].
    split; [rewrite length_app; cbn [length] in *; lia |].
    rewrite positioned_beacons_snoc, length_app. cbn [length].
    rewrite coincidences_common_points in H12 by done.
    unfold common_points, MIN_BEACONS_IN_COMMON in H12.
    pose proof (size_union_overlap (positioned_beacons P) (list_to_set (beacons p))
                  (list_to_set (beacons o)) 12
                  (positioned_beacons_elem P o Ho) ltac:(lia)) as Hov.
    rewrite size_list_to_set in Hov by done.
    pose proof (count_beacons_cons c q) as Hcq.
    assert (0 < length P) by (destruct P; [inversion Ho | cbn; lia]).
    lia.
  - intros c q P (Hq & HP & Hlen & Hbound).
    apply Forall_cons in Hq as [Hc Hq].
    split; [apply Forall_app; split; [done | by constructor] |].
    split; [done |]. split; [rewrite length_app; cbn [length] in *; lia |].
    pose proof (count_beacons_cons c q) as Hcq.
    pose proof (count_beacons_app q [c]) as Hqc.
    rewrite (count_beacons_cons c []) in Hqc. change (count_beacons []) with 0 in Hqc.
    lia.
  - split; [done |]. split; [by constructor |]. split; [cbn; lia |].
    assert (positioned_beacons [first] = list_to_set (beacons first)) as ->.
    { rewrite positioned_beacons_union. cbn. set_solver. }
    rewrite size_list_to_set by done.
    pose proof (count_beacons_cons first rest) as Hcq.
    cbn [length]. lia.
Qed.

(** ** Coordinates of the placed scanners *)

Lemma within_weaken (B B' : Z) (p : Point) : (B ≤ B')%Z → within B p → within B' p.
Proof. unfold within. lia. Qed.

(** X13.  For clouds with [int16] coordinates: when the driver returns
    [n] scanners, every coordinate of their beacons and positions is at
    most [n * 2^16] in absolute value, far inside [int64]. *)
Theorem coordinates_stay_small (σ : set_order) (fuel : nat)
    (first : Scanner) (rest res : list Scanner) :
  Forall (λ s, Forall (within (2 ^ 15)) (beacons s)) (first :: rest) →
  within (2 ^ 15) (position first) →
  positioned_scanners σ fuel (mkBeaconMap (first :: rest)) = Some (Ok res) →
  Forall (λ s, Forall (within (2 ^ 16 * Z.of_nat (length res))) (beacons s) ∧
               within (2 ^ 16 * Z.of_nat (length res)) (position s)) res.
Proof.
  intros Hin Hpos Hw. unfold positioned_scanners in Hw. cbn [scanners] in Hw.
  apply Forall_cons in Hin as [Hfirst Hrest].
  apply (while_invariant σ (λ q P,
    Forall (λ s, Forall (within (2 ^ 15)) (beacons s)) q ∧
    Forall (λ s, Forall (within (2 ^ 16 * Z.of_nat (length P) - 2 ^ 15)) (beacons s) ∧
                 within (2 ^ 16 * Z.of_nat (length P) - 2 ^ 15) (position s)) P))
    in Hw as (res' & [= <-] & _ & HP).
  - eapply Forall_impl; [exact HP |]. intros s [Hb Hp]. cbv beta. split.
    + eapply Forall_impl; [exact Hb |]. intros p. apply within_weaken. lia.
    + revert Hp. apply within_weaken. lia.
  - intros c q P o p (Hq & HP) Ho Hand.
    apply Forall_cons in Hq as [Hc Hq]. split; [done |].
    rewrite length_app. cbn [length].
    replace (Z.of_nat (length P + 1)) with (Z.of_nat (length P) + 1)%Z by lia.
    apply Forall_app. split.
    + eapply Forall_impl; [exact HP |]. intros s [Hb Hp]. cbv beta. split.
      * eapply Forall_impl; [exact Hb |]. intros x. apply within_weaken. lia.
      * revert Hp. apply within_weaken. lia.
    + constructor; [| constructor].
      rewrite Forall_forall in HP. destruct (HP o Ho) as [Hob _].
      destruct (placed_within σ c o p _ Hand Hc Hob) as [Hpb Hpp]. split.
      * eapply Forall_impl; [exact Hpb |]. intros x. apply within_weaken. lia.
      * revert Hpp. apply within_weaken. lia.
  - intros c q P (Hq & HP). apply Forall_cons in Hq as [Hc Hq].
    split; [apply Forall_app; split; [done | by constructor] | done].
  - split; [done |]. constructor; [| constructor]. cbn [length]. split.
    + eapply Forall_impl; [exact Hfirst |]. intros x. apply within_weaken. lia.
    + revert Hpos. apply within_weaken. lia.
Qed.

(** ** How long the loop can run *)

Lemma most_turns_S (n : nat) : most_turns (S n) = most_turns n + S n.
Proof.
  unfold most_turns.
  replace (S n * (S n + 1)) with (n * (n + 1) + S n * 2) by lia.
  by rewrite Nat.div_add.
Qed.

Lemma while_fuel_mono (σ : set_order) (fuel : nat) :
  ∀ q P r, while_to_position σ fuel q P = Some r →
    ∀ fuel', fuel ≤ fuel' → while_to_position σ fuel' q P = Some r.
Proof.
  induction fuel as [| fuel IH]; intros q P r Hw fuel' Hle; [done |].
  destruct fuel' as [| fuel']; [lia |].
  destruct q as [| c q]; [exact Hw |].
  rewrite while_to_position_turn in *.
  destruct (first_success _ P); apply (IH _ _ _ Hw); lia.
Qed.

Lemma while_skip_failures (σ : set_order) (P : list Scanner) (q1 : list Scanner) :
  (∀ c, c ∈ q1 → first_success (match_by_scores σ c) P = None) →
  ∀ fuel q2,
    while_to_position σ (length q1 + fuel) (q1 ++ q2) P
    = while_to_position σ fuel (q2 ++ q1) P.
Proof.
  induction q1 as [| c q1 IH]; intros Hfail fuel q2.
  - by rewrite app_nil_r.
  - cbn [length app Nat.add]. rewrite while_to_position_turn.
    rewrite (Hfail c) by apply list_elem_of_here.
    rewrite <- app_assoc, IH.
    + by rewrite <- app_assoc.
    + intros c' Hc'. apply Hfail. by apply list_elem_of_further.
Qed.

Lemma while_needs_fuel (σ : set_order) (P : list Scanner) (q1 : list Scanner) :
  (∀ c, c ∈ q1 → first_success (match_by_scores σ c) P = None) →
  ∀ fuel c q2 r,
    while_to_position σ fuel (q1 ++ c :: q2) P = Some r → length q1 < fuel.
Proof.
  induction q1 as [| c1 q1 IH]; intros Hfail fuel c q2 r Hw.
  - destruct fuel; [done | cbn; lia].
  - destruct fuel as [| fuel]; [done |]. cbn [length app] in *.
    rewrite while_to_position_turn in Hw.
    rewrite (Hfail c1) in Hw by apply list_elem_of_here.
    rewrite <- app_assoc in Hw. cbn [app] in Hw.
    apply IH in Hw; [lia |].
    intros c' Hc'. apply Hfail. by apply list_elem_of_further.
Qed.

Lemma while_returns_within_most_turns (σ : set_order) (n : nat) :
  ∀ q P fuel r, length q = n →
    while_to_position σ fuel q P = Some r →
    while_to_position σ (S (most_turns n)) q P = Some r.
Proof.
  induction n as [| n IH]; intros q P fuel r Hlen Hw.
  - destruct q; [| done]. destruct fuel; [done |]. exact Hw.
  - destruct (first_success (λ c, first_success (match_by_scores σ c) P) q)
      as [p |] eqn:Hfs.
    + apply first_success_Some in Hfs as (q1 & c & q2 & -> & Hfail & Hc).
      pose proof (while_needs_fuel σ P q1 Hfail fuel c q2 r Hw) as Hfuel.
      assert (∃ f, fuel = length q1 + S f) as [f ->]
        by (exists (fuel - length q1 - 1); clear -Hfuel; lia).
      rewrite while_skip_failures in Hw by done.
      cbn [app] in Hw. rewrite while_to_position_turn, Hc in Hw.
      rewrite length_app in Hlen. cbn [length] in Hlen.
      assert (length (q2 ++ q1) = n) as Hn by (rewrite length_app; lia).
      apply (IH _ _ _ _ Hn) in Hw.
      apply (while_fuel_mono σ (length q1 + S (S (most_turns n)))).
      * rewrite while_skip_failures by done. cbn [app].
        by rewrite while_to_position_turn, Hc.
      * rewrite most_turns_S. lia.
    + exfalso. rewrite first_success_None in Hfs.
      rewrite while_without_match_runs_on in Hw; [done | by destruct q |].
      intros c o Hc Ho. apply and_None_iff.
      specialize (Hfs c Hc). rewrite first_success_None in Hfs. by apply Hfs.
Qed.

(** X14.  With [n] clouds in the queue the loop returns within
    [n * (n + 1) / 2] turns or not at all: whatever it returns with any
    amount of fuel it returns with that much, and when it has not
    returned by then it never does. *)
Theorem driver_returns_early_or_never (σ : set_order) (self : BeaconMap) :
  let n := length (scanners self) - 1 in
  (∀ fuel r, positioned_scanners σ fuel self = Some r →
     positioned_scanners σ (S (most_turns n)) self = Some r) ∧
  (positioned_scanners σ (S (most_turns n)) self = None →
   ∀ fuel, positioned_scanners σ fuel self = None) ∧
  (∀ first rest res, scanners self = first :: rest →
     positioned_scanners σ (S (most_turns n)) self = Some (Ok res) →
     ∃ k, k ≤ most_turns n ∧ turns σ k rest [first] = Some ([], res)).
Proof.
  cbv zeta.
  assert (∀ fuel r, positioned_scanners σ fuel self = Some r →
            positioned_scanners σ (S (most_turns (length (scanners self) - 1))) self
            = Some r) as Hearly.
  { intros fuel r. unfold positioned_scanners.
    destruct (scanners self) as [| first rest]; [done |].
    replace (length (first :: rest) - 1) with (length rest) by (cbn [length]; lia).
    by apply while_returns_within_most_turns. }
  split; [exact Hearly |]. split.
  - intros Hnone fuel.
    destruct (positioned_scanners σ fuel self) as [r |] eqn:Hr; [| done].
    apply Hearly in Hr. congruence.
  - intros first rest res Hs. unfold positioned_scanners. rewrite Hs.
    replace (length (first :: rest) - 1) with (length rest) by (cbn [length]; lia).
    intros (k & Hk & Hturns)%while_returns_iff_turns.
    exists k. split; [lia | done].
Qed.

(** ** Instances *)

Lemma twisted12_placed :
  positioned_scanners elements_order 2
    (from_clouds [twisted12; twisted12_elsewhere])
  = Some (Ok [Scanner_default twisted12; mkScanner twisted12 (-7, 100, -20)%Z]).
Proof.
  unfold positioned_scanners, from_clouds. cbn [scanners fmap list_fmap].
  driver_turn. reflexivity.
Qed.

Lemma every_placement_shares_12_beacons_witness :
  length [Scanner_default twisted12; mkScanner twisted12 (-7, 100, -20)%Z] = 2 ∧
  size (positioned_beacons
          [Scanner_default twisted12; mkScanner twisted12 (-7, 100, -20)%Z])
  + 12 * 1
  ≤ count_beacons [Scanner_default twisted12; Scanner_default twisted12_elsewhere].
Proof.
  apply (every_placement_shares_12_beacons elements_order 2
           (Scanner_default twisted12) [Scanner_default twisted12_elsewhere]
           [Scanner_default twisted12; mkScanner twisted12 (-7, 100, -20)%Z]).
  - apply (bool_decide_unpack _). vm_compute. exact I.
  - exact twisted12_placed.
Defined.

Lemma coordinates_stay_small_witness :
  Forall (λ s, Forall (within (2 ^ 16 * Z.of_nat 2)) (beacons s) ∧
               within (2 ^ 16 * Z.of_nat 2) (position s))
         [Scanner_default twisted12; mkScanner twisted12 (-7, 100, -20)%Z].
Proof.
  apply (coordinates_stay_small elements_order 2
           (Scanner_default twisted12) [Scanner_default twisted12_elsewhere]
           [Scanner_default twisted12; mkScanner twisted12 (-7, 100, -20)%Z]).
  - apply (bool_decide_unpack _). vm_compute. exact I.
  - apply (bool_decide_unpack _). vm_compute. exact I.
  - exact twisted12_placed.
Defined.

(** ** The caches over several calls *)

Lemma preserved_consistent (h h1 : Heap.heap) :
  preserved h h1 → Forall Heap.consistent h → Forall Heap.consistent h1.
Proof.
  intros [Hlen Hp] Hall. apply Forall_lookup. intros i o1 Hi.
  assert (is_Some (h !! i)) as [o Ho].
  { apply lookup_lt_is_Some. rewrite <- Hlen. by eapply lookup_lt_Some. }
  destruct (Hp i o Ho) as (o' & Ho' & _ & Hc).
  assert (o' = o1) as -> by congruence.
  apply Hc. by eapply Forall_lookup_1.
Qed.

Lemma fresh_object_consistent (s : Scanner) :
  Heap.consistent (Heap.mkObject (beacons s) (position s) None None).
Proof. split; intros ? Hcache; discriminate Hcache. Qed.

Lemma heap_and_consistent (σ : set_order) (h : Heap.heap) (a b : nat)
    (oa ob : Heap.object) :
  Forall Heap.consistent h → h !! a = Some oa → h !! b = Some ob →
  ∃ h1 oa1 ob1,
    preserved h h1 ∧
    Heap.__and__ σ a b h =
      match match_by_scores σ (Heap.value oa) (Heap.value ob) with
      | None => Ok (None, h1)
      | Some res =>
          Ok (Some (length h),
              h1 ++ [Heap.mkObject (beacons res) (position res) None None])
      end ∧
    Forall Heap.consistent
      match match_by_scores σ (Heap.value oa) (Heap.value ob) with
      | None => h1
      | Some res => h1 ++ [Heap.mkObject (beacons res) (position res) None None]
      end ∧
    h1 !! a = Some oa1 ∧ h1 !! b = Some ob1 ∧
    Heap.value oa1 = Heap.value oa ∧ Heap.value ob1 = Heap.value ob.
Proof.
  intros Hall Ha Hb.
  pose proof (Forall_lookup_1 _ _ _ _ Hall Ha) as Hca.
  pose proof (Forall_lookup_1 _ _ _ _ Hall Hb) as Hcb.
  destruct (heap_and_spec σ h a b oa ob Ha Hb Hca Hcb) as (h1 & Hp & Hand & _).
  pose proof (preserved_consistent h h1 Hp Hall) as Hall1.
  destruct (proj2 Hp a oa Ha) as (oa1 & Ha1 & Hva & _).
  destruct (proj2 Hp b ob Hb) as (ob1 & Hb1 & Hvb & _).
  exists h1, oa1, ob1. split; [exact Hp |]. split; [exact Hand |].
  split; [| done].
  destruct (match_by_scores σ (Heap.value oa) (Heap.value ob)) as [res |]; [| done].
  apply Forall_app. split; [done |]. constructor; [| constructor].
  apply fresh_object_consistent.
Qed.

(** X15.  On a heap whose caches are right the matcher leaves a heap
    whose caches are right, the new scanner included; called again on
    the same two scanners it gives the same answer, and on a match a
    second new object, at another address, with the same beacons and
    position. *)
Theorem caches_stay_right (σ : set_order) (h : Heap.heap) (a b : nat)
    (oa ob : Heap.object) :
  Forall Heap.consistent h → h !! a = Some oa → h !! b = Some ob →
  ∃ r h',
    Heap.__and__ σ a b h = Ok (r, h') ∧ Forall Heap.consistent h' ∧
    ∃ r2 h'',
      Heap.__and__ σ a b h' = Ok (r2, h'') ∧ Forall Heap.consistent h'' ∧
      match r, r2 with
      | None, None => length h'' = length h
      | Some n1, Some n2 =>
          n1 ≠ n2 ∧
          ∃ o1 o2, h'' !! n1 = Some o1 ∧ h'' !! n2 = Some o2 ∧
                   Heap.value o1 = Heap.value o2
      | _, _ => False
      end.
Proof.
  intros Hall Ha Hb.
  destruct (heap_and_consistent σ h a b oa ob Hall Ha Hb)
    as (h1 & oa1 & ob1 & Hp1 & Hand1 & Hall1 & Ha1 & Hb1 & Hva & Hvb).
  destruct (match_by_scores σ (Heap.value oa) (Heap.value ob)) as [res |] eqn:Hm.
  - set (new := Heap.mkObject (beacons res) (position res) None None) in *.
    exists (Some (length h)), (h1 ++ [new]). split; [exact Hand1 |].
    split; [exact Hall1 |].
    assert ((h1 ++ [new]) !! a = Some oa1) as Ha'
      by (rewrite lookup_app_l; [done | by eapply lookup_lt_Some]).
    assert ((h1 ++ [new]) !! b = Some ob1) as Hb'
      by (rewrite lookup_app_l; [done | by eapply lookup_lt_Some]).
    destruct (heap_and_consistent σ _ a b oa1 ob1 Hall1 Ha' Hb')
      as (h2 & oa2 & ob2 & Hp2 & Hand2 & Hall2 & _).
    rewrite Hva, Hvb, Hm in Hand2, Hall2.
    eexists _, _. split; [exact Hand2 |]. split; [exact Hall2 |].
    destruct Hp1 as [Hl1 _]. pose proof Hp2 as [Hl2 Hp2'].
    rewrite length_app in *. cbn [length] in *. split; [lia |].
    destruct (Hp2' (length h) new) as (o1 & Ho1 & Hv1 & _).
    { rewrite <- Hl1. apply list_lookup_middle. done. }
    exists o1, new. split; [| split].
    + rewrite lookup_app_l; [done | by eapply lookup_lt_Some].
    + replace (length h1 + 1) with (length h2 + 0) by lia.
      by rewrite lookup_app_r, Nat.add_comm, Nat.add_sub by lia.
    + done.
  - exists None, h1. split; [exact Hand1 |]. split; [exact Hall1 |].
    destruct (heap_and_consistent σ h1 a b oa1 ob1 Hall1 Ha1 Hb1)
      as (h2 & oa2 & ob2 & Hp2 & Hand2 & Hall2 & _).
    rewrite Hva, Hvb, Hm in Hand2, Hall2.
    exists None, h2. split; [exact Hand2 |]. split; [exact Hall2 |].
    destruct Hp1 as [Hl1 _], Hp2 as [Hl2 _]. congruence.
Qed.

Lemma caches_stay_right_witness :
  ∃ r h',
    Heap.__and__ elements_order 1 0
      [Heap.mkObject twisted12 zeros3 None None;
       Heap.mkObject twisted12_elsewhere zeros3 None None] = Ok (r, h') ∧
    Forall Heap.consistent h' ∧
    ∃ r2 h'',
      Heap.__and__ elements_order 1 0 h' = Ok (r2, h'') ∧ Forall Heap.consistent h'' ∧
      match r, r2 with
      | None, None => length h'' = 2
      | Some n1, Some n2 =>
          n1 ≠ n2 ∧
          ∃ o1 o2, h'' !! n1 = Some o1 ∧ h'' !! n2 = Some o2 ∧
                   Heap.value o1 = Heap.value o2
      | _, _ => False
      end.
Proof.
  apply (caches_stay_right elements_order
           [Heap.mkObject twisted12 zeros3 None None;
            Heap.mkObject twisted12_elsewhere zeros3 None None] 1 0
           (Heap.mkObject twisted12_elsewhere zeros3 None None)
           (Heap.mkObject twisted12 zeros3 None None)).
  - repeat constructor; intros ? Hcache; discriminate Hcache.
  - reflexivity.
  - reflexivity.
Defined.

(** ** The order in which the beacons are listed *)

Lemma size_set_map_inj (f : nat → nat) (X : gset nat) :
  Inj (=) (=) f → size (set_map f X : gset nat) = size X.
Proof.
  intros Hf. unfold set_map.
  rewrite size_list_to_set by (apply NoDup_fmap_2; [done | apply NoDup_elements]).
  by rewrite length_fmap.
Qed.

Lemma distances_of_Permutation_le (b b' : list Point) (d : Z) :
  b ≡ₚ b' →
  (is_Some (distances_of b !! d) → is_Some (distances_of b' !! d)) ∧
  size (default ∅ (distances_of b !! d)) ≤ size (default ∅ (distances_of b' !! d)).
Proof.
  intros [Hlen (f & Hf & Hlook)]%Permutation_inj. split.
  - rewrite !distances_of_is_Some. intros (i & j & a & c & Hij & Ha & Hc & Hd).
    rewrite Hlook in Ha, Hc.
    assert (f i ≠ f j) by (intros Heq; apply Hf in Heq; lia).
    destruct (decide (f i < f j)).
    + exists (f i), (f j), a, c. done.
    + exists (f j), (f i), c, a. repeat split; [lia | done.. |].
      by rewrite sqeuclidean_sym.
  - rewrite <- (size_set_map_inj f) by done. apply subseteq_size.
    intros x (i & -> & Hi)%elem_of_map.
    apply distances_of_elem_of in Hi as (j & a & c & Hne & Ha & Hc & Hd).
    apply distances_of_elem_of. exists (f j), a, c.
    rewrite <- !Hlook. repeat split; try done.
    intros Heq. apply Hf in Heq. done.
Qed.

Lemma distances_of_Permutation (b b' : list Point) (d : Z) :
  b ≡ₚ b' →
  (is_Some (distances_of b !! d) ↔ is_Some (distances_of b' !! d)) ∧
  size (default ∅ (distances_of b !! d)) = size (default ∅ (distances_of b' !! d)).
Proof.
  intros Hp.
  destruct (distances_of_Permutation_le b b' d Hp) as [H1 H2].
  destruct (distances_of_Permutation_le b' b d (symmetry Hp)) as [H3 H4].
  split; [split; done | lia].
Qed.

(** X16.  The order in which the beacons of a cloud are listed changes
    neither the distances of its dict nor the size of any index set;
    the shared distances and the sum of the pre-filter of two clouds
    stay the same. *)
Theorem prefilter_ignores_the_order_of_beacons (C C' F F' : Scanner) :
  beacons C ≡ₚ beacons C' → beacons F ≡ₚ beacons F' →
  dom (distances C) = dom (distances C') ∧
  (∀ d, size (default ∅ (distances C !! d)) = size (default ∅ (distances C' !! d))) ∧
  shared_keys (distances C) (distances F) = shared_keys (distances C') (distances F') ∧
  half_index_sum C F = half_index_sum C' F'.
Proof.
  intros HC HF.
  assert (∀ X X', beacons X ≡ₚ beacons X' → dom (distances X) = dom (distances X'))
    as Hdom.
  { intros X X' HX. apply set_eq. intros d. rewrite !elem_of_dom.
    apply (distances_of_Permutation _ _ d HX). }
  assert (shared_keys (distances C) (distances F)
          = shared_keys (distances C') (distances F')) as Hshared.
  { unfold shared_keys. by rewrite (Hdom C C' HC), (Hdom F F' HF). }
  split; [by apply Hdom |].
  split; [intros d; apply (distances_of_Permutation _ _ d HC) |].
  split; [exact Hshared |].
  unfold half_index_sum. rewrite Hshared. f_equal.
  apply list_fmap_ext. intros _ d _. cbv beta.
  unfold distances. by rewrite (proj2 (distances_of_Permutation _ _ d HC)).
Qed.

Lemma prefilter_ignores_the_order_of_beacons_witness :
  let C := Scanner_default three_pairs in
  let C' := Scanner_default (reverse three_pairs) in
  let F := Scanner_default one_pair in
  dom (distances C) = dom (distances C') ∧
  (∀ d, size (default ∅ (distances C !! d)) = size (default ∅ (distances C' !! d))) ∧
  shared_keys (distances C) (distances F) = shared_keys (distances C') (distances F) ∧
  half_index_sum C F = half_index_sum C' F.
Proof.
  apply (prefilter_ignores_the_order_of_beacons
           (Scanner_default three_pairs) (Scanner_default (reverse three_pairs))
           (Scanner_default one_pair) (Scanner_default one_pair)).
  - cbn [beacons Scanner_default]. symmetry. apply reverse_Permutation.
  - reflexivity.
Defined.

(** ** The oriented variants *)

(** X17.  [orientations] has 24 variants, each as long as the cloud;
    variant 21 is the cloud itself; no variant brings two different
    beacons to the same point; when the coordinates of the cloud are at
    most 2^24 in absolute value, where the float64 distances of [pdist]
    are exact, so are those of every variant, and every variant has the
    pairwise distances of the cloud. *)
Theorem orientations_keep_the_cloud_apart (self : Scanner) :
  length (orientations self) = 24 ∧
  Forall (λ o, length o = length (beacons self)) (orientations self) ∧
  orientations self !! 21 = Some (beacons self) ∧
  (∀ k o i j p, orientations self !! k = Some o →
     o !! i = Some p → o !! j = Some p → beacons self !! i = beacons self !! j) ∧
  (Forall (within (2 ^ 24)) (beacons self) →
   Forall (λ o, Forall (within (2 ^ 24)) o ∧
                pdist sqeuclidean o = pdist sqeuclidean (beacons self))
          (orientations self)).
Proof.
  unfold orientations, orientations_of. split; [| split; [| split; [| split]]].
  - rewrite length_fmap. apply rotations_length.
  - apply Forall_fmap, Forall_forall. intros M _. cbn. apply length_fmap.
  - rewrite list_lookup_fmap.
    assert (ROTATIONS !! 21 = Some (Np.identity 4)) as -> by (vm_compute; reflexivity).
    cbn [fmap option_fmap option_map]. f_equal.
    rewrite <- (list_fmap_id (beacons self)) at 2.
    apply list_fmap_ext. intros _ p _. apply rotate_identity.
  - intros k o i j p Hk Hi Hj. rewrite list_lookup_fmap in Hk.
    destruct (ROTATIONS !! k) as [M |] eqn:HM; [| done].
    cbn in Hk. injection Hk as <-. apply list_elem_of_lookup_2 in HM.
    rewrite list_lookup_fmap in Hi, Hj.
    destruct (beacons self !! i) as [a |], (beacons self !! j) as [c |]; try done.
    cbn in Hi, Hj. f_equal.
    pose proof rotate_injective as Hinj. rewrite Forall_forall in Hinj.
    apply (Hinj M HM). congruence.
  - intros Hin. apply Forall_fmap, Forall_forall. intros M HM. cbn. split.
    + pose proof rotate_within as Hrot. rewrite Forall_forall in Hrot.
      apply Forall_fmap. eapply Forall_impl; [exact Hin |].
      intros p Hp. cbn. by apply (Hrot M HM).
    + pose proof rotate_translate_isometry as Hiso. rewrite Forall_forall in Hiso.
      specialize (Hiso M HM (0, 0, 0)%Z). cbv beta in Hiso.
      apply pdist_map. intros p q. rewrite <- (Hiso p q).
      destruct (rotate M p) as [[x y] z], (rotate M q) as [[x' y'] z'].
      unfold sqeuclidean, vadd. cbn [fst snd]. ring.
Qed.

Lemma orientations_keep_the_cloud_apart_witness :
  Forall (λ o, Forall (within (2 ^ 24)) o ∧
               pdist sqeuclidean o = pdist sqeuclidean twisted12)
         (orientations (Scanner_default twisted12)) ∧
  Forall (λ o, Float64.pdist Float64.euclidean o
               = Float64.pdist Float64.euclidean twisted12)
         (orientations (Scanner_default twisted12)).
Proof.
  split; [| apply (bool_decide_unpack _); vm_compute; exact I].
  apply (proj2 (proj2 (proj2 (proj2
           (orientations_keep_the_cloud_apart (Scanner_default twisted12)))))).
  apply (bool_decide_unpack _). vm_compute. exact I.
Defined.

(** * Twelve points in common *)

(** ** A fixed cloud that lies within the candidate *)





(** * Instances within and past the exact range of float64 *)

(** On the clouds of the notebook's test the float64 distances are the
    rounded square roots of the exact sums of squares, and different
    sums give different floats: there the dict keyed on the squared
    distance has the keys of the program's dict. *)
Example float64_keys_of_the_test_clouds :
  Forall (λ b,
    Forall (within (2 ^ 24)) b ∧
    Float64.pdist Float64.euclidean b
    = (λ z, Float64.sqrt (Float64.of_int z)) <$> pdist sqeuclidean b)
    [test_scanner_0; test_scanner_1; test_scanner_2; test_scanner_3; test_scanner_4] ∧
  NoDup ((λ z, Float64.sqrt (Float64.of_int z))
           <$> remove_dups ([test_scanner_0; test_scanner_1; test_scanner_2;
                             test_scanner_3; test_scanner_4] ≫= pdist sqeuclidean)).
Proof.
  split.
  - by_evaluation.
  - by_evaluation.
Qed.

Lemma distances_invariant_witness :
  (pdist sqeuclidean twisted12_elsewhere = pdist sqeuclidean twisted12 ∧
   distances_of twisted12_elsewhere = distances_of twisted12) ∧
  Float64.pdist Float64.euclidean twisted12_elsewhere
  = Float64.pdist Float64.euclidean twisted12 ∧
  Float64.distances_of twisted12_elsewhere = Float64.distances_of twisted12.
Proof.
  split; [| split; vm_compute; reflexivity].
  apply (distances_invariant (nth 5 ROTATIONS []) (100, -20, 7)%Z twisted12).
  - apply (bool_decide_unpack _). vm_compute. exact I.
  - apply (bool_decide_unpack _). vm_compute. exact I.
  - apply (bool_decide_unpack _). vm_compute. exact I.
Defined.

(** C7, as stated, fails: the cloud (0,0,0), (1,0,0) has the single
    distance 1.0; moved by (2^53, 0, 0) its two points become the same
    float64, and the dict of the moved cloud has the single key 0.0. *)
Lemma distances_change_past_2_53 :
  let b := [(0, 0, 0); (1, 0, 0)]%Z in
  let moved := transform (Np.identity 4) (2 ^ 53, 0, 0)%Z b in
  Np.identity 4 ∈ ROTATIONS ∧
  moved = [(2 ^ 53, 0, 0); (2 ^ 53 + 1, 0, 0)]%Z ∧
  Float64.pdist Float64.euclidean b = [Float64.of_int 1] ∧
  Float64.pdist Float64.euclidean moved = [Float64.of_int 0] ∧
  Float64.distances_of b = [(Float64.of_int 1, {[0; 1]})] ∧
  Float64.distances_of moved = [(Float64.of_int 0, {[0; 1]})] ∧
  Float64.of_int 0 ≠ Float64.of_int 1.
Proof.
  cbv zeta. split; [apply (bool_decide_unpack _); vm_compute; exact I |].
  split; [vm_compute; reflexivity |].
  split; [vm_compute; reflexivity |].
  split; [vm_compute; reflexivity |].
  split; [vm_compute; reflexivity |].
  split; [vm_compute; reflexivity |].
  vm_compute. discriminate.
Qed.

Lemma summary_counts_union_and_max_spread_witness :
  let positioned := [Scanner_default twisted12;
                     mkScanner twisted12 (68, -1246, -43)%Z;
                     mkScanner twisted12 (-92, -2380, -20)%Z] in
  match max_distance positioned with
  | Ok m =>
      (∃ i j a b, i < j ∧ positioned !! i = Some a ∧ positioned !! j = Some b ∧
                  m = cityblock (position a) (position b)) ∧
      (∀ i j a b, i ≠ j → positioned !! i = Some a → positioned !! j = Some b →
                  (cityblock (position a) (position b) ≤ m)%Z)
  | Raise _ => length positioned < 2
  end ∧
  max_distance positioned = Ok 2492%Z ∧
  Float64.pdist Float64.cityblock (position <$> positioned)
  = Float64.of_int <$> [1357; 2492; 1317]%Z.
Proof.
  cbv zeta. split; [| split; vm_compute; reflexivity].
  apply (proj2 (proj2 (proj2 (summary_counts_union_and_max_spread
           [Scanner_default twisted12;
            mkScanner twisted12 (68, -1246, -43)%Z;
            mkScanner twisted12 (-92, -2380, -20)%Z])))).
  apply (bool_decide_unpack _). vm_compute. exact I.
Defined.
